(** * bam: a random-access reader for BAM files and their BAI index

    A shallow embedding of the Go package [github.com/joiningdata/bam]
    (index.go, bam.go, cache.go) and the properties of its bin arithmetic,
    index loader, record parser, region query and block caches.

    Conventions of the embedding.
    - Go's fixed-width integers are [Z] with the wrap-around of every
      conversion and operation written out ([uint64], [uint32], [int32], ...).
    - [[]byte] and Go [string]s are [list byte]; a slice additionally carries
      the bytes between its length and its capacity where the code slices
      beyond the length (see [slice]).
    - Slices of one array share its bytes. The one write that the package
      makes through a slice, the mask in [parseAlignment], is carried to
      every slice of that array that is read afterwards: the buffer of the
      record loops, the block in the cache and the packed sequences of the
      records parsed before (see [overlay]).
    - Go maps are [gmap]s; a missing key reads as the zero value.
    - A function that can panic, return an [error], or loop returns an
      [outcome]. *)

From stdpp Require Import gmap list strings.
From Stdlib Require Import ZArith Lia.
From Stdlib.Strings Require Import Byte.

Local Open Scope Z_scope.

(** ** Fixed-width integers *)

Definition uint8 (z : Z) : Z := z mod 2 ^ 8.
Definition uint16 (z : Z) : Z := z mod 2 ^ 16.
Definition uint32 (z : Z) : Z := z mod 2 ^ 32.
Definition uint64 (z : Z) : Z := z mod 2 ^ 64.

(** Conversion to a signed type keeps the low bits and reads them in two's
    complement. *)
Definition int32 (z : Z) : Z := (z + 2 ^ 31) mod 2 ^ 32 - 2 ^ 31.
Definition int64 (z : Z) : Z := (z + 2 ^ 63) mod 2 ^ 64 - 2 ^ 63.

(** [int] is 64 bits wide on the platforms the package targets. *)
Definition int (z : Z) : Z := int64 z.

(** ** Outcomes of fallible code *)

Inductive error : Type :=
  | EOF                 (* io.EOF *)
  | ErrUnexpectedEOF    (* io.ErrUnexpectedEOF *)
  | ErrInvalidIndex.    (* fmt.Errorf("bam: invalid index file '%v'", tmp) *)

Inductive outcome (A : Type) : Type :=
  | Ret (a : A)         (* normal return *)
  | Fail (e : error)    (* return nil, err *)
  | Panic               (* run-time panic *)
  | Timeout.            (* the loop budget of the model ran out *)

Arguments Ret {A} a.
Arguments Fail {A} e.
Arguments Panic {A}.
Arguments Timeout {A}.

#[global] Instance outcome_ret : MRet outcome := fun _ a => Ret a.
#[global] Instance outcome_bind : MBind outcome := fun _ _ k m =>
  match m with
  | Ret a => k a
  | Fail e => Fail e
  | Panic => Panic
  | Timeout => Timeout
  end.

(** ** index.go: offsets, chunks, bins *)

(** [type Offset uint64] *)
Definition Compressed (o : Z) : Z := int64 (Z.shiftr o 16).
Definition Uncompressed (o : Z) : Z := uint16 (Z.land o 65535).

Record Chunk : Type := { Begin : Z; End : Z }.

(** [type Bin []Chunk] *)
Record IndexReference : Type := {
  Bins : gmap Z (list Chunk);
  Intervals : list Z;
  Unmapped : Chunk;
  TotalMapped : Z;
  TotalUnmapped : Z
}.

Record Index : Type := { Refs : list IndexReference }.

(** *** Region to bin

    [getBin] and [getBins] do not read their receiver. Both parameters are
    [uint64]; the results are [uint32]. In Go [>>] binds tighter than [+],
    so [1 + beginPos>>12] is [1 + (beginPos>>12)]. *)

Definition getBin (beginPos endPos : Z) : Z :=
  let endPos := Z.shiftr (uint64 (endPos - 1)) 14 in
  let beginPos := Z.shiftr beginPos 14 in
  if beginPos =? endPos then
    uint32 ((Z.shiftl 1 15 - 1) / 7 + uint32 beginPos)
  else if Z.shiftr beginPos 3 =? Z.shiftr endPos 3 then
    uint32 ((Z.shiftl 1 12 - 1) / 7 + uint32 (Z.shiftr beginPos 3))
  else if Z.shiftr beginPos 6 =? Z.shiftr endPos 6 then
    uint32 ((Z.shiftl 1 9 - 1) / 7 + uint32 (Z.shiftr beginPos 6))
  else if Z.shiftr beginPos 9 =? Z.shiftr endPos 9 then
    uint32 ((Z.shiftl 1 6 - 1) / 7 + uint32 (Z.shiftr beginPos 9))
  else if Z.shiftr beginPos 12 =? Z.shiftr endPos 12 then
    uint32 ((Z.shiftl 1 3 - 1) / 7 + uint32 (Z.shiftr beginPos 12))
  else 0.

(** [n] rounds of [res = append(res, uint32(k)); k++]. *)
Fixpoint appendBins (n : nat) (k : Z) (res : list Z) : list Z :=
  match n with
  | O => res
  | S n' => appendBins n' (k + 1) (res ++ [uint32 k])
  end.

(** [for k := lo; k <= hi; k++ { res = append(res, uint32(k)) }]: the body
    runs [hi + 1 - lo] times when [lo <= hi] and not at all otherwise ([k]
    stays far below 2^64 since both bounds are at most 4681 + 2^50). *)
Definition forBins (lo hi : Z) (res : list Z) : list Z :=
  appendBins (Z.to_nat (hi + 1 - lo)) lo res.

Definition getBins (beginPos endPos : Z) : list Z :=
  let res := [0] in               (* make([]uint32, 1, ...) *)
  let endPos := Z.shiftr (uint64 (endPos - 1)) 14 in
  let beginPos := Z.shiftr beginPos 14 in
  let res := forBins (1 + Z.shiftr beginPos 12) (1 + Z.shiftr endPos 12) res in
  let res := forBins (9 + Z.shiftr beginPos 9) (1 + Z.shiftr endPos 9) res in
  let res := forBins (73 + Z.shiftr beginPos 6) (73 + Z.shiftr endPos 6) res in
  let res :=
    forBins (585 + Z.shiftr beginPos 3) (585 + Z.shiftr endPos 3) res in
  let res := forBins (4681 + beginPos) (4681 + endPos) res in
  res.

(** The region-to-bin rule in the words of the format description: with
    [b' = b >> 14] and [e' = (e-1) >> 14], the first level, narrowest first,
    at which the shifted ends agree. *)
Definition binLevels : list (Z * Z) :=
  [(0, 4681); (3, 585); (6, 73); (9, 9); (12, 1)].

Fixpoint firstAgreeing (b' e' : Z) (levels : list (Z * Z)) : Z :=
  match levels with
  | [] => 0
  | (s, base) :: rest =>
      if Z.shiftr b' s =? Z.shiftr e' s then base + Z.shiftr b' s
      else firstAgreeing b' e' rest
  end.

Definition reg2bin_spec (b e : Z) : Z :=
  firstAgreeing (Z.shiftr b 14) (Z.shiftr (e - 1) 14) binLevels.

(** The bin set of the format description: bin 0 and, per level, every bin
    from [base + (b' >> s)] to [base + (e' >> s)]. *)
Definition inLevel (b' e' : Z) (x : Z) (level : Z * Z) : Prop :=
  fst level + Z.shiftr b' (snd level) <= x
  <= fst level + Z.shiftr e' (snd level).

Definition reg2bins_spec (b e : Z) (x : Z) : Prop :=
  x = 0 \/
  Exists (inLevel (Z.shiftr b 14) (Z.shiftr (e - 1) 14) x)
         [(1, 12); (9, 9); (73, 6); (585, 3); (4681, 0)].

(** ** Bytes and slices *)

#[global] Instance byte_eq_decision : EqDecision byte := byte_eq_dec.
#[global] Instance byte_countable : Countable byte :=
  inj_countable Byte.to_N Byte.of_N Byte.of_to_N.

Definition byteZ (b : byte) : Z := Z.of_N (Byte.to_N b).

(** The byte with the given value; the value is reduced modulo 256 first. *)
Definition byteOf (z : Z) : byte :=
  default x00 (Byte.of_N (Z.to_N (uint8 z))).

(** [binary.LittleEndian.Uint16] and [Uint32]: each starts with a bounds
    check of the last byte it reads and panics on a shorter slice. *)
Fixpoint leValue (bs : list byte) : Z :=
  match bs with
  | [] => 0
  | b :: rest => Z.lor (byteZ b) (Z.shiftl (leValue rest) 8)
  end.

Definition leUint (width : nat) (b : list byte) : outcome Z :=
  if decide (width <= length b)%nat then Ret (leValue (take width b))
  else Panic.

Definition Uint16 := leUint 2.
Definition Uint32 := leUint 4.

(** A [[]byte] value: [elems] are the bytes below the length, [spare] the
    bytes of the backing array between the length and the capacity. An index
    expression is checked against the length, a slice expression [s[lo:hi]]
    against the capacity, and [s[lo:]] is [s[lo:len(s)]]. *)
Record slice : Type := { elems : list byte; spare : list byte }.

Definition len (s : slice) : Z := Z.of_nat (length (elems s)).
Definition capacity (s : slice) : Z :=
  Z.of_nat (length (elems s) + length (spare s)).

(** A slice whose capacity is its length. *)
Definition exact (bs : list byte) : slice := {| elems := bs; spare := [] |}.

(** [s[i]] *)
Definition at_ (s : slice) (i : Z) : outcome byte :=
  if decide (0 <= i) then
    match elems s !! Z.to_nat i with
    | Some b => Ret b
    | None => Panic
    end
  else Panic.

(** [s[lo:]] *)
Definition from (s : slice) (lo : Z) : outcome slice :=
  if decide (0 <= lo <= len s) then
    Ret {| elems := drop (Z.to_nat lo) (elems s); spare := spare s |}
  else Panic.

(** [s[lo:hi]] *)
Definition range (s : slice) (lo hi : Z) : outcome slice :=
  if decide (0 <= lo <= hi /\ hi <= capacity s) then
    let backing := elems s ++ spare s in
    Ret {| elems := take (Z.to_nat (hi - lo)) (drop (Z.to_nat lo) backing);
           spare := drop (Z.to_nat hi) backing |}
  else Panic.

(** The bytes of the array that a slice can reach: from its first byte to
    its capacity. *)
Definition backing (s : slice) : list byte := elems s ++ spare s.

(** Slices of one array share its bytes. When [sub] was cut from [r] at
    [lo] (as [r[lo:]] or [r[lo:hi]]) and a write through [sub] has left the
    array as [sub'] shows it, [overlay r lo sub'] is [r] on that array: the
    bytes before [lo] as they were, the bytes from [lo] on as [sub'] has
    them. *)
Definition overlay (r : slice) (lo : Z) (sub' : slice) : slice :=
  let arr := take (Z.to_nat lo) (backing r) ++ backing sub' in
  {| elems := take (length (elems r)) arr;
     spare := drop (length (elems r)) arr |}.

(** ** index.go: LoadIndex *)

(** [io.ReadFull(ff, buf)] with [len(buf) = n] on a file whose unread part is
    [ff]: the bytes read and the rest of the file. *)
Definition ReadFull (ff : list byte) (n : nat)
  : outcome (list byte * list byte) :=
  if decide (n <= length ff)%nat then Ret (take n ff, drop n ff)
  else if decide (length ff = 0)%nat then Fail EOF
  else Fail ErrUnexpectedEOF.

(** Decoding of [n] little-endian [uint64] values. *)
Fixpoint decodeUint64s (n : nat) (bs : list byte) : list Z :=
  match n with
  | O => []
  | S n' => leValue (take 8 bs) :: decodeUint64s n' (drop 8 bs)
  end.

Fixpoint decodeChunks (n : nat) (bs : list byte) : list Chunk :=
  match n with
  | O => []
  | S n' =>
      {| Begin := leValue (take 8 bs); End := leValue (take 8 (drop 8 bs)) |}
      :: decodeChunks n' (drop 16 bs)
  end.

(** [b := make([]Chunk, nc); err = binary.Read(ff, le, &b)]: [make] panics on
    a negative length; [binary.Read] reads [16 * nc] bytes with [io.ReadFull]
    and decodes them. *)
Definition readChunks (ff : list byte) (nc : Z)
  : outcome (list Chunk * list byte) :=
  if decide (nc < 0) then Panic
  else
    '(bs, ff) ← ReadFull ff (16 * Z.to_nat nc);
    mret (decodeChunks (Z.to_nat nc) bs, ff).

Definition readOffsets (ff : list byte) (ni : Z)
  : outcome (list Z * list byte) :=
  if decide (ni < 0) then Panic
  else
    '(bs, ff) ← ReadFull ff (8 * Z.to_nat ni);
    mret (decodeUint64s (Z.to_nat ni) bs, ff).

Definition zeroChunk : Chunk := {| Begin := 0; End := 0 |}.

Definition zeroIndexReference : IndexReference :=
  {| Bins := ∅; Intervals := []; Unmapped := zeroChunk;
     TotalMapped := 0; TotalUnmapped := 0 |}.

(** The loop [for j := int32(0); j < nb; j++] over the bins of one
    reference, [n] rounds of it. *)
Fixpoint loadBins (n : nat) (ff : list byte) (r : IndexReference)
  : outcome (IndexReference * list byte) :=
  match n with
  | O => Ret (r, ff)
  | S n' =>
      '(tmp, ff) ← ReadFull ff 8;
      bid ← Uint32 (take 4 tmp);
      nc ← Uint32 (drop 4 tmp);
      let nc := int32 nc in
      '(b, ff) ← readChunks ff nc;
      if decide (bid = 37450) then
        (* Unmapped reads are held/recorded separately *)
        match b !! 0%nat, b !! 1%nat with
        | Some b0, Some b1 =>
            loadBins n' ff
              {| Bins := Bins r; Intervals := Intervals r; Unmapped := b0;
                 TotalMapped := uint64 (Begin b1);
                 TotalUnmapped := uint64 (End b1) |}
        | _, _ => Panic
        end
      else
        loadBins n' ff
          {| Bins := <[bid := b]> (Bins r); Intervals := Intervals r;
             Unmapped := Unmapped r; TotalMapped := TotalMapped r;
             TotalUnmapped := TotalUnmapped r |}
  end.

(** One round of [for i, r := range f.Refs]: [r] starts as the zero
    [IndexReference] of [make]. A negative size hint of [make(map, nb)] is
    ignored by the runtime. *)
Definition loadRef (ff : list byte) : outcome (IndexReference * list byte) :=
  '(tmp, ff) ← ReadFull ff 4;
  nb ← Uint32 tmp;
  let nb := int32 nb in
  '(r, ff) ← loadBins (Z.to_nat nb) ff zeroIndexReference;
  '(tmp, ff) ← ReadFull ff 4;
  ni ← Uint32 tmp;
  let ni := int32 ni in
  '(ivs, ff) ← readOffsets ff ni;
  mret ({| Bins := Bins r; Intervals := ivs; Unmapped := Unmapped r;
           TotalMapped := TotalMapped r;
           TotalUnmapped := TotalUnmapped r |}, ff).

Fixpoint loadRefs (n : nat) (ff : list byte) : outcome (list IndexReference) :=
  match n with
  | O => Ret []
  | S n' =>
      '(r, ff) ← loadRef ff;
      rest ← loadRefs n' ff;
      mret (r :: rest)
  end.

(** [LoadIndex(filename)] on a file with the given content. The progress
    callback is not part of the model: it returns nothing and the package's
    default does nothing. *)
Definition LoadIndex (ff : list byte) : outcome Index :=
  '(tmp, ff) ← ReadFull ff 8;
  if decide (tmp = ["B"; "A"; "M"; x01]%byte) then Fail ErrInvalidIndex
  else
    n ← Uint32 (drop 4 tmp);
    let n := int32 n in
    if decide (n < 0) then Panic      (* make([]IndexReference, n) *)
    else
      refs ← loadRefs (Z.to_nat n) ff;
      mret {| Refs := refs |}.

(** ** bam.go: alignment records *)

Record Reference : Type := { Name : list byte; Length : Z }.

(** The dynamic values of [AuxData map[string]interface{}]. A [float32] is
    kept as its bit pattern. The arrays of type ['B'] are read with
    [binary.Read(bb, le, &arr)] on an [*interface{}], which [binary.Read]
    rejects, so they keep the [count] zero elements of [make]; [AuxNil] is
    the nil interface left by an unknown element type. *)
Inductive auxValue : Type :=
  | AuxByte (v : Z)                 (* 'A', 'C' : uint8 *)
  | AuxInt8 (v : Z)                 (* 'c' *)
  | AuxInt16 (v : Z)                (* 's' *)
  | AuxUint16 (v : Z)               (* 'S' *)
  | AuxInt32 (v : Z)                (* 'i' *)
  | AuxUint32 (v : Z)               (* 'I' *)
  | AuxFloat32 (bits : Z)           (* 'f' *)
  | AuxString (s : list byte)       (* 'Z' *)
  | AuxBytes (x : list byte)        (* 'H' *)
  | AuxArray (elem : byte) (count : Z)
  | AuxNil.

Record bamAlignment : Type := {
  refID : Z;
  pos : Z;
  mapq : Z;
  bin : Z;
  cigarOpCount : Z;
  flag : Z;
  seqLen : Z;
  nextRefID : Z;
  nextPos : Z;
  tlen : Z;
  ReadName : list byte;
  cigarPacked : list Z;
  seqPacked : list byte;
  qual : list byte;
  AuxData : gmap (list byte) auxValue
}.

Definition int8 (z : Z) : Z := (z + 2 ^ 7) mod 2 ^ 8 - 2 ^ 7.
Definition int16 (z : Z) : Z := (z + 2 ^ 15) mod 2 ^ 16 - 2 ^ 15.

(** [le.Uint16(r[offs:])] and [le.Uint32(r[offs:])]. *)
Definition u16at (r : slice) (offs : Z) : outcome Z :=
  s ← from r offs; Uint16 (elems s).
Definition u32at (r : slice) (offs : Z) : outcome Z :=
  s ← from r offs; Uint32 (elems s).

Fixpoint decodeUint32s (n : nat) (bs : list byte) : list Z :=
  match n with
  | O => []
  | S n' => leValue (take 4 bs) :: decodeUint32s n' (drop 4 bs)
  end.

(** [binary.Read(bytes.NewBuffer(bs), le, &x)] for a [[]uint32] of [n] zero
    elements, the error dropped: a short buffer leaves the zeros. *)
Definition readUint32s (n : nat) (bs : list byte) : list Z :=
  if decide (4 * n <= length bs)%nat then decodeUint32s n bs
  else replicate n 0.

(** The value of a hexadecimal digit, as [strconv.ParseUint] reads it. *)
Definition hexDigit (b : byte) : option Z :=
  let c := byteZ b in
  if decide (48 <= c <= 57) then Some (c - 48)
  else if decide (97 <= c <= 102) then Some (c - 97 + 10)
  else if decide (65 <= c <= 70) then Some (c - 65 + 10)
  else None.

(** [z, _ := strconv.ParseUint(string(r[o:o+2]), 16, 8)]: zero on a syntax
    error. *)
Definition parseHexPair (hi lo : byte) : Z :=
  match hexDigit hi, hexDigit lo with
  | Some h, Some l => 16 * h + l
  | _, _ => 0
  end.

(** [for r[o] != 0 { o++ }] from the bytes at [o] on: the bytes before the
    terminator, or a panic when the index runs off the slice. *)
Fixpoint scanText (bs : list byte) : outcome (list byte) :=
  match bs with
  | [] => Panic
  | b :: rest =>
      if decide (b = x00) then Ret []
      else s ← scanText rest; mret (b :: s)
  end.

(** [for r[o] != 0 { ...r[o:o+2]...; o += 2 }]: the decoded bytes and the
    distance walked. With one byte left the loop panics, at the slice
    expression or at the next index. *)
Fixpoint scanHex (bs : list byte) : outcome (list byte * Z) :=
  match bs with
  | [] => Panic
  | b :: rest =>
      if decide (b = x00) then Ret ([], 0)
      else
        match rest with
        | [] => Panic
        | c :: rest' =>
            '(x, n) ← scanHex rest';
            mret (byteOf (parseHexPair b c) :: x, n + 2)
        end
  end.

(** One round of [for offs < len(r)] over the auxiliary fields: the new
    offset and table. *)
Definition parseAuxField (r : slice) (offs : Z)
    (aux : gmap (list byte) auxValue)
  : outcome (Z * gmap (list byte) auxValue) :=
  tag ← range r offs (offs + 2);
  let tag := elems tag in
  vtype ← at_ r (offs + 2);
  let offs := offs + 3 in
  if decide (vtype = "A" \/ vtype = "c" \/ vtype = "C")%byte then
    v ← at_ r offs;
    let v := if decide (vtype = "c"%byte) then AuxInt8 (int8 (byteZ v))
             else AuxByte (byteZ v) in
    mret (offs + 1, <[tag := v]> aux)
  else if decide (vtype = "s" \/ vtype = "S")%byte then
    x ← u16at r offs;
    let v := if decide (vtype = "s"%byte) then AuxInt16 (int16 x)
             else AuxUint16 x in
    mret (offs + 2, <[tag := v]> aux)
  else if decide (vtype = "i" \/ vtype = "I")%byte then
    x ← u32at r offs;
    let v := if decide (vtype = "i"%byte) then AuxInt32 (int32 x)
             else AuxUint32 x in
    mret (offs + 4, <[tag := v]> aux)
  else if decide (vtype = "f"%byte) then
    bb ← from r offs;
    let x := if decide (4 <= length (elems bb))%nat
             then leValue (take 4 (elems bb)) else 0 in
    mret (offs + 4, <[tag := AuxFloat32 x]> aux)
  else if decide (vtype = "Z"%byte) then
    bb ← from r offs;
    s ← scanText (elems bb);
    mret (offs + Z.of_nat (length s) + 1, <[tag := AuxString s]> aux)
  else if decide (vtype = "H"%byte) then
    bb ← from r offs;
    '(x, n) ← scanHex (elems bb);
    mret (offs + n + 1, <[tag := AuxBytes x]> aux)
  else if decide (vtype = "B"%byte) then
    vtype ← at_ r (offs + 1);
    count ← u32at r (offs + 2);
    let offs := offs + 6 in
    _ ← from r offs;                       (* bytes.NewBuffer(r[offs:]) *)
    if decide (vtype = "c" \/ vtype = "C")%byte then
      mret (offs + int count, <[tag := AuxArray vtype count]> aux)
    else if decide (vtype = "s" \/ vtype = "S")%byte then
      mret (offs + int (uint32 (count * 2)),
            <[tag := AuxArray vtype count]> aux)
    else if decide (vtype = "i" \/ vtype = "I" \/ vtype = "f")%byte then
      mret (offs + int (uint32 (count * 4)),
            <[tag := AuxArray vtype count]> aux)
    else
      mret (offs, <[tag := AuxNil]> aux)
  else
    mret (offs, aux).                      (* log.Printf(...) *)

(** [for offs < len(r) { ... }]; every round moves [offs] on by at least 3,
    so [len(r)] rounds are always enough. *)
Fixpoint parseAux (rounds : nat) (r : slice) (offs : Z)
    (aux : gmap (list byte) auxValue) : outcome (gmap (list byte) auxValue) :=
  if decide (offs < len r) then
    match rounds with
    | O => Timeout
    | S rounds' =>
        '(offs, aux) ← parseAuxField r offs aux;
        parseAux rounds' r offs aux
    end
  else Ret aux.

(** [b.seqPacked[len(b.seqPacked)-1] &= 0xF0] *)
Definition maskLast (bs : list byte) : outcome (list byte) :=
  match last bs with
  | Some b => Ret (removelast bs ++ [byteOf (Z.land (byteZ b) 240)])
  | None => Panic
  end.

(** [parseAlignment(r)]: the record that the call returns. The call also
    writes one byte of the array behind [r], the masked one; the array as
    the call leaves it is [afterParse r] below. *)
Definition parseAlignment (r : slice) : outcome bamAlignment :=
  refID_ ← u32at r 0;
  pos_ ← u32at r 4;
  readNameLen ← at_ r 8;
  mapq_ ← at_ r 9;
  bin_ ← u16at r 10;
  cigarOpCount_ ← u16at r 12;
  flag_ ← u16at r 14;
  seqLen_ ← u32at r 16;
  let seqLen_ := int32 seqLen_ in
  nextRefID_ ← u32at r 20;
  nextPos_ ← u32at r 24;
  tlen_ ← u32at r 28;
  let offs := 32 + byteZ readNameLen in
  name ← range r 32 (offs - 1);
  bb ← from r offs;
  let cigarPacked_ := readUint32s (Z.to_nat cigarOpCount_) (elems bb) in
  let offs := offs + 4 * cigarOpCount_ in
  let n := Z.quot (int (int32 (1 + seqLen_))) 2 in
  sp ← range r offs (offs + n);
  seqPacked_ ← (if decide (Z.rem seqLen_ 2 = 1) then maskLast (elems sp)
                else Ret (elems sp));
  let offs := offs + n in
  q ← range r offs (offs + int seqLen_);
  let offs := offs + int seqLen_ in
  aux ← parseAux (length (elems r)) r offs ∅;
  mret {| refID := int32 refID_; pos := int32 pos_; mapq := byteZ mapq_;
          bin := bin_; cigarOpCount := cigarOpCount_; flag := flag_;
          seqLen := seqLen_; nextRefID := int32 nextRefID_;
          nextPos := int32 nextPos_; tlen := int32 tlen_;
          ReadName := elems name; cigarPacked := cigarPacked_;
          seqPacked := seqPacked_; qual := elems q; AuxData := aux |}.

(** Where [parseAlignment(r)] finds the packed sequence, and its length in
    bases: [offs] at [b.seqPacked = r[offs : offs+(int(1+b.seqLen)/2)]] and
    [b.seqLen]. *)
Definition seqField (r : slice) : outcome (Z * Z) :=
  readNameLen ← at_ r 8;
  cigarOpCount_ ← u16at r 12;
  seqLen_ ← u32at r 16;
  mret (32 + byteZ readNameLen + 4 * cigarOpCount_, int32 seqLen_).

(** The array behind [r] when [parseAlignment(r)] has returned. [b.seqPacked]
    is a slice of [r], so that
    [b.seqPacked[len(b.seqPacked)-1] &= 0xF0] writes to the array of [r]: for
    an odd [seq_length] the byte at [offs + n - 1] loses its low half. That
    byte lies beyond [len(r)] when the sequence field runs past the end of
    [r] into its capacity. Nothing else is written. *)
Definition afterParse (r : slice) : outcome slice :=
  '(offs, seqLen_) ← seqField r;
  let n := Z.quot (int (int32 (1 + seqLen_))) 2 in
  sp ← range r offs (offs + n);
  if decide (Z.rem seqLen_ 2 = 1) then
    masked ← maskLast (elems sp);
    mret (overlay r offs {| elems := masked; spare := spare sp |})
  else mret r.

(** A record of [b.Alignments] whose [seqPacked] is a slice of the array
    that [parseNext] is still reading: the record and the place of its
    packed sequence in that array. *)
Definition pending : Type := bamAlignment * Z.

(** The record with its packed sequence read from the array [arr]. *)
Definition resolve (arr : list byte) (v : pending) : bamAlignment :=
  let ba := v.1 in
  {| refID := refID ba; pos := pos ba; mapq := mapq ba; bin := bin ba;
     cigarOpCount := cigarOpCount ba; flag := flag ba; seqLen := seqLen ba;
     nextRefID := nextRefID ba; nextPos := nextPos ba; tlen := tlen ba;
     ReadName := ReadName ba; cigarPacked := cigarPacked ba;
     seqPacked := take (length (seqPacked ba)) (drop (Z.to_nat v.2) arr);
     qual := qual ba; AuxData := AuxData ba |}.

(** The record loop of [parseNext]: [for len(r) >= 4 { ... }]. Every round
    consumes at least four bytes. [seen] holds the bytes of the array that
    the loop has left behind, so that [seen ++ backing r] is the array from
    the place where the loop began; the write of [parseAlignment] goes into
    [r], from which the next round reads. The records are kept with the
    places of their packed sequences. *)
Fixpoint parseRecords (rounds : nat) (seen : list byte) (r : slice)
    (acc : list pending) : outcome (list pending * list byte * slice) :=
  if decide (4 <= len r) then
    match rounds with
    | O => Timeout
    | S rounds' =>
        blocksize ← Uint32 (elems r);
        let blocksize := int blocksize in
        if decide (len r < blocksize + 4) then Ret (acc, seen, r)
        else
          rec ← range r 4 (4 + blocksize);
          ba ← parseAlignment rec;
          '(offs, _) ← seqField rec;
          rec ← afterParse rec;
          let r := overlay r 4 rec in
          let place := Z.of_nat (length seen) + 4 + offs in
          r' ← from r (4 + blocksize);
          parseRecords rounds'
            (seen ++ take (Z.to_nat (4 + blocksize)) (elems r)) r'
            (acc ++ [(ba, place)])
    end
  else Ret (acc, seen, r).

(** [b.parseNext(r)] with [b.Alignments = acc]: the extended list and the
    unparsed rest. The new records have their packed sequences as the array
    holds them when the call returns; the records of [acc] were cut from
    other arrays. *)
Definition parseNext (acc : list bamAlignment) (r : slice)
  : outcome (list bamAlignment * slice) :=
  '(new, seen, r') ← parseRecords (length (elems r)) [] r [];
  mret (acc ++ map (resolve (seen ++ backing r')) new, r').

(** [UnpackSequence(packed)] *)
Definition packmap : list byte := ["="; "A"; "C"; "M"; "G"; "R"; "S"; "V";
                                   "T"; "W"; "Y"; "H"; "K"; "D"; "B"; "N"]%byte.

Definition packmapAt (i : Z) : byte := default x00 (packmap !! Z.to_nat i).

Fixpoint unpackLoop (packed : list byte) (r : list byte) : list byte :=
  match packed with
  | [] => r
  | p :: rest =>
      unpackLoop rest
        (r ++ [packmapAt (Z.land (Z.shiftr (byteZ p) 4) 15);
               packmapAt (Z.land (byteZ p) 15)])
  end.

Definition UnpackSequence (packed : list byte) : outcome (list byte) :=
  let r := unpackLoop packed [] in
  match last r with
  | None => Panic                              (* r[len(r)-1] on an empty r *)
  | Some c => if decide (c = "="%byte) then Ret (removelast r) else Ret r
  end.

(** ** cache.go: block caches *)

(** *** mapCache *)

Definition newMapCache (n : Z) : gmap Z slice := ∅.

Definition mapCache_Get (x : gmap Z slice) (key : Z) : option slice := x !! key.

Definition mapCache_Set (x : gmap Z slice) (key : Z) (value : slice)
  : gmap Z slice := <[key := value]> x.

(** *** blockLRUCache (S4-LRU)

    The cache holds pointers: [data] maps a key to a [*list.Element], every
    element of a queue points to a [*cacheItem]. In the embedding a
    [cacheItem] lives in [items] under its index, a list element has a
    number, [elemItem] gives the item an element points to, and a queue is
    the list of its elements from front to back. *)

Record cacheItem : Type := { qid : Z; key : Z; value : slice }.

Record blockLRUCache : Type := {
  cap : Z;
  data : gmap Z nat;
  queues : list (list nat);
  elemItem : list nat;
  items : list cacheItem
}.

Definition newLRUCache (capacity : Z) : blockLRUCache :=
  {| cap := Z.quot (int (capacity + 3)) 4;    (* the sum wraps as an [int] *)
     data := ∅;
     queues := [[]; []; []; []];
     elemItem := [];
     items := [] |}.

(** A lookup that panics where Go would: an index out of range or a nil
    pointer. *)
Definition must {A : Type} (o : option A) : outcome A :=
  match o with
  | Some a => Ret a
  | None => Panic
  end.

(** [c.queues[i]] *)
Definition queue (c : blockLRUCache) (i : Z) : outcome (list nat) :=
  if decide (0 <= i) then must (queues c !! Z.to_nat i) else Panic.

Definition setQueue (c : blockLRUCache) (i : Z) (q : list nat)
  : blockLRUCache :=
  {| cap := cap c; data := data c; queues := <[Z.to_nat i := q]> (queues c);
     elemItem := elemItem c; items := items c |}.

Definition setData (c : blockLRUCache) (d : gmap Z nat) : blockLRUCache :=
  {| cap := cap c; data := d; queues := queues c;
     elemItem := elemItem c; items := items c |}.

(** The type assertion on [e.Value]: the pointer to the item and the item
    behind it. *)
Definition itemOf (c : blockLRUCache) (e : nat) : outcome (nat * cacheItem) :=
  p ← must (elemItem c !! e);
  it ← must (items c !! p);
  mret (p, it).

(** [*p = it] *)
Definition store (c : blockLRUCache) (p : nat) (it : cacheItem)
  : blockLRUCache :=
  {| cap := cap c; data := data c; queues := queues c;
     elemItem := elemItem c; items := <[p := it]> (items c) |}.

(** [l.MoveToFront(e)] and [l.Remove(e)] of container/list act only on an
    element of [l]. *)
Definition without (e : nat) (q : list nat) : list nat :=
  filter (λ x, x ≠ e) q.

Definition moveToFront (e : nat) (q : list nat) : list nat :=
  if decide (e ∈ q) then e :: without e q else q.

(** [c.queues[i].MoveToFront(e)] *)
Definition MoveToFront (c : blockLRUCache) (i : Z) (e : nat)
  : outcome blockLRUCache :=
  q ← queue c i; mret (setQueue c i (moveToFront e q)).

(** [c.queues[i].PushFront(&item)] for the item at [p]: a new list element. *)
Definition PushFront (c : blockLRUCache) (i : Z) (p : nat)
  : outcome (nat * blockLRUCache) :=
  q ← queue c i;
  let e := length (elemItem c) in
  mret (e, {| cap := cap c; data := data c;
              queues := <[Z.to_nat i := e :: q]> (queues c);
              elemItem := elemItem c ++ [p]; items := items c |}).

Definition blockLRUCache_Get (c : blockLRUCache) (k : Z)
  : outcome (option slice * blockLRUCache) :=
  match data c !! k with
  | None => Ret (None, c)
  | Some v =>
      '(pi, item) ← itemOf c v;
      if decide (qid item = 3) then
        (* can't bump up a level *)
        c ← MoveToFront c 3 v;
        mret (Some (value item), c)
      else
        next ← queue c (qid item + 1);
        if decide (Z.of_nat (length next) < cap c) then
          (* plenty of room to bump up *)
          q ← queue c (qid item);
          let c := setQueue c (qid item) (without v q) in
          let item := {| qid := qid item + 1; key := key item;
                         value := value item |} in
          let c := store c pi item in
          '(e, c) ← PushFront c (qid item) pi;
          let c := setData c (<[k := e]> (data c)) in
          mret (Some (value item), c)
        else
          (* full queues, swap items in place *)
          w ← must (last next);
          '(po, other) ← itemOf c w;
          (* keep qid on each *)
          let c := store c po {| qid := qid other; key := key item;
                                 value := value other |} in
          '(_, item') ← itemOf c v;
          let c := store c pi {| qid := qid item'; key := key other;
                                 value := value item' |} in
          '(_, other') ← itemOf c w;
          let c := store c po {| qid := qid other'; key := key other';
                                 value := value item |} in
          '(_, item') ← itemOf c v;
          let c := store c pi {| qid := qid item'; key := key item';
                                 value := value other |} in
          '(_, item') ← itemOf c v;
          let c := setData c (<[key item' := v]> (data c)) in
          '(_, other') ← itemOf c w;
          let c := setData c (<[key other' := w]> (data c)) in
          c ← MoveToFront c (qid item') v;
          c ← MoveToFront c (qid other') w;
          '(_, other') ← itemOf c w;
          mret (Some (value other'), c)
  end.

Definition blockLRUCache_Set (c : blockLRUCache) (k : Z) (val : slice)
  : outcome blockLRUCache :=
  q0 ← queue c 0;
  if decide (Z.of_nat (length q0) < cap c) then
    let p := length (items c) in
    let item := {| qid := 0; key := k; value := val |} in
    let c := {| cap := cap c; data := data c; queues := queues c;
                elemItem := elemItem c; items := items c ++ [item] |} in
    '(e, c) ← PushFront c 0 p;
    mret (setData c (<[k := e]> (data c)))
  else
    (* reuse the tail item *)
    e ← must (last q0);
    '(p, item) ← itemOf c e;
    let c := setData c (delete (key item) (data c)) in
    let c := store c p {| qid := qid item; key := k; value := val |} in
    let c := setData c (<[k := e]> (data c)) in
    MoveToFront c 0 e.

(** *** The [blockCache] interface and its two implementations *)

Inductive blockCache : Type :=
  | MapCache (x : gmap Z slice)
  | LRUCache (c : blockLRUCache).

Definition blockCache_Get (b : blockCache) (k : Z)
  : outcome (option slice * blockCache) :=
  match b with
  | MapCache x => Ret (mapCache_Get x k, MapCache x)
  | LRUCache c => '(r, c) ← blockLRUCache_Get c k; mret (r, LRUCache c)
  end.

Definition blockCache_Set (b : blockCache) (k : Z) (val : slice)
  : outcome blockCache :=
  match b with
  | MapCache x => Ret (MapCache (mapCache_Set x k val))
  | LRUCache c => c ← blockLRUCache_Set c k val; mret (LRUCache c)
  end.

(** ** bam.go: the alignment map and region queries *)

(** The open file and its gzip reader ([f] and [z]) are the field [source]:
    [None] once [Load] has closed and cleared them, otherwise the function
    that gives, for a file offset, the result of seeking there, resetting the
    gzip reader and reading one member: the value of the BSIZE subfield and
    the uncompressed data, or [None] when one of these steps fails. The
    field [Index] of the Go struct is [index] here. *)
Record AlignmentMap : Type := {
  source : option (Z -> option (Z * slice));
  partial : bool;
  blocks : blockCache;
  blockAdvance : gmap Z Z;
  index : option Index;
  Header : list byte;
  References : list Reference;
  Alignments : list bamAlignment
}.

Definition withCache (b : AlignmentMap) (c : blockCache) (adv : gmap Z Z)
  : AlignmentMap :=
  {| source := source b; partial := partial b; blocks := c;
     blockAdvance := adv; index := index b; Header := Header b;
     References := References b; Alignments := Alignments b |}.

(** [b.loadBlock(bid, atoffset)]; every failure inside it is a panic. *)
Definition loadBlock (b : AlignmentMap) (bid : Z) (atoffset : Z)
  : outcome (slice * AlignmentMap) :=
  fetch ← must (source b);
  '(bsizeField, data_) ← must (fetch bid);
  let bsize := uint16 (bsizeField + 1) in
  let adv := <[bid := bsize]> (blockAdvance b) in
  cache ← (if partial b then Ret (blocks b)
           else blockCache_Set (blocks b) bid data_);
  r ← from data_ atoffset;
  mret (r, withCache b cache adv).

(** [ba.pos+ba.tlen >= int32(beginPos) && ba.pos <= int32(endPos)] *)
Definition inRange (ba : bamAlignment) (beginPos endPos : Z) : bool :=
  bool_decide (int32 (pos ba + tlen ba) >= int32 beginPos)
  && bool_decide (pos ba <= int32 endPos).

Definition spaces (n : Z) : list byte := replicate (Z.to_nat n) " "%byte.

(** The text row of one record: the body of the range test, which is the
    same text in [noindexGetMap] and in [GetMap]. *)
Definition formatRow (ba : bamAlignment) (beginPos endPos : Z)
  : outcome (list byte) :=
  seq ← UnpackSequence (seqPacked ba);
  let px := int (int (pos ba) - int beginPos) in
  '(pad, seq) ←
    (if decide (px > 0) then Ret (spaces px, seq)
     else
       let px := int (- px) in
       if decide (px >= Z.of_nat (length seq)) then Ret (@nil byte, @nil byte)
       else if decide (0 <= px) then Ret (@nil byte, drop (Z.to_nat px) seq)
       else Panic);
  let seq := pad ++ seq in
  let epad := int (uint64 (endPos - beginPos)) in
  if decide (Z.of_nat (length seq) > epad) then
    if decide (0 <= epad) then Ret (take (Z.to_nat epad) seq) else Panic
  else Ret (seq ++ spaces (epad - Z.of_nat (length seq))).

(** [if <in range> { ...; result = append(result, seq) }] *)
Definition appendRow (ba : bamAlignment) (beginPos endPos : Z)
    (result : list (list byte)) : outcome (list (list byte)) :=
  if inRange ba beginPos endPos then
    row ← formatRow ba beginPos endPos; mret (result ++ [row])
  else Ret result.

(** [ref := b.References[refID]] and the range check that opens both query
    functions. *)
Definition checkRange (b : AlignmentMap) (refID_ beginPos endPos : Z)
  : outcome unit :=
  if decide (0 <= refID_) then
    ref ← must (References b !! Z.to_nat refID_);
    if decide (beginPos > uint64 (Length ref) \/ endPos > uint64 (Length ref))
    then Panic                                   (* panic("invalid range") *)
    else Ret ()
  else Panic.

(** [for _, ba := range b.Alignments { ... }] *)
Fixpoint scanAlignments (bas : list bamAlignment) (refID_ beginPos endPos : Z)
    (result : list (list byte)) : outcome (list (list byte)) :=
  match bas with
  | [] => Ret result
  | ba :: rest =>
      if decide (refID ba ≠ refID_) then
        scanAlignments rest refID_ beginPos endPos result
      else
        result ← appendRow ba beginPos endPos result;
        scanAlignments rest refID_ beginPos endPos result
  end.

Definition noindexGetMap (b : AlignmentMap) (refID_ beginPos endPos : Z)
  : outcome (list (list byte)) :=
  _ ← checkRange b refID_ beginPos endPos;
  if partial b then
    Panic               (* panic("bam file is too large - please index it") *)
  else scanAlignments (Alignments b) refID_ beginPos endPos [].

(** The record loop of [GetMap], [for len(r) >= 4 { ... }]: the rows, the
    bytes left behind, the unconsumed bytes and the flag [done]. Every round
    consumes at least four bytes. As in [parseRecords], [seen ++ backing r]
    is the array from the place where the loop began, and the write of
    [parseAlignment] goes into [r]. The row is made from the record before
    any later write. *)
Fixpoint scanRecords (rounds : nat) (seen : list byte) (r : slice)
    (refID_ beginPos endPos : Z) (result : list (list byte))
  : outcome (list (list byte) * list byte * slice * bool) :=
  if decide (4 <= len r) then
    match rounds with
    | O => Timeout
    | S rounds' =>
        blocksize ← Uint32 (elems r);
        let blocksize := int blocksize in
        if decide (len r < blocksize + 4) then Ret (result, seen, r, false)
        else
          rec ← range r 4 (4 + blocksize);
          ba ← parseAlignment rec;
          rec ← afterParse rec;
          let r := overlay r 4 rec in
          if decide (refID ba ≠ refID_) then Ret (result, seen, r, true)
          else
            (* alignment is actually in range? *)
            result ← appendRow ba beginPos endPos result;
            r' ← from r (4 + blocksize);
            scanRecords rounds'
              (seen ++ take (Z.to_nat (4 + blocksize)) (elems r)) r'
              refID_ beginPos endPos result
    end
  else Ret (result, seen, r, false).

(** The block that a cache holds under a key is a slice of the array that
    [GetMap] parses when it reads the block at the offset [po]: what
    [parseAlignment] writes shows in the cache. [blockCache_written c k po r]
    is the cache [c] when the array behind [r = block[po:]] has come to be as
    [r] shows it; a key that the cache does not hold leaves it as it is. *)
Definition blockLRUCache_written (c : blockLRUCache) (k : Z) (po : Z)
    (r : slice) : blockLRUCache :=
  match data c !! k with
  | None => c
  | Some e =>
      match elemItem c !! e with
      | None => c
      | Some p =>
          match items c !! p with
          | None => c
          | Some it =>
              store c p {| qid := qid it; key := key it;
                           value := overlay (value it) po r |}
          end
      end
  end.

Definition blockCache_written (b : blockCache) (k : Z) (po : Z) (r : slice)
  : blockCache :=
  match b with
  | MapCache x =>
      match x !! k with
      | None => MapCache x
      | Some block => MapCache (<[k := overlay block po r]> x)
      end
  | LRUCache c => LRUCache (blockLRUCache_written c k po r)
  end.

(** The block loop of one chunk, [for pi := p1; pi <= p2; { ... }]. Nothing
    bounds its rounds (an advance of zero repeats a block for ever), so the
    embedding takes a budget and answers [Timeout] when it is spent. With a
    remainder the records are parsed in a new array, [newchunk]; without one
    they are parsed in the array of the block itself, and the cache shows
    the writes. *)
Fixpoint scanBlocks (budget : nat) (b : AlignmentMap) (pi po p2 : Z)
    (remainder : slice) (refID_ beginPos endPos : Z)
    (result : list (list byte)) : outcome (list (list byte) * AlignmentMap) :=
  if decide (pi <= p2) then
    match budget with
    | O => Timeout
    | S budget' =>
        '(hit, cache) ← blockCache_Get (blocks b) pi;
        let b := withCache b cache (blockAdvance b) in
        '(r, b) ← match hit with
                  | None => loadBlock b pi po
                  | Some r => r ← from r po; mret (r, b)
                  end;
        let block := pi in
        let pi := int64 (pi + int64 (default 0 (blockAdvance b !! pi))) in
        let copied := bool_decide (len remainder > 0) in
        let r := if copied then exact (elems remainder ++ elems r) else r in
        '(result, seen, r, isDone) ←
          scanRecords (length (elems r)) [] r refID_ beginPos endPos result;
        let b :=
          if copied then b
          else withCache b
                 (blockCache_written (blocks b) block po
                    {| elems := seen ++ elems r; spare := spare r |})
                 (blockAdvance b) in
        if (isDone : bool) then Ret (result, b)  (* done with this chunk *)
        else scanBlocks budget' b pi 0 p2 r refID_ beginPos endPos result
    end
  else Ret (result, b).

(** [for _, chunk := range bin { ... }] *)
Fixpoint scanChunks (budget : nat) (b : AlignmentMap) (chunks : list Chunk)
    (refID_ beginPos endPos : Z) (result : list (list byte))
  : outcome (list (list byte) * AlignmentMap) :=
  match chunks with
  | [] => Ret (result, b)
  | chunk :: rest =>
      let p1 := Compressed (Begin chunk) in
      let po := Uncompressed (Begin chunk) in
      let p2 := Compressed (End chunk) in
      '(result, b) ←
        scanBlocks budget b p1 po p2 (exact []) refID_ beginPos endPos result;
      scanChunks budget b rest refID_ beginPos endPos result
  end.

(** [b.GetMap(refID, beginPos, endPos)]: the rows and the alignment map with
    its cache and advance table as the query leaves them. [budget] bounds
    the rounds of the block loop of each chunk. The progress percentage (a
    [float64] quotient by the number of chunks, infinite and harmless for an
    empty bin) and the calls of the progress callback, which returns
    nothing, are left out. *)
Definition GetMap (budget : nat) (b : AlignmentMap) (refID_ beginPos endPos : Z)
  : outcome (list (list byte) * AlignmentMap) :=
  _ ← checkRange b refID_ beginPos endPos;
  match index b with
  | None =>
      result ← noindexGetMap b refID_ beginPos endPos; mret (result, b)
  | Some idx =>
      iref ← must (Refs idx !! Z.to_nat refID_);
      let bid := getBin beginPos endPos in
      let bin_ := default [] (Bins iref !! bid) in
      scanChunks budget b bin_ refID_ beginPos endPos []
  end.

(** ** Scenario data *)

(** [width] bytes of [z], least significant first. *)
Fixpoint leBytes (width : nat) (z : Z) : list byte :=
  match width with
  | O => []
  | S w => byteOf z :: leBytes w (Z.shiftr z 8)
  end.

(** The body of an alignment record without CIGAR operations and without
    auxiliary fields: read name ["r"], mapping quality 0, bin 4681, no mate. *)
Definition recordBytes (refID_ pos_ tlen_ seqLen_ : Z) (packed : list byte)
  : list byte :=
  leBytes 4 refID_ ++ leBytes 4 pos_ ++ [byteOf 2; byteOf 0] ++ leBytes 2 4681
  ++ leBytes 2 0 ++ leBytes 2 0 ++ leBytes 4 seqLen_ ++ leBytes 4 (-1)
  ++ leBytes 4 (-1) ++ leBytes 4 tlen_ ++ ["r"; x00]%byte ++ packed
  ++ replicate (Z.to_nat seqLen_) xff.

(** A record as it stands in the uncompressed BAM stream, behind its
    [block_size]. *)
Definition framed (rec : list byte) : list byte :=
  leBytes 4 (Z.of_nat (length rec)) ++ rec.

(** [ref_id = 0], [pos = 100], [template_length = 10], sequence ACGT. *)
Definition acgtRecord : list byte :=
  recordBytes 0 100 10 4 [byteOf 18; byteOf 72].


(** A record with [seq_length = 0]. *)
Definition emptySeqRecord : list byte := recordBytes 0 100 10 0 [].

Definition oneReference : list Reference :=
  [{| Name := ["c"]%byte; Length := 1000 |}].

(** A preloaded BAM without index whose records are the parse of [stream]. *)
Definition preloaded (stream : list byte) : outcome AlignmentMap :=
  '(als, _) ← parseNext [] (exact stream);
  mret {| source := None; partial := false;
          blocks := MapCache {[ 0 := exact stream ]};
          blockAdvance := {[ 0 := 100 ]}; index := None; Header := [];
          References := oneReference; Alignments := als |}.

(** The same file with an index whose single bin is [bid], holding one chunk
    that starts and ends in the block at offset 0. The alignment list is left
    empty: the indexed query does not read it. *)
Definition indexed (stream : list byte) (bid : Z) : AlignmentMap :=
  {| source := None; partial := false;
     blocks := MapCache {[ 0 := exact stream ]};
     blockAdvance := {[ 0 := 100 ]};
     index := Some {| Refs := [{| Bins := {[ bid := [zeroChunk] ]};
                                  Intervals := []; Unmapped := zeroChunk;
                                  TotalMapped := 0; TotalUnmapped := 0 |}] |};
     Header := []; References := oneReference; Alignments := [] |}.

(** The record [acgtRecord] as [parseAlignment] decodes it. *)
Definition acgtAlignment : bamAlignment :=
  {| refID := 0; pos := 100; mapq := 0; bin := 4681; cigarOpCount := 0;
     flag := 0; seqLen := 4; nextRefID := -1; nextPos := -1; tlen := 10;
     ReadName := ["r"]%byte; cigarPacked := [];
     seqPacked := [byteOf 18; byteOf 72];
     qual := [xff; xff; xff; xff]; AuxData := ∅ |}.

(** Operations on an S4-LRU cache and their execution in sequence. *)
Inductive cacheOp : Type :=
  | OpSet (k : Z) (val : slice)
  | OpGet (k : Z).

Definition step (c : blockLRUCache) (op : cacheOp) : outcome blockLRUCache :=
  match op with
  | OpSet k val => blockLRUCache_Set c k val
  | OpGet k => '(_, c) ← blockLRUCache_Get c k; mret c
  end.

Fixpoint run (c : blockLRUCache) (ops : list cacheOp) : outcome blockLRUCache :=
  match ops with
  | [] => Ret c
  | op :: rest => c ← step c op; run c rest
  end.

(** [Set] of the keys 1, 2, 3, 4 in this order, each with a one-byte block. *)
Definition block (k : Z) : slice := exact [byteOf k].

Definition fourSets : list cacheOp :=
  [OpSet 1 (block 1); OpSet 2 (block 2); OpSet 3 (block 3); OpSet 4 (block 4)].

(** The answer of [Get(k)] after the operations [ops] on a fresh cache of
    the given capacity. *)
Definition getAfter (capacity : Z) (ops : list cacheOp) (k : Z)
  : outcome (option slice) :=
  c ← run (newLRUCache capacity) ops;
  '(r, _) ← blockLRUCache_Get c k;
  mret r.

(** The number of cached items across the four queues. *)
Definition cached (c : blockLRUCache) : nat := length (concat (queues c)).

(** The queue in which the lookup map finds key [k], and whether the element
    is at the front of that queue. *)
Definition placeOf (c : blockLRUCache) (k : Z) : option (nat * bool) :=
  e ← data c !! k;
  i ← list_find (λ q, e ∈ q) (queues c);
  Some (i.1, bool_decide (head i.2 = Some e)).

(** Where the lookup map finds [k] after the operations [ops]. *)
Definition placeAfter (capacity : Z) (ops : list cacheOp) (k : Z)
  : outcome (option (nat * bool)) :=
  c ← run (newLRUCache capacity) ops; mret (placeOf c k).

(** Element [e] of queue [i] points to the item [it] stored at [p]. *)
Definition live (c : blockLRUCache) (i e p : nat) (it : cacheItem) : Prop :=
  ∃ q, queues c !! i = Some q /\ e ∈ q /\
       elemItem c !! e = Some p /\ items c !! p = Some it.

(** The shape of every cache that [Set] and [Get] build from a fresh one:
    four queues of at most [cap] distinct elements; every element points to
    an item whose [qid] is the queue it is in; two elements of the queues do
    not share an item; the lookup map sends a key to an element of a queue
    whose item carries that key. *)
Record wf (c : blockLRUCache) : Prop := {
  wf_queues : length (queues c) = 4%nat;
  wf_cap : 1 <= cap c;
  wf_len : ∀ i q, queues c !! i = Some q -> Z.of_nat (length q) <= cap c;
  wf_nodup : ∀ i q, queues c !! i = Some q -> NoDup q;
  wf_total : ∀ i q e, queues c !! i = Some q -> e ∈ q ->
               ∃ p it, elemItem c !! e = Some p /\ items c !! p = Some it;
  wf_qid : ∀ i e p it, live c i e p it -> qid it = Z.of_nat i;
  wf_inj : ∀ i e p it i' e' it',
             live c i e p it -> live c i' e' p it' -> e = e';
  wf_data : ∀ k e, data c !! k = Some e ->
              ∃ i p it, live c i e p it /\ key it = k
}.

(** All rows have the given width. *)
Definition allWide (width : Z) (rows : list (list byte)) : Prop :=
  Forall (λ row, Z.of_nat (length row) = width) rows.



(** The characters of a packed sequence, upper nibble first. *)
Definition nibbles (packed : list byte) : list byte :=
  flat_map (λ p, [packmapAt (Z.land (Z.shiftr (byteZ p) 4) 15);
                  packmapAt (Z.land (byteZ p) 15)]) packed.

(** The row of a query in the words of the format description: pad or trim
    on the left to the start of the window, then pad or trim on the right to
    its width. *)
Definition rowOf (seq : list byte) (pos_ beginPos endPos : Z) : list byte :=
  let left := if decide (pos_ > beginPos) then spaces (pos_ - beginPos) ++ seq
              else drop (Z.to_nat (beginPos - pos_)) seq in
  take (Z.to_nat (endPos - beginPos)) (left ++ spaces (endPos - beginPos)).

(** ** Bins as parts of the reference *)

(** The part of the reference that a bin stands for, as its first position
    and its width: 2^14 positions for a leaf, eight times more per level
    above, the whole 2^29 for bin 0. *)
Definition binExtent (x : Z) : Z * Z :=
  if decide (4681 <= x) then (Z.shiftl (x - 4681) 14, 2 ^ 14)
  else if decide (585 <= x) then (Z.shiftl (x - 585) 17, 2 ^ 17)
  else if decide (73 <= x) then (Z.shiftl (x - 73) 20, 2 ^ 20)
  else if decide (9 <= x) then (Z.shiftl (x - 9) 23, 2 ^ 23)
  else if decide (1 <= x) then (Z.shiftl (x - 1) 26, 2 ^ 26)
  else (0, 2 ^ 29).

(** The region [[b, e)] lies within the extent of bin [x]. *)
Definition binCovers (x b e : Z) : Prop :=
  (binExtent x).1 <= b /\ e <= (binExtent x).1 + (binExtent x).2.

(** The extent of bin [x] meets the region [[b, e)]. *)
Definition binMeets (x b e : Z) : Prop :=
  (binExtent x).1 < e /\ b < (binExtent x).1 + (binExtent x).2.

(** A list of numbers that grows strictly from each place to the next. *)
Definition increasing (l : list Z) : Prop :=
  ∀ (i j : nat) x y, (i < j)%nat -> l !! i = Some x -> l !! j = Some y -> x < y.

(** ** Readers of a file *)

(** The two errors of a read at or across the end of the file. *)
Definition eofError (e : error) : Prop := e = EOF \/ e = ErrUnexpectedEOF.

(** [f] reads a file from its start: a successful result is decided by a
    prefix [used] of the file, whatever follows it, and on every shorter file
    [f] fails with one of the end-of-file errors. *)
Definition prefixReader {A : Type} (f : list byte -> outcome A) : Prop :=
  ∀ ff a, f ff = Ret a ->
    ∃ used rest, ff = used ++ rest /\
      (∀ other, f (used ++ other) = Ret a) /\
      (∀ n, (n < length used)%nat ->
         ∃ e, f (take n used) = Fail e /\ eofError e).

(** The same for a reader that hands the unread rest of the file on. *)
Definition readsPrefix {A : Type} (f : list byte -> outcome (A * list byte))
  : Prop :=
  ∀ ff a rest, f ff = Ret (a, rest) ->
    ∃ used, ff = used ++ rest /\
      (∀ other, f (used ++ other) = Ret (a, other)) /\
      (∀ n, (n < length used)%nat ->
         ∃ e, f (take n used) = Fail e /\ eofError e).

(** ** The layout of an index file

    The bytes of an index file as the format lays them out, for the check
    of [LoadIndex] against them: the magic, the number of references and,
    for every reference, its bins (number, chunk count and chunks of each,
    the pseudo-bin 37450 with its two chunks last when there is one) and its
    intervals. Every number is little-endian. *)

Definition encodeChunk (c : Chunk) : list byte :=
  leBytes 8 (Begin c) ++ leBytes 8 (End c).

Definition encodeBin (b : Z * list Chunk) : list byte :=
  leBytes 4 b.1 ++ leBytes 4 (Z.of_nat (length b.2))
  ++ flat_map encodeChunk b.2.

(** What the file says about one reference: its bins in the order of the
    file, the two chunks of the pseudo-bin (the place of the unmapped reads,
    then the two counts) and the intervals. *)
Record refContent : Type := {
  rcBins : list (Z * list Chunk);
  rcPseudo : option (Chunk * Chunk);
  rcIntervals : list Z
}.

Definition binsOf (rc : refContent) : list (Z * list Chunk) :=
  rcBins rc ++
  match rcPseudo rc with
  | Some (c0, c1) => [(37450, [c0; c1])]
  | None => []
  end.

Definition encodeRef (rc : refContent) : list byte :=
  leBytes 4 (Z.of_nat (length (binsOf rc)))
  ++ flat_map encodeBin (binsOf rc)
  ++ leBytes 4 (Z.of_nat (length (rcIntervals rc)))
  ++ flat_map (leBytes 8) (rcIntervals rc).

Definition encodeIndex (magic : list byte) (rcs : list refContent)
  : list byte :=
  magic ++ leBytes 4 (Z.of_nat (length rcs)) ++ flat_map encodeRef rcs.

(** The bins in a map, a later bin of the same number in place of an earlier
    one. *)
Definition binMap (bins : list (Z * list Chunk)) : gmap Z (list Chunk) :=
  foldl (λ m b, <[b.1 := b.2]> m) ∅ bins.

(** The reference that the content stands for. *)
Definition referenceOf (rc : refContent) : IndexReference :=
  {| Bins := binMap (rcBins rc);
     Intervals := rcIntervals rc;
     Unmapped := match rcPseudo rc with
                 | Some (c0, _) => c0 | None => zeroChunk end;
     TotalMapped := match rcPseudo rc with
                    | Some (_, c1) => Begin c1 | None => 0 end;
     TotalUnmapped := match rcPseudo rc with
                      | Some (_, c1) => End c1 | None => 0 end |}.

(** The numbers fit their fields: offsets 64 bits, bin numbers 32 bits and
    other than 37450, counts 31 bits. *)
Definition chunkFits (c : Chunk) : Prop :=
  0 <= Begin c < 2 ^ 64 /\ 0 <= End c < 2 ^ 64.

Definition binFits (b : Z * list Chunk) : Prop :=
  0 <= b.1 < 2 ^ 32 /\ b.1 ≠ 37450 /\
  Z.of_nat (length b.2) < 2 ^ 31 /\ Forall chunkFits b.2.

Definition contentFits (rc : refContent) : Prop :=
  Forall binFits (rcBins rc) /\
  match rcPseudo rc with
  | Some (c0, c1) => chunkFits c0 /\ chunkFits c1
  | None => True
  end /\
  Z.of_nat (length (binsOf rc)) < 2 ^ 31 /\
  Z.of_nat (length (rcIntervals rc)) < 2 ^ 31 /\
  Forall (λ o, 0 <= o < 2 ^ 64) (rcIntervals rc).

(** ** What a query keeps *)


(** * Properties *)

(** ** Integer conversions *)

Lemma uint64_small z : 0 <= z < 2 ^ 64 -> uint64 z = z.
Proof. intros H. unfold uint64. apply Z.mod_small, H. Qed.

Lemma uint32_small z : 0 <= z < 2 ^ 32 -> uint32 z = z.
Proof. intros H. unfold uint32. apply Z.mod_small, H. Qed.

Lemma int32_small z : - 2 ^ 31 <= z < 2 ^ 31 -> int32 z = z.
Proof. intros H. unfold int32. rewrite Z.mod_small; lia. Qed.

Lemma int64_small z : - 2 ^ 63 <= z < 2 ^ 63 -> int64 z = z.
Proof. intros H. unfold int64. rewrite Z.mod_small; lia. Qed.

Lemma int_small z : - 2 ^ 63 <= z < 2 ^ 63 -> int z = z.
Proof. apply int64_small. Qed.

Lemma shiftr_bounds x k : 0 <= x -> 0 <= k -> 0 <= Z.shiftr x k <= x.
Proof.
  intros Hx Hk. rewrite Z.shiftr_div_pow2 by lia.
  assert (0 < 2 ^ k) by (apply Z.pow_pos_nonneg; lia).
  split; [apply Z.div_pos; lia|].
  apply Z.div_le_upper_bound; [lia|]. nia.
Qed.

Lemma shiftr_mono x y k : 0 <= k -> x <= y -> Z.shiftr x k <= Z.shiftr y k.
Proof.
  intros Hk Hxy. rewrite !Z.shiftr_div_pow2 by lia.
  apply Z.div_le_mono; [apply Z.pow_pos_nonneg; lia | lia].
Qed.

(** The window coordinates of a valid region. *)
Lemma windows_bounds b e :
  0 <= b < e -> e <= 2 ^ 29 ->
  uint64 (e - 1) = e - 1 /\
  0 <= Z.shiftr b 14 <= Z.shiftr (e - 1) 14 /\ Z.shiftr (e - 1) 14 < 2 ^ 15.
Proof.
  intros Hb He. split; [apply uint64_small; lia|].
  split; [split; [apply shiftr_bounds; lia | apply shiftr_mono; lia]|].
  rewrite Z.shiftr_div_pow2 by lia.
  apply Z.div_lt_upper_bound; lia.
Qed.

(** ** Region to bin *)

(** On a valid region no conversion of [getBin] truncates, and its chain of
    tests is the narrowest-level-first rule. *)
Lemma getBin_reg2bin_spec b e :
  0 <= b < e -> e <= 2 ^ 29 -> getBin b e = reg2bin_spec b e.
Proof.
  intros Hb He.
  destruct (windows_bounds b e Hb He) as (Hu & Hlo & Hhi).
  unfold getBin, reg2bin_spec. rewrite Hu. cbn [firstAgreeing binLevels].
  set (b' := Z.shiftr b 14) in *. set (e' := Z.shiftr (e - 1) 14) in *.
  rewrite !Z.shiftr_0_r.
  assert (Hs : ∀ k, 0 <= k -> 0 <= Z.shiftr b' k < 2 ^ 15).
  { intros k Hk. pose proof (shiftr_bounds b' k). lia. }
  change ((Z.shiftl 1 15 - 1) / 7) with 4681.
  change ((Z.shiftl 1 12 - 1) / 7) with 585.
  change ((Z.shiftl 1 9 - 1) / 7) with 73.
  change ((Z.shiftl 1 6 - 1) / 7) with 9.
  change ((Z.shiftl 1 3 - 1) / 7) with 1.
  pose proof (Hs 3). pose proof (Hs 6). pose proof (Hs 9). pose proof (Hs 12).
  repeat case_match; try reflexivity;
    rewrite !uint32_small; rewrite ?uint32_small; lia.
Qed.

(** C8: on every valid region [getBin] is the narrowest-level-first rule of
    the format description (shifts 0, 3, 6, 9, 12 of the 16 KB window
    numbers, bases 4681, 585, 73, 9, 1, else bin 0), and the four literal
    evaluations hold. *)
Theorem getBin_narrowest_level_first :
  (∀ b e, 0 <= b < e -> e <= 2 ^ 29 -> getBin b e = reg2bin_spec b e) /\
  getBin 0 1 = 4681 /\ getBin 0 16384 = 4681 /\
  getBin 0 16385 = 585 /\ getBin 0 (2 ^ 29) = 0.
Proof. split; [exact getBin_reg2bin_spec | by vm_compute]. Qed.

(** The theorem at the region (0, 16385), whose ends first agree one level
    above the leaves. *)
Lemma getBin_narrowest_level_first_witness :
  getBin 0 16385 = reg2bin_spec 0 16385.
Proof.
  apply (proj1 getBin_narrowest_level_first 0 16385); [lia | by vm_compute].
Defined.

Lemma elem_of_appendBins n k res x :
  x ∈ appendBins n k res ↔
  x ∈ res \/ ∃ j, k <= j < k + Z.of_nat n /\ x = uint32 j.
Proof.
  revert k res. induction n as [|n IH]; intros k res; cbn [appendBins].
  - split; [auto | intros [?|(j & ? & _)]; [done | lia]].
  - rewrite IH, elem_of_app, list_elem_of_singleton. split.
    + intros [[? | ->] | (j & ? & ->)]; [auto | right; exists k; split; [lia|done]
                                     | right; exists j; split; [lia|done]].
    + intros [?|(j & ? & ->)]; [auto|].
      destruct (decide (j = k)) as [->|]; [auto|].
      right. exists j. split; [lia|done].
Qed.

Lemma elem_of_forBins lo hi res x :
  x ∈ forBins lo hi res ↔ x ∈ res \/ ∃ j, lo <= j <= hi /\ x = uint32 j.
Proof.
  unfold forBins. rewrite elem_of_appendBins. split.
  - intros [?|(j & ? & ->)]; [auto|]. right. exists j. split; [lia|done].
  - intros [?|(j & ? & ->)]; [auto|]. right. exists j. split; [lia|done].
Qed.

(** The bins [getBins] emits on a valid region: the level with base 9 is
    bounded above by [1 + (e' >> 9)]. *)
Lemma elem_of_getBins b e x :
  0 <= b < e -> e <= 2 ^ 29 ->
  let b' := Z.shiftr b 14 in
  let e' := Z.shiftr (e - 1) 14 in
  x ∈ getBins b e ↔
    x = 0 \/ 1 + Z.shiftr b' 12 <= x <= 1 + Z.shiftr e' 12
    \/ 9 + Z.shiftr b' 9 <= x <= 1 + Z.shiftr e' 9
    \/ 73 + Z.shiftr b' 6 <= x <= 73 + Z.shiftr e' 6
    \/ 585 + Z.shiftr b' 3 <= x <= 585 + Z.shiftr e' 3
    \/ 4681 + b' <= x <= 4681 + e'.
Proof.
  intros Hb He b' e'.
  destruct (windows_bounds b e Hb He) as (Hu & Hlo & Hhi).
  unfold getBins. rewrite Hu. fold b' e'.
  rewrite !elem_of_forBins, list_elem_of_singleton.
  assert (Hs : ∀ k, 0 <= k -> 0 <= Z.shiftr b' k /\ Z.shiftr e' k < 2 ^ 15).
  { intros k Hk. pose proof (shiftr_bounds b' k). pose proof (shiftr_bounds e' k).
    fold b' e' in Hlo, Hhi. lia. }
  pose proof (Hs 3). pose proof (Hs 6). pose proof (Hs 9). pose proof (Hs 12).
  fold b' e' in Hlo, Hhi.
  split.
  - intros [[[[[?|(j & ? & ->)]|(j & ? & ->)]|(j & ? & ->)]|(j & ? & ->)]|(j & ? & ->)];
      rewrite ?uint32_small by lia; lia.
  - intros [?|[?|[?|[?|[?|?]]]]];
      [ do 5 left; done
      | do 4 left; right | do 3 left; right | do 2 left; right
      | left; right | right ];
      (exists x; split; [lia | rewrite uint32_small; lia]).
Qed.

(** C1: on the region [0, 1) the code emits the bins 0, 1, 73, 585 and
    4681; bin 9, which the description lists for the level with shift 9, is
    not among them. *)
Theorem getBins_unit_region_misses_bin_9 :
  getBins 0 1 = [0; 1; 73; 585; 4681] /\
  (9 ∉ getBins 0 1) /\ reg2bins_spec 0 1 9.
Proof.
  split; [by vm_compute|]. split.
  - change (getBins 0 1) with [0; 1; 73; 585; 4681].
    rewrite !elem_of_cons, elem_of_nil. lia.
  - right. apply Exists_cons_tl, Exists_cons_hd.
    unfold inLevel. split; by vm_compute.
Qed.

(** C2: the region [0, 2^20 + 1) has leaf bin 9, and the bin set of the
    same region does not contain bin 9. *)
Theorem getBin_not_in_getBins :
  getBin 0 1048577 = 9 /\ (9 ∉ getBins 0 1048577).
Proof.
  split; [by vm_compute|].
  rewrite elem_of_getBins; [|lia|by vm_compute]. cbv zeta.
  rewrite !Z.shiftr_div_pow2 by lia.
  change (2 ^ 14) with 16384. change (2 ^ 12) with 4096.
  change (2 ^ 9) with 512. change (2 ^ 6) with 64. change (2 ^ 3) with 8.
  Z.div_mod_to_equations. lia.
Qed.

(** Outside the level with base 9 the leaf bin is in the bin set. *)
Lemma getBin_in_getBins_off_level_9 b e :
  0 <= b < e -> e <= 2 ^ 29 ->
  ¬ (9 <= getBin b e <= 72) -> getBin b e ∈ getBins b e.
Proof.
  intros Hb He Hoff.
  rewrite elem_of_getBins by done.
  rewrite getBin_reg2bin_spec in * by done.
  destruct (windows_bounds b e Hb He) as (_ & Hlo & Hhi).
  unfold reg2bin_spec in *. cbn [firstAgreeing binLevels] in *.
  set (b' := Z.shiftr b 14) in *. set (e' := Z.shiftr (e - 1) 14) in *.
  rewrite !Z.shiftr_0_r in *.
  assert (Hs : ∀ k, 0 <= k -> 0 <= Z.shiftr b' k <= Z.shiftr e' k).
  { intros k Hk. pose proof (shiftr_bounds b' k). pose proof (shiftr_mono b' e' k).
    lia. }
  pose proof (Hs 3). pose proof (Hs 6). pose proof (Hs 9). pose proof (Hs 12).
  assert (Z.shiftr b' 9 < 64).
  { rewrite Z.shiftr_div_pow2 by lia. apply Z.div_lt_upper_bound; lia. }
  repeat case_match; try lia.
Qed.

(** ** The index loader *)

Lemma ReadFull_Ret ff n :
  (n <= length ff)%nat -> ReadFull ff n = Ret (take n ff, drop n ff).
Proof. intros H. unfold ReadFull. by rewrite decide_True. Qed.

Lemma bind_not_invalid {A B : Type} (m : outcome A) (k : A -> outcome B) :
  m ≠ Fail ErrInvalidIndex -> (∀ a, m = Ret a -> k a ≠ Fail ErrInvalidIndex) ->
  (m ≫= k) ≠ Fail ErrInvalidIndex.
Proof.
  intros Hm Hk. unfold mbind, outcome_bind.
  destruct m; [by apply Hk | | done..].
  intros [= ->]. by apply Hm.
Qed.

Create HintDb loader.

Ltac not_invalid :=
  repeat first
    [ apply bind_not_invalid; [|intros ? _]
    | match goal with |- (let '(_, _) := ?p in _) ≠ _ => destruct p end
    | case_decide | case_match | discriminate
    | solve [eauto with loader] ].

Lemma ReadFull_not_invalid ff n : ReadFull ff n ≠ Fail ErrInvalidIndex.
Proof. unfold ReadFull. not_invalid. Qed.

Lemma leUint_not_invalid w b : leUint w b ≠ Fail ErrInvalidIndex.
Proof. unfold leUint. not_invalid. Qed.

#[local] Hint Resolve ReadFull_not_invalid leUint_not_invalid : loader.

Lemma readChunks_not_invalid ff nc : readChunks ff nc ≠ Fail ErrInvalidIndex.
Proof. unfold readChunks. not_invalid. Qed.

Lemma readOffsets_not_invalid ff ni : readOffsets ff ni ≠ Fail ErrInvalidIndex.
Proof. unfold readOffsets. not_invalid. Qed.

#[local] Hint Resolve readChunks_not_invalid readOffsets_not_invalid : loader.

Lemma loadBins_not_invalid n ff r : loadBins n ff r ≠ Fail ErrInvalidIndex.
Proof.
  revert ff r. induction n as [|n IH]; intros ff r; cbn [loadBins]; [done|].
  unfold Uint32. not_invalid.
Qed.

#[local] Hint Resolve loadBins_not_invalid : loader.

Lemma loadRef_not_invalid ff : loadRef ff ≠ Fail ErrInvalidIndex.
Proof. unfold loadRef, Uint32. not_invalid. Qed.

#[local] Hint Resolve loadRef_not_invalid : loader.

Lemma loadRefs_not_invalid n ff : loadRefs n ff ≠ Fail ErrInvalidIndex.
Proof.
  revert ff. induction n as [|n IH]; intros ff; cbn [loadRefs]; [done|].
  not_invalid.
Qed.

#[local] Hint Resolve loadRefs_not_invalid : loader.

(** The magic test compares the eight bytes read with a four-byte slice and
    so never succeeds: what follows depends on the bytes behind the magic
    only. *)
Lemma LoadIndex_after_magic m rest :
  length m = 4%nat -> (4 <= length rest)%nat ->
  LoadIndex (m ++ rest) =
    (n ← Uint32 (take 4 rest);
     if decide (int32 n < 0) then Panic
     else refs ← loadRefs (Z.to_nat (int32 n)) (drop 4 rest);
          mret {| Refs := refs |}).
Proof.
  intros Hm Hrest. unfold LoadIndex.
  rewrite ReadFull_Ret by (rewrite length_app; lia).
  destruct m as [|m0 [|m1 [|m2 [|m3 [|]]]]]; try done. cbn.
  rewrite decide_False; [done|].
  intros Heq. apply (f_equal length) in Heq.
  cbn in Heq. rewrite length_take in Heq. lia.
Qed.

Lemma LoadIndex_short m rest :
  length m = 4%nat -> (length rest < 4)%nat ->
  LoadIndex (m ++ rest) = Fail ErrUnexpectedEOF.
Proof.
  intros Hm Hrest. unfold LoadIndex, ReadFull.
  rewrite length_app, decide_False, decide_False by lia. done.
Qed.

(** C3: a file whose magic is not [BAI\1] is loaded without error (here
    [XXXX] followed by a reference count of zero), the loader never returns
    its invalid-index error, and its result does not depend on the four magic
    bytes at all. *)
Theorem LoadIndex_accepts_any_magic :
  LoadIndex (["X"; "X"; "X"; "X"]%byte ++ leBytes 4 0) = Ret {| Refs := [] |} /\
  (∀ ff, LoadIndex ff ≠ Fail ErrInvalidIndex) /\
  (∀ m m' rest, length m = 4%nat -> length m' = 4%nat ->
     LoadIndex (m ++ rest) = LoadIndex (m' ++ rest)).
Proof.
  split; [by vm_compute|]. split.
  - intros ff. unfold LoadIndex.
    apply bind_not_invalid; [apply ReadFull_not_invalid|].
    intros [tmp ff'] Hread.
    assert (length tmp = 8%nat) as Hlen.
    { unfold ReadFull in Hread. case_decide; [|by repeat case_decide].
      injection Hread as <- <-. rewrite length_take. lia. }
    (* the branch is taken by no buffer that [ReadFull] can return *)
    case_decide as Hmagic; [by rewrite Hmagic in Hlen|].
    unfold Uint32. not_invalid.
  - intros m m' rest Hm Hm'.
    destruct (decide (4 <= length rest)%nat).
    + by rewrite !LoadIndex_after_magic.
    + rewrite !LoadIndex_short by lia. done.
Qed.

(** The theorem at the magics [BAI\1] and [BAM\1] in front of an index of
    one reference without bins and intervals. *)
Lemma LoadIndex_accepts_any_magic_witness :
  LoadIndex (["B"; "A"; "I"; x01]%byte ++ leBytes 4 1 ++ leBytes 8 0) =
  LoadIndex (["B"; "A"; "M"; x01]%byte ++ leBytes 4 1 ++ leBytes 8 0).
Proof.
  apply (proj2 (proj2 LoadIndex_accepts_any_magic)); reflexivity.
Defined.

(** ** Inversion of sequenced outcomes *)

Lemma bind_Ret {A B : Type} (m : outcome A) (k : A -> outcome B) (b : B) :
  m ≫= k = Ret b -> ∃ a, m = Ret a /\ k a = Ret b.
Proof. unfold mbind, outcome_bind. destruct m; [eauto | done..]. Qed.

(** Splits a hypothesis [m ≫= k = Ret b] into the result of [m] and the
    rest. *)
Ltac bind_inv H :=
  let a := fresh "a" in
  let E := fresh "E" in
  apply bind_Ret in H; destruct H as (a & E & H);
  repeat match goal with x : (_ * _)%type |- _ => destruct x end;
  cbn beta iota in H.

(** ** Sequences *)

Lemma unpackLoop_nibbles packed r : unpackLoop packed r = r ++ nibbles packed.
Proof.
  unfold nibbles. revert r. induction packed as [|p packed IH]; intros r; cbn.
  - by rewrite app_nil_r.
  - rewrite IH, <- app_assoc. done.
Qed.

Lemma nibbles_length packed : length (nibbles packed) = (2 * length packed)%nat.
Proof.
  unfold nibbles. induction packed as [|p packed IH]; cbn; [done|].
  rewrite IH. lia.
Qed.

Lemma UnpackSequence_Ret packed :
  packed ≠ [] ->
  ∃ c, last (nibbles packed) = Some c /\
       UnpackSequence packed =
         Ret (if decide (c = "="%byte) then removelast (nibbles packed)
              else nibbles packed).
Proof.
  intros Hne. unfold UnpackSequence. rewrite unpackLoop_nibbles. cbn.
  destruct (last (nibbles packed)) as [c|] eqn:Hlast.
  - exists c. split; [done|]. by case_decide.
  - apply last_None in Hlast. apply (f_equal length) in Hlast.
    rewrite nibbles_length in Hlast. destruct packed; [done | cbn in Hlast; lia].
Qed.

Lemma range_empty r lo sp : range r lo (lo + 0) = Ret sp -> elems sp = [].
Proof.
  unfold range. case_decide; [|done]. intros [= <-]. cbn.
  replace (Z.to_nat (lo + 0 - lo)) with 0%nat by lia. done.
Qed.

(** A record with [seq_length = 0] parses to an empty packed sequence. *)
Lemma parseAlignment_empty_sequence r ba :
  parseAlignment r = Ret ba -> seqLen ba = 0 -> seqPacked ba = [].
Proof.
  intros Hparse Hlen. unfold parseAlignment in Hparse.
  repeat bind_inv Hparse. injection Hparse as <-. cbn in Hlen |- *.
  rewrite Hlen in *.
  change (Z.quot (int (int32 (1 + 0))) 2) with 0 in *.
  rewrite decide_False in * by done.
  match goal with H : range _ _ (_ + 0) = Ret ?sp |- _ =>
    apply range_empty in H end.
  congruence.
Qed.

(** C9: [UnpackSequence] panics on the empty packed slice, which is what
    [parseAlignment] yields for every record with [seq_length = 0]; on a
    non-empty slice of [n] bytes it returns the [2n] characters of the
    nibbles, upper nibble first, without the last one exactly when that one
    is ['=']. *)
Theorem UnpackSequence_not_total :
  UnpackSequence [] = Panic /\
  (∀ r ba, parseAlignment r = Ret ba -> seqLen ba = 0 ->
     seqPacked ba = [] /\ UnpackSequence (seqPacked ba) = Panic) /\
  (∀ packed, packed ≠ [] ->
     length (nibbles packed) = (2 * length packed)%nat /\
     ∃ c, last (nibbles packed) = Some c /\
          UnpackSequence packed =
            Ret (if decide (c = "="%byte) then removelast (nibbles packed)
                 else nibbles packed)).
Proof.
  split; [done|]. split.
  - intros r ba Hparse Hlen.
    rewrite (parseAlignment_empty_sequence r ba Hparse Hlen). done.
  - intros packed Hne. split; [apply nibbles_length|].
    by apply UnpackSequence_Ret.
Qed.

(** The theorem at the record [emptySeqRecord] and at the packed bytes
    0x12 0x40, which unpack to ACG. *)
Lemma UnpackSequence_not_total_witness :
  (∃ ba, parseAlignment (exact emptySeqRecord) = Ret ba /\
         UnpackSequence (seqPacked ba) = Panic) /\
  UnpackSequence [byteOf 18; byteOf 64] = Ret ["A"; "C"; "G"]%byte.
Proof.
  split.
  - destruct (parseAlignment (exact emptySeqRecord)) as [ba| | |] eqn:Hparse;
      try (by vm_compute in Hparse).
    exists ba. split; [done|].
    apply (proj1 (proj2 UnpackSequence_not_total) (exact emptySeqRecord) ba Hparse).
    revert Hparse. vm_compute. by intros [= <-].
  - destruct (proj2 (proj2 UnpackSequence_not_total) [byteOf 18; byteOf 64])
      as (_ & c & Hc & ->); [done|].
    vm_compute in Hc. injection Hc as <-. by vm_compute.
Defined.

(** ** The rounds of the inner loops suffice *)

Lemma bind_not_timeout {A B : Type} (m : outcome A) (k : A -> outcome B) :
  m ≠ Timeout -> (∀ a, m = Ret a -> k a ≠ Timeout) -> (m ≫= k) ≠ Timeout.
Proof.
  intros Hm Hk. unfold mbind, outcome_bind. destruct m; [by apply Hk|done..].
Qed.

Create HintDb total.

Ltac not_timeout :=
  repeat first
    [ discriminate
    | solve [eauto with total]
    | apply bind_not_timeout; [|intros ? ?]
    | match goal with |- (let '(_, _) := ?p in _) ≠ _ => destruct p end
    | case_decide | case_match ].

Lemma must_not_timeout {A : Type} (o : option A) : must o ≠ Timeout.
Proof. by destruct o. Qed.

Lemma at_not_timeout r i : at_ r i ≠ Timeout.
Proof. unfold at_. not_timeout. Qed.

Lemma from_not_timeout r lo : from r lo ≠ Timeout.
Proof. unfold from. not_timeout. Qed.

Lemma range_not_timeout r lo hi : range r lo hi ≠ Timeout.
Proof. unfold range. not_timeout. Qed.

Lemma leUint_not_timeout w b : leUint w b ≠ Timeout.
Proof. unfold leUint. not_timeout. Qed.

#[local] Hint Resolve must_not_timeout at_not_timeout from_not_timeout
  range_not_timeout leUint_not_timeout : total.

Lemma u16at_not_timeout r offs : u16at r offs ≠ Timeout.
Proof. unfold u16at, Uint16. not_timeout. Qed.

Lemma u32at_not_timeout r offs : u32at r offs ≠ Timeout.
Proof. unfold u32at, Uint32. not_timeout. Qed.

Lemma scanText_not_timeout bs : scanText bs ≠ Timeout.
Proof. induction bs as [|b bs IH]; cbn; not_timeout. Qed.

Lemma scanHex_not_timeout bs : scanHex bs ≠ Timeout.
Proof.
  induction bs as [bs IH] using (induction_ltof1 _ (@length byte)).
  destruct bs as [|b [|c bs]]; cbn; not_timeout.
  apply IH. unfold ltof. cbn. lia.
Qed.

Lemma maskLast_not_timeout bs : maskLast bs ≠ Timeout.
Proof. unfold maskLast. not_timeout. Qed.

Lemma UnpackSequence_not_timeout packed : UnpackSequence packed ≠ Timeout.
Proof. unfold UnpackSequence. not_timeout. Qed.

#[local] Hint Resolve u16at_not_timeout u32at_not_timeout scanText_not_timeout
  scanHex_not_timeout maskLast_not_timeout UnpackSequence_not_timeout : total.

Lemma byteZ_bounds b : 0 <= byteZ b < 256.
Proof.
  unfold byteZ. pose proof (Byte.to_N_bounded b). lia.
Qed.

Lemma leValue_nonneg bs : 0 <= leValue bs.
Proof.
  induction bs as [|b bs IH]; cbn [leValue]; [done|].
  apply Z.lor_nonneg. split; [apply byteZ_bounds|].
  apply Z.shiftl_nonneg. done.
Qed.

Lemma leValue_bound bs : leValue bs < 2 ^ (8 * Z.of_nat (length bs)).
Proof.
  induction bs as [|b bs IH]; cbn [leValue length]; [done|].
  pose proof (byteZ_bounds b). pose proof (leValue_nonneg bs).
  pose proof (Z.add_lor_land (byteZ b) (Z.shiftl (leValue bs) 8)) as Hadd.
  assert (0 <= Z.land (byteZ b) (Z.shiftl (leValue bs) 8)).
  { apply Z.land_nonneg. left. lia. }
  rewrite Z.shiftl_mul_pow2 in * by lia.
  replace (8 * Z.of_nat (S (length bs))) with (8 * Z.of_nat (length bs) + 8) by lia.
  rewrite Z.pow_add_r by lia. change (2 ^ 8) with 256 in *. lia.
Qed.

Lemma leUint_bounds w b z : leUint w b = Ret z -> 0 <= z < 2 ^ (8 * Z.of_nat w).
Proof.
  unfold leUint. case_decide; [|done]. intros [= <-].
  split; [apply leValue_nonneg|].
  pose proof (leValue_bound (take w b)) as Hb.
  rewrite length_take in Hb. by rewrite Nat.min_l in Hb by done.
Qed.

Lemma scanHex_nonneg bs x n : scanHex bs = Ret (x, n) -> 0 <= n.
Proof.
  revert x n. induction bs as [bs IH] using (induction_ltof1 _ (@length byte)).
  intros x n. destruct bs as [|b [|c bs]]; cbn; try done.
  - case_decide; [|done]. intros [= <- <-]. done.
  - case_decide; [intros [= <- <-]; done|].
    intros Hscan. bind_inv Hscan. injection Hscan as <- <-.
    match goal with H : scanHex _ = Ret _ |- _ => apply IH in H end;
      [lia | unfold ltof; cbn; lia].
Qed.

(** A round of the auxiliary loop moves the offset on by three bytes at
    least. *)
Lemma parseAuxField_advances r offs aux offs' aux' :
  parseAuxField r offs aux = Ret (offs', aux') -> offs + 3 <= offs'.
Proof.
  unfold parseAuxField. intros H.
  bind_inv H. bind_inv H.
  repeat (case_decide; [repeat bind_inv H; try injection H as <- <-|]);
    try (injection H as <- <-);
    repeat match goal with
    | Hs : scanHex _ = Ret _ |- _ => apply scanHex_nonneg in Hs
    | Hu : u32at _ _ = Ret _ |- _ =>
        unfold u32at, Uint32 in Hu; bind_inv Hu; apply leUint_bounds in Hu
    end;
    repeat match goal with
    | |- context [uint32 ?x] =>
        unfold uint32; pose proof (Z.mod_pos_bound x (2 ^ 32) eq_refl)
    end;
    rewrite ?int_small by lia; lia.
Qed.

Lemma parseAuxField_not_timeout r offs aux : parseAuxField r offs aux ≠ Timeout.
Proof. unfold parseAuxField. not_timeout. Qed.

#[local] Hint Resolve parseAuxField_not_timeout : total.

Lemma parseAux_not_timeout rounds r offs aux :
  len r - offs <= Z.of_nat rounds -> parseAux rounds r offs aux ≠ Timeout.
Proof.
  revert offs aux. induction rounds as [|rounds IH]; intros offs aux Hrounds;
    cbn [parseAux]; case_decide; try done; [lia|].
  apply bind_not_timeout; [by auto with total|].
  intros [offs' aux'] Hfield. apply parseAuxField_advances in Hfield.
  apply IH. lia.
Qed.

Lemma range_ordered r lo hi s : range r lo hi = Ret s -> 0 <= lo <= hi.
Proof. unfold range. case_decide; [|done]. intros _. lia. Qed.

Lemma u16at_nonneg r offs z : u16at r offs = Ret z -> 0 <= z.
Proof.
  unfold u16at, Uint16. intros H. bind_inv H. apply leUint_bounds in H. lia.
Qed.

(** [parseAlignment] always comes to an end: the rounds it gives to the
    auxiliary loop are enough. *)
Lemma parseAlignment_not_timeout r : parseAlignment r ≠ Timeout.
Proof.
  unfold parseAlignment.
  repeat (apply bind_not_timeout; [by not_timeout|]; intros ? ?).
  apply bind_not_timeout; [|by intros].
  apply parseAux_not_timeout.
  repeat match goal with
  | H : range _ _ _ = Ret _ |- _ => apply range_ordered in H
  | H : u16at _ _ = Ret _ |- _ => apply u16at_nonneg in H
  end.
  match goal with b : byte |- _ => pose proof (byteZ_bounds b) end.
  unfold len. lia.
Qed.

#[local] Hint Resolve parseAlignment_not_timeout : total.

Lemma appendRow_not_timeout ba b e result : appendRow ba b e result ≠ Timeout.
Proof. unfold appendRow, formatRow. not_timeout. Qed.

#[local] Hint Resolve appendRow_not_timeout : total.

Lemma from_len r lo s : from r lo = Ret s -> len s = len r - lo.
Proof.
  unfold from. case_decide; [|done]. intros [= <-]. unfold len in *. cbn.
  rewrite length_drop. lia.
Qed.

Lemma Uint32_nonneg bs z : Uint32 bs = Ret z -> 0 <= int z.
Proof.
  intros H. apply leUint_bounds in H. rewrite int_small by lia. lia.
Qed.

Lemma seqField_not_timeout r : seqField r ≠ Timeout.
Proof. unfold seqField. not_timeout. Qed.

#[local] Hint Resolve seqField_not_timeout : total.

Lemma afterParse_not_timeout r : afterParse r ≠ Timeout.
Proof.
  unfold afterParse. apply bind_not_timeout; [by not_timeout|].
  intros [offs seqLen_] _. apply bind_not_timeout; [by not_timeout|].
  intros sp _. case_decide; [|done]. not_timeout.
Qed.

#[local] Hint Resolve afterParse_not_timeout : total.

Lemma overlay_len r lo sub' : len (overlay r lo sub') <= len r.
Proof. unfold len, overlay. cbn. rewrite length_take. lia. Qed.

(** The record loops always come to an end within the rounds they are
    given, the length of the buffer. *)
Lemma parseRecords_not_timeout rounds seen r acc :
  len r <= Z.of_nat rounds -> parseRecords rounds seen r acc ≠ Timeout.
Proof.
  revert seen r acc.
  induction rounds as [|rounds IH]; intros seen r acc Hrounds;
    cbn [parseRecords]; case_decide; try done; [lia|].
  apply bind_not_timeout; [by not_timeout|]. intros size Hsize.
  apply Uint32_nonneg in Hsize. case_decide; [done|].
  apply bind_not_timeout; [by not_timeout|]. intros rec _.
  apply bind_not_timeout; [by not_timeout|]. intros ba _.
  apply bind_not_timeout; [by not_timeout|]. intros [offs ?] _.
  apply bind_not_timeout; [by not_timeout|]. intros rec' _.
  apply bind_not_timeout; [by not_timeout|]. intros r' Hr'.
  apply IH. apply from_len in Hr'.
  pose proof (overlay_len r 4 rec'). lia.
Qed.

Lemma parseNext_not_timeout acc r : parseNext acc r ≠ Timeout.
Proof.
  unfold parseNext. apply bind_not_timeout.
  - apply parseRecords_not_timeout. unfold len. lia.
  - by intros [[new seen] r'] _.
Qed.

Lemma scanRecords_not_timeout rounds seen r refID_ b e result :
  len r <= Z.of_nat rounds ->
  scanRecords rounds seen r refID_ b e result ≠ Timeout.
Proof.
  revert seen r result.
  induction rounds as [|rounds IH]; intros seen r result Hrounds;
    cbn [scanRecords]; case_decide; try done; [lia|].
  apply bind_not_timeout; [by not_timeout|]. intros size Hsize.
  apply Uint32_nonneg in Hsize. case_decide; [done|].
  apply bind_not_timeout; [by not_timeout|]. intros rec _.
  apply bind_not_timeout; [by not_timeout|]. intros ba _.
  apply bind_not_timeout; [by not_timeout|]. intros rec' _.
  case_decide; [done|].
  apply bind_not_timeout; [by not_timeout|]. intros result' _.
  apply bind_not_timeout; [by not_timeout|]. intros r' Hr'.
  apply IH. apply from_len in Hr'.
  pose proof (overlay_len r 4 rec'). lia.
Qed.

(** ** Rows *)

Lemma spaces_length n : length (spaces n) = Z.to_nat n.
Proof. unfold spaces. apply length_replicate. Qed.

Lemma rowOf_length seq pos_ b e :
  b <= e -> Z.of_nat (length (rowOf seq pos_ b e)) = e - b.
Proof.
  intros Hbe. unfold rowOf. rewrite length_take, length_app, spaces_length. lia.
Qed.

(** A row that [formatRow] returns is as wide as the window. *)
Lemma formatRow_length ba b e row :
  0 <= e - b < 2 ^ 63 ->
  formatRow ba b e = Ret row -> Z.of_nat (length row) = e - b.
Proof.
  intros Hw Hrow. unfold formatRow in Hrow.
  rewrite (uint64_small (e - b)), (int_small (e - b)) in Hrow by lia.
  bind_inv Hrow. bind_inv Hrow.
  repeat case_decide; try done; injection Hrow as <-;
    first [ rewrite length_take; lia
          | rewrite (length_app (_ ++ _)), spaces_length; lia ].
Qed.

(** With positions in range [formatRow] pads and trims as described. *)
Lemma formatRow_rowOf ba b e seq :
  UnpackSequence (seqPacked ba) = Ret seq ->
  - 2 ^ 31 <= pos ba < 2 ^ 31 -> 0 <= b <= e -> e < 2 ^ 62 ->
  formatRow ba b e = Ret (rowOf seq (pos ba) b e).
Proof.
  intros Hseq Hpos Hbe He. unfold formatRow, rowOf. rewrite Hseq. cbn.
  rewrite (uint64_small (e - b)), (int_small (e - b)) by lia.
  rewrite (int_small (pos ba)), (int_small b) by lia.
  rewrite (int_small (pos ba - b)) by lia.
  set (body := if decide (pos ba > b) then spaces (pos ba - b) ++ seq
               else drop (Z.to_nat (b - pos ba)) seq).
  assert (Hleft : ∀ k : list byte * list byte -> outcome (list byte),
    (if decide (pos ba - b > 0) then Ret (spaces (pos ba - b), seq)
     else if decide (int (- (pos ba - b)) >= Z.of_nat (length seq))
          then Ret ([], [])
          else if decide (0 <= int (- (pos ba - b)))
               then Ret ([], drop (Z.to_nat (int (- (pos ba - b)))) seq)
               else Panic) ≫= k
    = k (if decide (pos ba > b) then spaces (pos ba - b) else [],
         if decide (pos ba > b) then seq else drop (Z.to_nat (b - pos ba)) seq)).
  { intros k. rewrite (int_small (- (pos ba - b))) by lia.
    repeat case_decide; try lia; cbn;
      first [ done | by rewrite drop_ge by lia
            | by replace (- (pos ba - b)) with (b - pos ba) by lia ]. }
  rewrite Hleft. clear Hleft. unfold body. clear body.
  assert (Hpad : ∀ body : list byte,
    (if decide (Z.of_nat (length body) > e - b)
     then if decide (0 <= e - b) then Ret (take (Z.to_nat (e - b)) body)
          else Panic
     else Ret (body ++ spaces (e - b - Z.of_nat (length body))))
    = Ret (take (Z.to_nat (e - b)) (body ++ spaces (e - b)))).
  { intros body. case_decide.
    - rewrite decide_True by lia. by rewrite take_app_le by lia.
    - f_equal. rewrite take_app_ge by lia. f_equal.
      unfold spaces. rewrite take_replicate. f_equal. lia. }
  destruct (decide (pos ba > b)); cbn; apply Hpad.
Qed.



Section rows_of_a_query.
Variables (b e : Z).
Hypothesis window : 0 <= e - b < 2 ^ 63.

Lemma appendRow_wide ba result result' :
  allWide (e - b) result -> appendRow ba b e result = Ret result' ->
  allWide (e - b) result'.
Proof.
  intros Hres Happ. unfold appendRow in Happ. case_match.
  - bind_inv Happ. injection Happ as <-.
    apply Forall_app. split; [done|]. apply Forall_singleton.
    by eapply formatRow_length.
  - by injection Happ as <-.
Qed.

Lemma scanAlignments_wide bas refID_ result result' :
  allWide (e - b) result ->
  scanAlignments bas refID_ b e result = Ret result' ->
  allWide (e - b) result'.
Proof.
  revert result. induction bas as [|ba bas IH]; intros result Hres Hscan;
    cbn [scanAlignments] in Hscan.
  - by injection Hscan as <-.
  - case_decide; [by eapply IH|].
    bind_inv Hscan. eapply IH; [|done]. by eapply appendRow_wide.
Qed.

Lemma scanRecords_wide rounds seen r refID_ result result' seen' r' done_ :
  allWide (e - b) result ->
  scanRecords rounds seen r refID_ b e result = Ret (result', seen', r', done_) ->
  allWide (e - b) result'.
Proof.
  revert seen r result.
  induction rounds as [|rounds IH]; intros seen r result Hres Hscan;
    cbn [scanRecords] in Hscan; case_decide; try done;
    try (by injection Hscan as <- <- <- <-).
  bind_inv Hscan. case_decide; [by injection Hscan as <- <- <- <-|].
  bind_inv Hscan. bind_inv Hscan. bind_inv Hscan.
  case_decide; [by injection Hscan as <- <- <- <-|].
  bind_inv Hscan. bind_inv Hscan.
  eapply IH; [|done]. by eapply appendRow_wide.
Qed.

Lemma scanBlocks_wide budget am pi po p2 rem refID_ result result' am' :
  allWide (e - b) result ->
  scanBlocks budget am pi po p2 rem refID_ b e result = Ret (result', am') ->
  allWide (e - b) result'.
Proof.
  revert am pi po rem result.
  induction budget as [|budget IH]; intros am pi po rem result Hres Hscan;
    cbn [scanBlocks] in Hscan; case_decide; try done;
    try (by injection Hscan as <- <-).
  bind_inv Hscan. bind_inv Hscan. bind_inv Hscan.
  match goal with H : scanRecords _ _ _ _ _ _ _ = Ret _ |- _ =>
    apply scanRecords_wide in H; [|done] end.
  case_match; [by injection Hscan as <- <-|].
  by eapply IH.
Qed.

Lemma scanChunks_wide budget am chunks refID_ result result' am' :
  allWide (e - b) result ->
  scanChunks budget am chunks refID_ b e result = Ret (result', am') ->
  allWide (e - b) result'.
Proof.
  revert am result. induction chunks as [|chunk chunks IH];
    intros am result Hres Hscan; cbn [scanChunks] in Hscan.
  - by injection Hscan as <- <-.
  - bind_inv Hscan. eapply IH; [|done]. by eapply scanBlocks_wide.
Qed.

Lemma noindexGetMap_wide am refID_ rows :
  noindexGetMap am refID_ b e = Ret rows -> allWide (e - b) rows.
Proof.
  unfold noindexGetMap. intros Hq. bind_inv Hq. case_match; [done|].
  eapply scanAlignments_wide; [|done]. apply Forall_nil_2.
Qed.

Lemma GetMap_wide budget am refID_ rows am' :
  GetMap budget am refID_ b e = Ret (rows, am') -> allWide (e - b) rows.
Proof.
  unfold GetMap. intros Hq. bind_inv Hq. case_match.
  - bind_inv Hq. eapply scanChunks_wide; [|done]. apply Forall_nil_2.
  - bind_inv Hq. injection Hq as <- <-. by eapply noindexGetMap_wide.
Qed.
End rows_of_a_query.

(** C5: a row is the unpacked sequence padded or trimmed on the left to the
    start of the window and on the right to its width, [end - begin]
    characters in all; every row of a region query, indexed or not, has that
    length; and the query (0, 95, 115) on the BAM whose one record has
    position 100 and sequence ACGT yields the row of 5 spaces, ACGT and 11
    spaces. *)
Theorem rows_have_window_width :
  (∀ ba b e seq,
     UnpackSequence (seqPacked ba) = Ret seq ->
     - 2 ^ 31 <= pos ba < 2 ^ 31 -> 0 <= b <= e -> e < 2 ^ 62 ->
     formatRow ba b e = Ret (rowOf seq (pos ba) b e) /\
     Z.of_nat (length (rowOf seq (pos ba) b e)) = e - b) /\
  (∀ budget am refID_ b e rows am',
     0 <= e - b < 2 ^ 63 ->
     GetMap budget am refID_ b e = Ret (rows, am') ->
     Forall (λ row, Z.of_nat (length row) = e - b) rows) /\
  (∀ am refID_ b e rows,
     0 <= e - b < 2 ^ 63 ->
     noindexGetMap am refID_ b e = Ret rows ->
     Forall (λ row, Z.of_nat (length row) = e - b) rows) /\
  (am ← preloaded (framed acgtRecord);
   '(rows, _) ← GetMap 0 am 0 95 115; mret rows)
    = Ret [String.list_byte_of_string "     ACGT           "] /\
  ('(rows, _) ← GetMap 1 (indexed (framed acgtRecord) 4681) 0 95 115; mret rows)
    = Ret [String.list_byte_of_string "     ACGT           "].
Proof.
  split; [|split; [|split; [|split; by vm_compute]]].
  - intros ba b e seq Hseq Hpos Hbe He. split.
    + by apply formatRow_rowOf.
    + apply rowOf_length. lia.
  - intros budget am refID_ b e rows am' Hw Hq. by eapply GetMap_wide.
  - intros am refID_ b e rows Hw Hq. by eapply noindexGetMap_wide.
Qed.

(** The theorem at the indexed one-record file and the query (0, 95, 115). *)
Lemma rows_have_window_width_witness :
  ∃ rows am',
    GetMap 1 (indexed (framed acgtRecord) 4681) 0 95 115 = Ret (rows, am') /\
    Forall (λ row, Z.of_nat (length row) = 115 - 95) rows.
Proof.
  destruct (GetMap 1 (indexed (framed acgtRecord) 4681) 0 95 115)
    as [[rows am']| | |] eqn:Hq; try (by vm_compute in Hq).
  exists rows, am'. split; [done|].
  apply (proj1 (proj2 rows_have_window_width)
           1%nat (indexed (framed acgtRecord) 4681) 0 95 115 rows am');
    [lia | exact Hq].
Defined.

(** ** The array after a parse *)


Lemma from_backing r lo s :
  from r lo = Ret s -> backing s = drop (Z.to_nat lo) (backing r).
Proof.
  unfold from, backing, len. case_decide as Hc; [|done]. intros [= <-]. cbn.
  rewrite drop_app_le by lia. done.
Qed.

Lemma maskLast_length bs bs' : maskLast bs = Ret bs' -> length bs' = length bs.
Proof.
  unfold maskLast. destruct (last bs) as [b|] eqn:Hlast; [|done].
  intros [= <-]. destruct bs as [|b0 bs _] using rev_ind; [done|].
  rewrite removelast_last, !length_app. done.
Qed.


(** An [overlay] with the array as it was changes nothing. *)
Lemma overlay_same r lo sub :
  backing sub = drop (Z.to_nat lo) (backing r) -> overlay r lo sub = r.
Proof.
  unfold overlay. intros ->. rewrite take_drop. unfold backing.
  rewrite take_app_length, drop_app_length. by destruct r.
Qed.

(** The parts that [parseAlignment] has read when it reaches the packed
    sequence. *)
Lemma parseAlignment_seqField r ba :
  parseAlignment r = Ret ba ->
  ∃ offs sp,
    seqField r = Ret (offs, seqLen ba) /\
    range r offs (offs + Z.quot (int (int32 (1 + seqLen ba))) 2) = Ret sp /\
    (if decide (Z.rem (seqLen ba) 2 = 1) then maskLast (elems sp)
     else Ret (elems sp)) = Ret (seqPacked ba).
Proof.
  unfold parseAlignment. intros H.
  apply bind_Ret in H as (refID_ & HrefID & H).
  apply bind_Ret in H as (pos_ & Hpos & H).
  apply bind_Ret in H as (rnl & Hrnl & H).
  apply bind_Ret in H as (mapq_ & Hmapq & H).
  apply bind_Ret in H as (bin_ & Hbin & H).
  apply bind_Ret in H as (cnt & Hcnt & H).
  apply bind_Ret in H as (flag_ & Hflag & H).
  apply bind_Ret in H as (sl & Hsl & H).
  apply bind_Ret in H as (nr & Hnr & H).
  apply bind_Ret in H as (np & Hnp & H).
  apply bind_Ret in H as (tl & Htl & H).
  apply bind_Ret in H as (name & Hname & H).
  apply bind_Ret in H as (bb & Hbb & H).
  apply bind_Ret in H as (sp & Hsp & H).
  apply bind_Ret in H as (packed & Hpacked & H).
  apply bind_Ret in H as (q & Hq & H).
  apply bind_Ret in H as (aux & Haux & H).
  injection H as <-. cbn [seqLen seqPacked].
  exists (32 + byteZ rnl + 4 * cnt), sp. split; [|split; [exact Hsp | exact Hpacked]].
  unfold seqField. by rewrite Hrnl, Hcnt, Hsl.
Qed.




(** ** The overlap test *)

Lemma bind_Ret_l {A B : Type} (a : A) (k : A -> outcome B) : Ret a ≫= k = k a.
Proof. reflexivity. Qed.



Lemma acgtRecord_parses : parseAlignment (exact acgtRecord) = Ret acgtAlignment.
Proof. by vm_compute. Qed.



(** ** A bin that the index does not have *)

(** C10: with an index whose reference entry lacks the leaf bin of the
    region, [GetMap] returns no rows, neither panics nor loops, and leaves
    the cache and the advance table as they were: no block is looked up or
    read. *)
Theorem GetMap_missing_bin budget am refID_ b e idx ref iref :
  index am = Some idx ->
  0 <= refID_ ->
  References am !! Z.to_nat refID_ = Some ref ->
  b <= uint64 (Length ref) -> e <= uint64 (Length ref) ->
  Refs idx !! Z.to_nat refID_ = Some iref ->
  Bins iref !! getBin b e = None ->
  GetMap budget am refID_ b e = Ret ([], am).
Proof.
  intros Hidx Hid Href Hb He Hiref Hbin.
  unfold GetMap, checkRange.
  rewrite decide_True, Href by done. cbn.
  rewrite decide_False by lia. cbn.
  rewrite Hidx, Hiref. cbn. rewrite Hbin. done.
Qed.

(** The theorem at the one-record file whose index has bin 585 only, and the
    query (0, 95, 115) with leaf bin 4681. *)
Lemma GetMap_missing_bin_witness :
  GetMap 0 (indexed (framed acgtRecord) 585) 0 95 115
  = Ret ([], indexed (framed acgtRecord) 585).
Proof.
  eapply (GetMap_missing_bin 0 (indexed (framed acgtRecord) 585) 0 95 115);
    [reflexivity | lia | reflexivity | by vm_compute | by vm_compute
    | reflexivity | by vm_compute].
Defined.

(** ** The S4-LRU cache: a scenario *)

(** C7 (as the code has it): with one slot per queue each [Set] reuses the
    slot of queue 0, so after [Set] of the keys 1, 2, 3, 4 the cache holds
    key 4 alone; [Get(4)] then hits every time, the key climbs through the
    queues 1, 2, 3 and further hits keep it at the front of queue 3. *)
Theorem s4lru_last_key_climbs :
  (c ← run (newLRUCache 4) fourSets; mret (cap c, cached c, dom (data c)))
    = Ret (1, 1%nat, {[ 4 ]}) /\
  placeAfter 4 fourSets 4 = Ret (Some (0%nat, true)) /\
  Forall (λ n, getAfter 4 (fourSets ++ replicate n (OpGet 4)) 4
               = Ret (Some (block 4))) [0; 1; 2; 3; 4]%nat /\
  placeAfter 4 (fourSets ++ replicate 1 (OpGet 4)) 4 = Ret (Some (1%nat, true)) /\
  placeAfter 4 (fourSets ++ replicate 2 (OpGet 4)) 4 = Ret (Some (2%nat, true)) /\
  placeAfter 4 (fourSets ++ replicate 3 (OpGet 4)) 4 = Ret (Some (3%nat, true)) /\
  placeAfter 4 (fourSets ++ replicate 4 (OpGet 4)) 4 = Ret (Some (3%nat, true)) /\
  placeAfter 4 (fourSets ++ replicate 5 (OpGet 4)) 4 = Ret (Some (3%nat, true)).
Proof.
  split; [by vm_compute|]. split; [by vm_compute|]. split.
  - repeat (apply Forall_cons; split; [by vm_compute|]). apply Forall_nil_2.
  - repeat split; by vm_compute.
Qed.

(** C7 as stated fails at its first [Get]: after [Set] of the keys 1, 2, 3,
    4 on the cache of capacity 4, key 1 is gone and [Get(1)] misses. *)
Lemma s4lru_first_key_is_evicted :
  getAfter 4 fourSets 1 = Ret None /\
  placeAfter 4 fourSets 1 = Ret None.
Proof. split; by vm_compute. Qed.
(** ** The S4-LRU cache: the bound *)

Lemma elem_of_without e q x : x ∈ without e q ↔ x ∈ q /\ x ≠ e.
Proof. unfold without. rewrite list_elem_of_filter. tauto. Qed.

Lemma elem_of_moveToFront e q x : x ∈ moveToFront e q ↔ x ∈ q.
Proof.
  unfold moveToFront. case_decide; [|done].
  rewrite elem_of_cons, elem_of_without.
  destruct (decide (x = e)) as [->|]; tauto.
Qed.

Lemma NoDup_moveToFront e q : NoDup q -> NoDup (moveToFront e q).
Proof.
  intros Hq. unfold moveToFront. case_decide; [|done].
  apply NoDup_cons. split.
  - rewrite elem_of_without. tauto.
  - by apply NoDup_filter.
Qed.

Lemma length_without e q : (length (without e q) <= length q)%nat.
Proof. apply length_filter. Qed.

Lemma length_moveToFront e q : (length (moveToFront e q) <= length q)%nat.
Proof.
  unfold moveToFront. case_decide as He; [|done]. cbn.
  assert (¬ e ≠ e) as Hne by tauto.
  pose proof (length_filter_lt (λ x, x ≠ e) q e He Hne) as Hlt.
  unfold without. lia.
Qed.

Lemma queue_nat c (i : nat) : queue c (Z.of_nat i) = must (queues c !! i).
Proof. unfold queue. rewrite decide_True by lia. by rewrite Nat2Z.id. Qed.

Lemma queue_0 c : queue c 0 = must (queues c !! 0%nat).
Proof. exact (queue_nat c 0). Qed.

Lemma live_bounds c i e p it :
  live c i e p it -> (e < length (elemItem c))%nat /\ (p < length (items c))%nat.
Proof.
  intros (q & _ & _ & He & Hp). split; by eapply lookup_lt_Some.
Qed.

Lemma live_intro c i q e :
  wf c -> queues c !! i = Some q -> e ∈ q -> ∃ p it, live c i e p it.
Proof.
  intros Hwf Hq He. destruct (wf_total c Hwf i q e Hq He) as (p & it & ? & ?).
  exists p, it, q. done.
Qed.

Lemma wf_newLRUCache capacity :
  0 < capacity <= 2 ^ 63 - 4 -> wf (newLRUCache capacity).
Proof.
  intros Hcap.
  assert (cap (newLRUCache capacity) = Z.quot (capacity + 3) 4) as Hquot.
  { cbn. by rewrite int_small by lia. }
  assert (Hempty : ∀ i q, queues (newLRUCache capacity) !! i = Some q -> q = []).
  { intros i q. cbn. destruct i as [|[|[|[|i]]]]; cbn; intros; by simplify_eq. }
  assert (Hlive : ∀ i e p it, ¬ live (newLRUCache capacity) i e p it).
  { intros i e p it (q & Hq & He & _). apply Hempty in Hq as ->.
    by apply elem_of_nil in He. }
  split.
  - done.
  - rewrite Hquot. apply Z.quot_le_lower_bound; lia.
  - intros i q Hq. apply Hempty in Hq as ->. rewrite Hquot. cbn.
    assert (1 <= Z.quot (capacity + 3) 4) by (apply Z.quot_le_lower_bound; lia).
    lia.
  - intros i q Hq. apply Hempty in Hq as ->. constructor.
  - intros i q e Hq He. apply Hempty in Hq as ->. by apply elem_of_nil in He.
  - intros i e p it H. by apply Hlive in H.
  - intros i e p it i' e' it' H. by apply Hlive in H.
  - intros k e. cbn. by rewrite lookup_empty.
Qed.

(** The bounds that the shape gives. *)
Lemma wf_cached c : wf c -> Z.of_nat (cached c) <= 4 * cap c.
Proof.
  intros Hwf. pose proof (wf_queues c Hwf) as Hlen.
  pose proof (wf_len c Hwf) as Hq. unfold cached.
  destruct (queues c) as [|q0 [|q1 [|q2 [|q3 [|]]]]]; try done.
  pose proof (Hq 0%nat q0 eq_refl). pose proof (Hq 1%nat q1 eq_refl).
  pose proof (Hq 2%nat q2 eq_refl). pose proof (Hq 3%nat q3 eq_refl).
  cbn. rewrite !length_app. cbn. lia.
Qed.

Lemma live_in_concat c i e p it : live c i e p it -> e ∈ concat (queues c).
Proof.
  intros (q & Hq & He & _). apply list_elem_of_In, in_concat.
  exists q. split; apply list_elem_of_In; [by eapply list_elem_of_lookup_2|done].
Qed.

Lemma wf_size c : wf c -> (size (data c) <= cached c)%nat.
Proof.
  intros Hwf. unfold cached.
  rewrite <- length_map_to_list, <- (length_fmap snd).
  apply submseteq_length, NoDup_submseteq.
  - apply NoDup_fmap_2_strong; [|apply NoDup_map_to_list].
    intros [k e] [k' e'] Hk Hk' Heq. cbn in Heq. subst e'.
    apply elem_of_map_to_list in Hk, Hk'.
    destruct (wf_data c Hwf k e Hk) as (i & p & it & Hl & <-).
    destruct (wf_data c Hwf k' e Hk') as (i' & p' & it' & Hl' & <-).
    destruct Hl as (q & _ & _ & Hp & Hit), Hl' as (q' & _ & _ & Hp' & Hit').
    congruence.
  - intros e He. apply list_elem_of_fmap in He as ([k e'] & -> & Hk).
    apply elem_of_map_to_list in Hk.
    destruct (wf_data c Hwf k e' Hk) as (i & p & it & Hl & _).
    by eapply live_in_concat.
Qed.

(** An update in place: the queues keep their elements, the elements keep
    their items, and the items change by [f], which keeps every [qid]. *)
Lemma wf_inplace c c' (f : nat -> cacheItem -> cacheItem) :
  wf c ->
  cap c' = cap c -> elemItem c' = elemItem c ->
  length (queues c') = 4%nat ->
  (∀ j q', queues c' !! j = Some q' ->
     ∃ q, queues c !! j = Some q /\ (∀ x, x ∈ q' ↔ x ∈ q) /\
          (length q' <= length q)%nat /\ (NoDup q -> NoDup q')) ->
  (∀ p, items c' !! p = f p <$> items c !! p) ->
  (∀ p it, items c !! p = Some it -> qid (f p it) = qid it) ->
  (∀ k e, data c' !! k = Some e ->
     ∃ i p it, live c i e p it /\ key (f p it) = k) ->
  wf c'.
Proof.
  intros Hwf Hcap Helem Hlen Hqs Hitems Hqid Hdata.
  assert (Hfwd : ∀ j x p it', live c' j x p it' ->
            ∃ it, live c j x p it /\ it' = f p it).
  { intros j x p it' (q' & Hq' & Hx & Hp & Hit).
    destruct (Hqs j q' Hq') as (q & Hq & Hmem & _).
    rewrite Helem in Hp. rewrite Hitems in Hit.
    destruct (items c !! p) as [it|] eqn:Hit0; [|done].
    injection Hit as <-. exists it. split; [|done].
    exists q. by rewrite <- Hmem. }
  assert (Hbwd : ∀ j x p it, live c j x p it -> live c' j x p (f p it)).
  { intros j x p it (q & Hq & Hx & Hp & Hit).
    assert (j < length (queues c'))%nat as Hj.
    { rewrite Hlen, <- (wf_queues c Hwf). by eapply lookup_lt_Some. }
    apply lookup_lt_is_Some in Hj as [q' Hq'].
    destruct (Hqs j q' Hq') as (q0 & Hq0 & Hmem & _).
    rewrite Hq in Hq0. injection Hq0 as <-.
    exists q'. rewrite Hmem, Helem, Hitems, Hit. done. }
  split.
  - done.
  - rewrite Hcap. by apply wf_cap.
  - intros j q' Hq'. destruct (Hqs j q' Hq') as (q & Hq & _ & Hle & _).
    pose proof (wf_len c Hwf j q Hq). lia.
  - intros j q' Hq'. destruct (Hqs j q' Hq') as (q & Hq & _ & _ & Hnd).
    apply Hnd. by eapply wf_nodup.
  - intros j q' x Hq' Hx. destruct (Hqs j q' Hq') as (q & Hq & Hmem & _).
    apply Hmem in Hx.
    destruct (wf_total c Hwf j q x Hq Hx) as (p & it & Hp & Hit).
    exists p, (f p it). by rewrite Helem, Hitems, Hit.
  - intros j x p it' Hl. apply Hfwd in Hl as (it & Hl & ->).
    rewrite Hqid by (by destruct Hl as (? & _ & _ & _ & ?)).
    by eapply wf_qid.
  - intros j x p it j' x' it' Hl Hl'.
    apply Hfwd in Hl as (? & Hl & _). apply Hfwd in Hl' as (? & Hl' & _).
    by eapply (wf_inj c Hwf).
  - intros k e Hk. destruct (Hdata k e Hk) as (i & p & it & Hl & Hkey).
    exists i, p, (f p it). split; [by apply Hbwd|done].
Qed.

(** Moving an element to the front of its queue changes nothing else. *)
Lemma queues_moveToFront (qs : list (list nat)) (i j : nat) q e q' :
  qs !! i = Some q ->
  <[i := moveToFront e q]> qs !! j = Some q' ->
  ∃ q0, qs !! j = Some q0 /\ (∀ x, x ∈ q' ↔ x ∈ q0) /\
        (length q' <= length q0)%nat /\ (NoDup q0 -> NoDup q').
Proof.
  intros Hq Hq'. apply list_lookup_insert_Some in Hq' as [(<- & <- & _)|[? Hq']].
  - exists q. split; [done|]. split; [apply elem_of_moveToFront|].
    split; [apply length_moveToFront | apply NoDup_moveToFront].
  - exists q'. done.
Qed.

Lemma itemOf_live c i e p it : live c i e p it -> itemOf c e = Ret (p, it).
Proof.
  intros (q & _ & _ & Hp & Hit). unfold itemOf.
  rewrite Hp. cbn. rewrite Hit. done.
Qed.

Lemma last_live c i q e :
  wf c -> queues c !! i = Some q -> last q = Some e -> ∃ p it, live c i e p it.
Proof.
  intros Hwf Hq He. eapply live_intro; [done..|].
  apply last_Some in He as [q' ->]. set_solver.
Qed.

Lemma queue_full_last c i q :
  wf c -> queues c !! i = Some q -> ¬ Z.of_nat (length q) < cap c ->
  ∃ e, last q = Some e.
Proof.
  intros Hwf Hq Hfull. pose proof (wf_cap c Hwf).
  destruct (last q) as [e|] eqn:Hlast; [by exists e|].
  apply last_None in Hlast as ->. cbn in Hfull. lia.
Qed.

(** [Set] on a cache of the shape [wf] returns a cache of that shape. *)
Lemma Set_wf c k val :
  wf c -> ∃ c', blockLRUCache_Set c k val = Ret c' /\ wf c' /\ cap c' = cap c.
Proof.
  intros Hwf. unfold blockLRUCache_Set.
  assert (0 < length (queues c))%nat as H0 by (rewrite (wf_queues c Hwf); lia).
  apply lookup_lt_is_Some in H0 as [q0 Hq0].
  rewrite queue_0, Hq0. cbn.
  case_decide as Hroom.
  - (* queue 0 has room: a new item behind a new element *)
    unfold PushFront. rewrite queue_0. cbn. rewrite Hq0. cbn.
    eexists. split; [done|]. split; [|done].
    set (e0 := length (elemItem c)). set (p0 := length (items c)).
    set (new := {| qid := 0; key := k; value := val |}).
    set (c' := setData _ _).
    assert (Hbwd : ∀ i e p it, live c i e p it -> live c' i e p it).
    { intros i e p it Hl. pose proof (live_bounds _ _ _ _ _ Hl) as [? ?].
      destruct Hl as (q & Hq & He & Hp & Hit).
      destruct (decide (i = 0%nat)) as [->|].
      - exists (e0 :: q0). cbn. rewrite list_lookup_insert_eq by (by eapply lookup_lt_Some).
        rewrite Hq0 in Hq. injection Hq as <-.
        rewrite elem_of_cons, !lookup_app_l by done. auto.
      - exists q. cbn. rewrite list_lookup_insert_ne, !lookup_app_l by done. auto. }
    assert (Hnew : live c' 0 e0 p0 new).
    { exists (e0 :: q0). cbn. rewrite list_lookup_insert_eq by (by eapply lookup_lt_Some).
      rewrite elem_of_cons, !lookup_app_r, !Nat.sub_diag by done. cbn. auto. }
    assert (Hfwd : ∀ i e p it, live c' i e p it ->
              (i = 0%nat /\ e = e0 /\ p = p0 /\ it = new) \/ live c i e p it).
    { intros i e p it (q & Hq & He & Hp & Hit). cbn in Hq, Hp, Hit.
      apply lookup_snoc_Some in Hp as [[? Hp]|[-> <-]].
      - right.
        assert (∃ q1, queues c !! i = Some q1 /\ e ∈ q1) as (q1 & Hq1 & He1).
        { apply list_lookup_insert_Some in Hq as [(<- & <- & _)|[? Hq]].
          - exists q0. split; [done|]. apply elem_of_cons in He as [->|]; [|done].
            unfold e0 in *. lia.
          - by exists q. }
        destruct (wf_total c Hwf i q1 e Hq1 He1) as (p' & it' & Hp' & Hit').
        rewrite Hp in Hp'. injection Hp' as <-.
        rewrite lookup_app_l in Hit by (by eapply lookup_lt_Some).
        exists q1. done.
      - left. rewrite lookup_app_r, Nat.sub_diag in Hit by done.
        injection Hit as <-.
        apply list_lookup_insert_Some in Hq as [(<- & <- & _)|[? Hq]]; [done|].
        exfalso. destruct (wf_total c Hwf i q _ Hq He) as (? & ? & Hp & _).
        apply lookup_lt_Some in Hp. lia. }
    subst c'. split.
    + cbn. rewrite length_insert. by apply wf_queues.
    + cbn. by apply wf_cap.
    + intros i q Hq. cbn in Hq.
      apply list_lookup_insert_Some in Hq as [(<- & <- & _)|[? Hq]].
      * cbn. lia.
      * cbn. by eapply wf_len.
    + intros i q Hq. cbn in Hq.
      apply list_lookup_insert_Some in Hq as [(<- & <- & _)|[? Hq]].
      * apply NoDup_cons. split; [|by eapply wf_nodup].
        intros He. destruct (wf_total c Hwf _ _ _ Hq0 He) as (? & ? & Hp & _).
        apply lookup_lt_Some in Hp. unfold e0 in *. lia.
      * by eapply wf_nodup.
    + intros i q e Hq He. cbn in Hq.
      assert (e = e0 \/ ∃ q1, queues c !! i = Some q1 /\ e ∈ q1) as [->|(q1 & Hq1 & He1)].
      { apply list_lookup_insert_Some in Hq as [(<- & <- & _)|[? Hq]].
        - apply elem_of_cons in He as [->|]; [by left|]. right. by exists q0.
        - right. by exists q. }
      * destruct Hnew as (? & _ & _ & ? & ?). eauto.
      * destruct (live_intro c i q1 e Hwf Hq1 He1) as (p & it & Hl).
        apply Hbwd in Hl as (? & _ & _ & ? & ?). eauto.
    + intros i e p it Hl. apply Hfwd in Hl as [(-> & _ & _ & ->)|Hl]; [done|].
      by eapply wf_qid.
    + intros i e p it i' e' it' Hl Hl'.
      apply Hfwd in Hl as [(_ & -> & -> & _)|Hl];
        apply Hfwd in Hl' as [(_ & -> & Hp' & _)|Hl']; try done.
      * apply live_bounds in Hl' as [_ ?]. unfold p0 in *. lia.
      * apply live_bounds in Hl as [_ ?]. unfold p0 in *. lia.
      * by eapply (wf_inj c Hwf).
    + intros k' e Hk. cbn in Hk.
      apply lookup_insert_Some in Hk as [[<- <-]|[? Hk]].
      * exists 0%nat, p0, new. done.
      * destruct (wf_data c Hwf k' e Hk) as (i & p & it & Hl & Hkey).
        exists i, p, it. split; [by apply Hbwd|done].
  - (* queue 0 is full: its last element is reused *)
    destruct (queue_full_last c 0 q0 Hwf Hq0 Hroom) as [e He].
    destruct (last_live c 0 q0 e Hwf Hq0 He) as (p & item & Hl).
    rewrite He. cbn. rewrite (itemOf_live _ _ _ _ _ Hl). cbn.
    unfold MoveToFront. rewrite queue_0. cbn. rewrite Hq0. cbn.
    eexists. split; [done|]. split; [|done].
    set (item' := {| qid := qid item; key := k; value := val |}).
    apply (wf_inplace c _ (λ p' it, if decide (p' = p) then item' else it));
      try done.
    + cbn. rewrite length_insert. by apply wf_queues.
    + intros j q' Hq'. cbn in Hq'. by eapply queues_moveToFront.
    + intros p'. cbn. destruct (decide (p' = p)) as [->|].
      * rewrite list_lookup_insert_eq by (by eapply live_bounds).
        destruct Hl as (? & _ & _ & _ & ->). done.
      * rewrite list_lookup_insert_ne by done. by destruct (items c !! p').
    + intros p' it Hit. case_decide as Hp; [subst p'|done].
      destruct Hl as (? & _ & _ & _ & Hit').
      assert (it = item) as -> by congruence. done.
    + intros k' e' Hk. cbn in Hk.
      apply lookup_insert_Some in Hk as [[<- <-]|[? Hk]].
      * exists 0%nat, p, item. split; [done|]. by rewrite decide_True.
      * apply lookup_delete_Some in Hk as [? Hk].
        destruct (wf_data c Hwf k' e' Hk) as (i & p' & it & Hl' & Hkey).
        exists i, p', it. split; [done|].
        rewrite decide_False; [done|]. intros ->.
        assert (e' = e) as -> by (by eapply (wf_inj c Hwf)).
        destruct Hl as (? & _ & _ & Hp1 & Hit1), Hl' as (? & _ & _ & Hp2 & Hit2).
        congruence.
Qed.

Lemma live_fun c i e p it i' p' it' :
  wf c -> live c i e p it -> live c i' e p' it' -> i' = i /\ p' = p /\ it' = it.
Proof.
  intros Hwf Hl Hl'.
  pose proof (wf_qid c Hwf _ _ _ _ Hl) as Hi.
  pose proof (wf_qid c Hwf _ _ _ _ Hl') as Hi'.
  destruct Hl as (q & _ & _ & Hp & Hit), Hl' as (q' & _ & _ & Hp' & Hit').
  rewrite Hp in Hp'. injection Hp' as <-.
  rewrite Hit in Hit'. injection Hit' as <-. split; [lia|done].
Qed.

Lemma live_queue c i e p it : wf c -> live c i e p it -> (i < 4)%nat.
Proof.
  intros Hwf (q & Hq & _). rewrite <- (wf_queues c Hwf). by eapply lookup_lt_Some.
Qed.

(** The promotion of [Get]: [v] leaves queue [i], its item moves behind a
    new element at the front of queue [i + 1]. *)
Lemma wf_promote c k i v pi item q next :
  wf c -> data c !! k = Some v -> live c i v pi item -> key item = k ->
  queues c !! i = Some q -> queues c !! S i = Some next ->
  Z.of_nat (length next) < cap c ->
  wf {| cap := cap c;
        data := <[k := length (elemItem c)]> (data c);
        queues := <[S i := length (elemItem c) :: next]>
                    (<[i := without v q]> (queues c));
        elemItem := elemItem c ++ [pi];
        items := <[pi := {| qid := qid item + 1; key := key item;
                            value := value item |}]> (items c) |}.
Proof.
  intros Hwf Hk Hv Hkey Hq Hnext Hroom.
  set (e' := length (elemItem c)).
  set (item1 := {| qid := qid item + 1; key := key item; value := value item |}).
  set (c' := Build_blockLRUCache _ _ _ _ _).
  pose proof (live_bounds _ _ _ _ _ Hv) as [Hvlt Hpilt].
  assert (Hi : (i < length (queues c))%nat) by (by eapply lookup_lt_Some).
  assert (HSi : (S i < length (queues c))%nat) by (by eapply lookup_lt_Some).
  assert (Hold : ∀ j q1 x, queues c !! j = Some q1 -> x ∈ q1 ->
            (x < e')%nat).
  { intros j q1 x Hq1 Hx.
    destruct (wf_total c Hwf j q1 x Hq1 Hx) as (? & ? & Hp & _).
    by apply lookup_lt_Some in Hp. }
  assert (Hqs : ∀ j q' x, queues c' !! j = Some q' -> x ∈ q' ->
            (j = S i /\ x = e') \/
            (∃ q1, queues c !! j = Some q1 /\ x ∈ q1 /\ x ≠ v)).
  { intros j q' x Hq' Hx. cbn in Hq'.
    apply list_lookup_insert_Some in Hq' as [(<- & <- & _)|[? Hq']].
    - apply elem_of_cons in Hx as [->|Hx]; [by left|]. right.
      exists next. split; [done|]. split; [done|]. intros ->.
      destruct (live_intro c (S i) next v Hwf Hnext Hx) as (? & ? & Hl).
      destruct (live_fun c _ _ _ _ _ _ _ Hwf Hv Hl) as (? & _). lia.
    - apply list_lookup_insert_Some in Hq' as [(<- & <- & _)|[? Hq']].
      + apply elem_of_without in Hx as [? ?]. right. by exists q.
      + right. exists q'. split; [done|]. split; [done|]. intros ->.
        destruct (live_intro c j q' v Hwf Hq' Hx) as (? & ? & Hl).
        destruct (live_fun c _ _ _ _ _ _ _ Hwf Hv Hl) as (? & _). lia. }
  assert (Hbwd : ∀ j x p it, live c j x p it -> x ≠ v -> live c' j x p it).
  { intros j x p it Hl Hne.
    assert (p ≠ pi) as Hp.
    { intros ->. apply Hne. by eapply (wf_inj c Hwf). }
    pose proof (live_bounds _ _ _ _ _ Hl) as [? ?].
    destruct Hl as (q1 & Hq1 & Hx & Hpx & Hit).
    assert (∃ q', queues c' !! j = Some q' /\ x ∈ q') as (q' & Hq' & Hx').
    { cbn. destruct (decide (j = S i)) as [->|].
      - exists (e' :: next). rewrite list_lookup_insert_eq
          by (by rewrite length_insert).
        rewrite Hnext in Hq1. injection Hq1 as <-. set_solver.
      - rewrite list_lookup_insert_ne by done.
        destruct (decide (j = i)) as [->|].
        + exists (without v q). rewrite list_lookup_insert_eq by done.
          rewrite Hq in Hq1. injection Hq1 as <-.
          by rewrite elem_of_without.
        + exists q1. by rewrite list_lookup_insert_ne. }
    exists q'. cbn.
    rewrite lookup_app_l, (list_lookup_insert_ne (items c)) by done. done. }
  assert (Hnew : live c' (S i) e' pi item1).
  { exists (e' :: next). cbn.
    rewrite list_lookup_insert_eq by (by rewrite length_insert).
    rewrite lookup_app_r, Nat.sub_diag, list_lookup_insert_eq by done.
    split; [done|]. split; [set_solver|done]. }
  assert (Hfwd : ∀ j x p it, live c' j x p it ->
            (j = S i /\ x = e' /\ p = pi /\ it = item1) \/
            (live c j x p it /\ x ≠ v)).
  { intros j x p it (q' & Hq' & Hx & Hp & Hit).
    destruct (Hqs j q' x Hq' Hx) as [[-> ->]|(q1 & Hq1 & Hx1 & Hne)].
    - left. cbn in Hp, Hit.
      rewrite lookup_app_r, Nat.sub_diag in Hp by done. injection Hp as <-.
      rewrite list_lookup_insert_eq in Hit by done. by injection Hit as <-.
    - right. split; [|done].
      destruct (live_intro c j q1 x Hwf Hq1 Hx1) as (p1 & it1 & Hl).
      destruct (Hbwd _ _ _ _ Hl Hne) as (? & _ & _ & Hp1 & Hit1).
      rewrite Hp in Hp1. injection Hp1 as <-.
      rewrite Hit in Hit1. by injection Hit1 as <-. }
  split.
  - cbn. rewrite !length_insert. by apply wf_queues.
  - cbn. by apply wf_cap.
  - intros j q' Hq'. cbn in Hq' |- *.
    apply list_lookup_insert_Some in Hq' as [(<- & <- & _)|[? Hq']]; [cbn; lia|].
    apply list_lookup_insert_Some in Hq' as [(<- & <- & _)|[? Hq']].
    + pose proof (length_without v q). pose proof (wf_len c Hwf i q Hq). lia.
    + by eapply wf_len.
  - intros j q' Hq'. cbn in Hq'.
    apply list_lookup_insert_Some in Hq' as [(<- & <- & _)|[? Hq']].
    + apply NoDup_cons. split; [|by eapply wf_nodup].
      intros Hin. apply (Hold _ _ _ Hnext) in Hin. lia.
    + apply list_lookup_insert_Some in Hq' as [(<- & <- & _)|[? Hq']].
      * apply NoDup_filter. by eapply wf_nodup.
      * by eapply wf_nodup.
  - intros j q' x Hq' Hx.
    destruct (Hqs j q' x Hq' Hx) as [[-> ->]|(q1 & Hq1 & Hx1 & Hne)].
    + destruct Hnew as (? & _ & _ & ? & ?). eauto.
    + destruct (live_intro c j q1 x Hwf Hq1 Hx1) as (p1 & it1 & Hl).
      destruct (Hbwd _ _ _ _ Hl Hne) as (? & _ & _ & ? & ?). eauto.
  - intros j x p it Hl. apply Hfwd in Hl as [(-> & _ & _ & ->)|[Hl _]].
    + cbn. rewrite (wf_qid c Hwf _ _ _ _ Hv). lia.
    + by eapply wf_qid.
  - intros j x p it j' x' it' Hl Hl'.
    apply Hfwd in Hl as [(_ & -> & -> & _)|[Hl Hne]];
      apply Hfwd in Hl' as [(_ & -> & Hp' & _)|[Hl' Hne']]; try done.
    + exfalso. apply Hne'. by eapply (wf_inj c Hwf).
    + subst p. exfalso. apply Hne. by eapply (wf_inj c Hwf).
    + by eapply (wf_inj c Hwf).
  - intros k' x Hk'. cbn in Hk'.
    apply lookup_insert_Some in Hk' as [[<- <-]|[? Hk']].
    + exists (S i), pi, item1. done.
    + destruct (wf_data c Hwf k' x Hk') as (j & p & it & Hl & Hkey').
      exists j, p, it. split; [|done]. apply Hbwd; [done|]. intros ->.
      destruct (live_fun c _ _ _ _ _ _ _ Hwf Hv Hl) as (_ & _ & ->). congruence.
Qed.

(** The swap of [Get]: the items of [v] and of the last element [w] of the
    next queue exchange key and value, and both elements move to the front
    of their queues. *)
Lemma wf_swap c k i v pi item q next w po other :
  wf c -> data c !! k = Some v -> live c i v pi item -> key item = k ->
  queues c !! i = Some q -> queues c !! S i = Some next ->
  live c (S i) w po other ->
  wf {| cap := cap c;
        data := <[key item := w]> (<[key other := v]> (data c));
        queues := <[S i := moveToFront w next]>
                    (<[i := moveToFront v q]> (queues c));
        elemItem := elemItem c;
        items :=
          <[pi := {| qid := qid item; key := key other; value := value other |}]>
          (<[po := {| qid := qid other; key := key item; value := value item |}]>
          (<[pi := {| qid := qid item; key := key other; value := value item |}]>
          (<[po := {| qid := qid other; key := key item; value := value other |}]>
             (items c)))) |}.
Proof.
  intros Hwf Hk Hv Hkey Hq Hnext Hw.
  pose proof (live_bounds _ _ _ _ _ Hv) as [_ Hpilt].
  pose proof (live_bounds _ _ _ _ _ Hw) as [_ Hpolt].
  assert (pi ≠ po) as Hne.
  { intros ->. assert (v = w) as -> by (by eapply (wf_inj c Hwf)).
    destruct (live_fun c _ _ _ _ _ _ _ Hwf Hv Hw) as (? & _). lia. }
  set (item2 := {| qid := qid item; key := key other; value := value other |}).
  set (other2 := {| qid := qid other; key := key item; value := value item |}).
  apply (wf_inplace c _
           (λ p it, if decide (p = pi) then item2
                    else if decide (p = po) then other2 else it));
    try done.
  - cbn. rewrite !length_insert. by apply wf_queues.
  - intros j q' Hq'. cbn in Hq'.
    assert (<[i := moveToFront v q]> (queues c) !! S i = Some next) as Hnext'
      by (by rewrite list_lookup_insert_ne by lia).
    destruct (queues_moveToFront _ _ _ _ _ _ Hnext' Hq')
      as (q1 & Hq1 & Hmem1 & Hlen1 & Hnd1).
    destruct (queues_moveToFront _ _ _ _ _ _ Hq Hq1)
      as (q0 & Hq0 & Hmem0 & Hlen0 & Hnd0).
    exists q0. split; [done|]. split; [|split; [lia|auto]].
    intros x. by rewrite Hmem1.
  - intros p. cbn. destruct (decide (p = pi)) as [->|].
    + rewrite list_lookup_insert_eq by (by rewrite !length_insert).
      destruct Hv as (? & _ & _ & _ & ->). done.
    + rewrite list_lookup_insert_ne by done.
      destruct (decide (p = po)) as [->|].
      * rewrite list_lookup_insert_eq by (by rewrite !length_insert).
        destruct Hw as (? & _ & _ & _ & ->). done.
      * rewrite !list_lookup_insert_ne by done. by destruct (items c !! p).
  - intros p it Hit. repeat case_decide; subst; try done.
    + destruct Hv as (? & _ & _ & _ & Hit'). by simplify_eq.
    + destruct Hw as (? & _ & _ & _ & Hit'). by simplify_eq.
  - intros k' x Hk'. cbn in Hk'.
    apply lookup_insert_Some in Hk' as [[<- <-]|[? Hk']].
    { exists (S i), po, other. split; [done|].
      by rewrite decide_False, decide_True by done. }
    apply lookup_insert_Some in Hk' as [[<- <-]|[? Hk']].
    { exists i, pi, item. split; [done|]. by rewrite decide_True. }
    destruct (wf_data c Hwf k' x Hk') as (j & p & it & Hl & Hkey').
    exists j, p, it. split; [done|].
    rewrite !decide_False; [done| |].
    + intros ->. assert (x = w) as -> by (by eapply (wf_inj c Hwf)).
      destruct (live_fun c _ _ _ _ _ _ _ Hwf Hw Hl) as (_ & _ & ->). congruence.
    + intros ->. assert (x = v) as -> by (by eapply (wf_inj c Hwf)).
      destruct (live_fun c _ _ _ _ _ _ _ Hwf Hv Hl) as (_ & _ & ->). congruence.
Qed.

(** A hit in queue 3 moves the element to the front. *)
Lemma wf_top c i e q :
  wf c -> queues c !! i = Some q ->
  wf (setQueue c (Z.of_nat i) (moveToFront e q)).
Proof.
  intros Hwf Hq. apply (wf_inplace c _ (λ _ it, it)); try done.
  - cbn. rewrite length_insert. by apply wf_queues.
  - intros j q' Hq'. cbn in Hq'. rewrite Nat2Z.id in Hq'.
    by eapply queues_moveToFront.
  - intros p. cbn. by destruct (items c !! p).
  - intros k' x Hk'. cbn in Hk'.
    destruct (wf_data c Hwf k' x Hk') as (j & p & it & Hl & Hkey').
    by exists j, p, it.
Qed.

Lemma queue_at c z (i : nat) : z = Z.of_nat i -> queue c z = must (queues c !! i).
Proof. intros ->. apply queue_nat. Qed.

Lemma itemOf_lookup c e p it :
  elemItem c !! e = Some p -> items c !! p = Some it -> itemOf c e = Ret (p, it).
Proof. intros Hp Hit. unfold itemOf. rewrite Hp. cbn. rewrite Hit. done. Qed.

(** [Get] on a cache of the shape [wf] returns a cache of that shape. *)
Lemma Get_wf c k :
  wf c ->
  ∃ r c', blockLRUCache_Get c k = Ret (r, c') /\ wf c' /\ cap c' = cap c.
Proof.
  intros Hwf. unfold blockLRUCache_Get.
  destruct (data c !! k) as [v|] eqn:Hk; [|by exists None, c].
  destruct (wf_data c Hwf k v Hk) as (i & pi & item & Hv & Hkey).
  pose proof (wf_qid c Hwf _ _ _ _ Hv) as Hqid.
  pose proof (live_queue c _ _ _ _ Hwf Hv) as Hi.
  assert (Z.to_nat (qid item) = i) as Ei by lia.
  destruct (Hv) as (q & Hq & Hvq & Hvp & Hvit).
  rewrite (itemOf_live _ _ _ _ _ Hv). cbn.
  case_decide as Htop.
  - (* can't bump up a level *)
    assert (i = 3%nat) as -> by lia.
    unfold MoveToFront. rewrite (queue_at c 3 3), Hq by done. cbn.
    eexists _, _. split; [done|]. split; [|done].
    by apply (wf_top c 3).
  - assert (S i < length (queues c))%nat as HSi
      by (rewrite (wf_queues c Hwf); lia).
    apply lookup_lt_is_Some in HSi as [next Hnext].
    assert (Z.to_nat (qid item + 1) = S i) as ESi by lia.
    rewrite (queue_at c (qid item + 1) (S i)), Hnext by lia. cbn.
    case_decide as Hroom.
    + (* plenty of room to bump up *)
      rewrite (queue_at c (qid item) i), Hq by done. cbn.
      unfold PushFront. cbn.
      rewrite (queue_at _ (qid item + 1) (S i)) by lia. cbn.
      rewrite Ei, list_lookup_insert_ne, Hnext by lia. cbn.
      eexists _, _. split; [done|]. split; [|done].
      unfold setData. cbn. rewrite ESi.
      by apply (wf_promote c k i v pi item q next).
    + (* full queues, swap items in place *)
      destruct (queue_full_last c (S i) next Hwf Hnext Hroom) as [w Hlast].
      destruct (last_live c (S i) next w Hwf Hnext Hlast) as (po & other & Hw).
      pose proof (wf_qid c Hwf _ _ _ _ Hw) as Hqid'.
      destruct (Hw) as (? & _ & _ & Hwp & Hwit).
      pose proof (live_bounds _ _ _ _ _ Hv) as [_ Hpilt].
      pose proof (live_bounds _ _ _ _ _ Hw) as [_ Hpolt].
      assert (pi ≠ po) as Hne.
      { intros ->. assert (v = w) as -> by (by eapply (wf_inj c Hwf)).
        destruct (live_fun c _ _ _ _ _ _ _ Hwf Hv Hw) as (? & _). lia. }
      rewrite Hlast. cbn. rewrite (itemOf_live _ _ _ _ _ Hw). cbn.
      erewrite (itemOf_lookup _ v pi item);
        [|done|by cbn; rewrite list_lookup_insert_ne]. cbn.
      erewrite (itemOf_lookup _ w po);
        [|done|by cbn; rewrite list_lookup_insert_ne, list_lookup_insert_eq]. cbn.
      erewrite (itemOf_lookup _ v pi);
        [|done|by cbn; rewrite list_lookup_insert_ne, list_lookup_insert_eq
                 by (by rewrite ?length_insert)]. cbn.
      erewrite (itemOf_lookup _ v pi);
        [|done|by cbn; rewrite list_lookup_insert_eq
                 by (by rewrite ?length_insert)]. cbn.
      erewrite (itemOf_lookup _ w po);
        [|done|by cbn; rewrite list_lookup_insert_ne, list_lookup_insert_eq
                 by (by rewrite ?length_insert)]. cbn.
      unfold MoveToFront. cbn.
      rewrite (queue_at _ (qid item) i) by done. cbn. rewrite Hq. cbn.
      rewrite (queue_at _ (qid other) (S i)) by done. cbn.
      rewrite Ei, list_lookup_insert_ne, Hnext by lia. cbn.
      erewrite (itemOf_lookup _ w po);
        [|done|by cbn; rewrite list_lookup_insert_ne, list_lookup_insert_eq
                 by (by rewrite ?length_insert)]. cbn.
      eexists _, _. split; [done|]. split; [|done].
      assert (Z.to_nat (qid other) = S i) as ESi' by lia.
      unfold setQueue, setData, store. cbn. rewrite Ei, ESi'.
      by apply (wf_swap c k i v pi item q next w po other).
Qed.

Lemma step_wf c op :
  wf c -> ∃ c', step c op = Ret c' /\ wf c' /\ cap c' = cap c.
Proof.
  intros Hwf. destruct op as [k val|k]; cbn [step].
  - by apply Set_wf.
  - destruct (Get_wf c k Hwf) as (r & c' & -> & Hwf' & Hcap). by exists c'.
Qed.

Lemma run_wf c ops :
  wf c -> ∃ c', run c ops = Ret c' /\ wf c' /\ cap c' = cap c.
Proof.
  revert c. induction ops as [|op ops IH]; intros c Hwf; cbn [run].
  - by exists c.
  - destruct (step_wf c op Hwf) as (c1 & -> & Hwf1 & Hcap1).
    destruct (IH c1 Hwf1) as (c' & Hrun & Hwf' & Hcap').
    exists c'. rewrite bind_Ret_l. split; [done|]. split; [done|congruence].
Qed.

(** C6 (as the code has it): every sequence of [Set] and [Get] on a fresh
    cache of capacity [c] with [0 < c <= 2^63 - 4] runs without panic and
    leaves at most [4 * ((c + 3) / 4)] items in the four queues, which is at
    most [c + 3] and is [c] when 4 divides [c]; the lookup map never has
    more entries than the queues have items. For the three larger values of
    an [int] the sum [c + 3] wraps, the capacity of a queue is negative and
    the first [Set] panics. *)
Theorem s4lru_bounded capacity ops :
  (0 < capacity <= 2 ^ 63 - 4 ->
   ∃ c, run (newLRUCache capacity) ops = Ret c /\
        Z.of_nat (cached c) <= 4 * Z.quot (capacity + 3) 4 /\
        4 * Z.quot (capacity + 3) 4 <= capacity + 3 /\
        (capacity mod 4 = 0 -> Z.of_nat (cached c) <= capacity) /\
        (size (data c) <= cached c)%nat) /\
  (2 ^ 63 - 4 < capacity < 2 ^ 63 ->
   cap (newLRUCache capacity) < 0 /\
   ∀ k val, blockLRUCache_Set (newLRUCache capacity) k val = Panic).
Proof.
  split.
  - intros Hcap.
    destruct (run_wf (newLRUCache capacity) ops (wf_newLRUCache capacity Hcap))
      as (c & Hrun & Hwf & Hc).
    exists c. split; [done|].
    pose proof (wf_cached c Hwf) as Hbound. rewrite Hc in Hbound. cbn in Hbound.
    rewrite int_small in Hbound by lia.
    rewrite Z.quot_div_nonneg in * by lia.
    split; [done|]. split; [|split].
    + pose proof (Z.mul_div_le (capacity + 3) 4). lia.
    + intros Hdiv.
      assert (4 * ((capacity + 3) / 4) <= capacity); [|lia].
      rewrite (Z.div_mod capacity 4) at 1 2 by lia. rewrite Hdiv, Z.add_0_r.
      rewrite (Z.mul_comm 4 (capacity / 4)), Z.div_add_l by lia.
      change (3 / 4) with 0. pose proof (Z.mul_div_le capacity 4). lia.
    + by apply wf_size.
  - intros Hcap.
    assert (cap (newLRUCache capacity) < 0) as Hneg.
    { cbn. unfold int, int64.
      replace ((capacity + 3 + 2 ^ 63) mod 2 ^ 64)
        with (capacity + 3 + 2 ^ 63 - 2 ^ 64)
        by (apply Z.mod_unique_pos with 1; lia).
      replace (capacity + 3 + 2 ^ 63 - 2 ^ 64 - 2 ^ 63)
        with (- (2 ^ 64 - capacity - 3)) by lia.
      rewrite Z.quot_opp_l, Z.quot_div_nonneg by lia.
      assert (1 <= (2 ^ 64 - capacity - 3) / 4); [|lia].
      apply Z.div_le_lower_bound; lia. }
    split; [done|]. intros k val. unfold blockLRUCache_Set.
    rewrite queue_0. cbn [newLRUCache queues lookup list_lookup must mbind outcome_bind].
    change (queues (newLRUCache capacity) !! 0%nat) with (Some (@nil nat)).
    cbn [must mbind outcome_bind length].
    rewrite decide_False by lia. done.
Qed.

(** The theorem at capacity 4 and the four [Set]s of the scenario, and at
    the largest [int]. *)
Lemma s4lru_bounded_witness :
  (∃ c, run (newLRUCache 4) fourSets = Ret c /\ Z.of_nat (cached c) <= 4) /\
  blockLRUCache_Set (newLRUCache (2 ^ 63 - 1)) 1 (block 1) = Panic.
Proof.
  split.
  - destruct (proj1 (s4lru_bounded 4 fourSets)) as (c & Hrun & Hbound & _);
      [lia|].
    exists c. split; [done|]. exact Hbound.
  - apply (proj2 (s4lru_bounded (2 ^ 63 - 1) [])); lia.
Defined.

(** C6 as stated fails at capacity 1: after [Set(1)], [Get(1)], [Set(2)] the
    queues hold two items and the lookup map two entries. *)
Lemma s4lru_capacity_1_holds_2 :
  (c ← run (newLRUCache 1) [OpSet 1 (block 1); OpGet 1; OpSet 2 (block 2)];
   mret (cached c, size (data c))) = Ret (2%nat, 2%nat) /\
  ¬ (Z.of_nat 2 <= 1).
Proof. split; [by vm_compute | lia]. Qed.

(** ** Virtual offsets *)

Lemma lor_shiftl_low q r n :
  0 <= n -> 0 <= r < 2 ^ n -> Z.lor (Z.shiftl q n) r = q * 2 ^ n + r.
Proof.
  intros Hn Hr. rewrite Z.shiftl_mul_pow2 by done.
  assert (Z.land (q * 2 ^ n) r = 0) as Hland.
  { apply Z.bits_inj'. intros i Hi. rewrite Z.land_spec, Z.bits_0.
    destruct (decide (i < n)).
    - by rewrite Z.mul_pow2_bits_low by lia.
    - rewrite <- (Z.mod_small r (2 ^ n)) by done.
      rewrite Z.mod_pow2_bits_high by lia. apply andb_false_r. }
  rewrite <- Z.lxor_lor, <- Z.add_nocarry_lxor by done. done.
Qed.

Lemma Compressed_div o : 0 <= o < 2 ^ 64 -> Compressed o = o / 2 ^ 16.
Proof.
  intros Ho. unfold Compressed. rewrite Z.shiftr_div_pow2 by lia.
  apply int64_small.
  assert (0 <= o / 2 ^ 16 < 2 ^ 48).
  { split; [apply Z.div_pos; lia|]. apply Z.div_lt_upper_bound; lia. }
  lia.
Qed.

Lemma Uncompressed_mod o : Uncompressed o = o mod 2 ^ 16.
Proof.
  unfold Uncompressed, uint16. change 65535 with (Z.ones 16).
  rewrite Z.land_ones by lia. apply Z.mod_mod. lia.
Qed.

(** X1: the two accessors split a virtual offset without loss, and the
    order of offsets is the order of the pairs. *)
Theorem Offset_split o1 o2 :
  0 <= o1 < 2 ^ 64 -> 0 <= o2 < 2 ^ 64 ->
  Z.lor (Z.shiftl (Compressed o1) 16) (Uncompressed o1) = o1 /\
  0 <= Compressed o1 < 2 ^ 48 /\ 0 <= Uncompressed o1 < 2 ^ 16 /\
  (o1 <= o2 ↔
     Compressed o1 < Compressed o2 \/
     (Compressed o1 = Compressed o2 /\ Uncompressed o1 <= Uncompressed o2)).
Proof.
  intros H1 H2. rewrite !Compressed_div, !Uncompressed_mod by done.
  pose proof (Z.mod_pos_bound o1 (2 ^ 16) eq_refl).
  pose proof (Z.mod_pos_bound o2 (2 ^ 16) eq_refl).
  pose proof (Z.div_mod o1 (2 ^ 16) ltac:(lia)).
  pose proof (Z.div_mod o2 (2 ^ 16) ltac:(lia)).
  split; [rewrite lor_shiftl_low by lia; lia|].
  split; [|split; [done|]].
  - split; [apply Z.div_pos; lia | apply Z.div_lt_upper_bound; lia].
  - change (2 ^ 16) with 65536 in *. lia.
Qed.

Lemma Offset_split_witness :
  Z.lor (Z.shiftl (Compressed 6553700) 16) (Uncompressed 6553700) = 6553700.
Proof.
  apply (Offset_split 6553700 0); lia.
Defined.

(** ** The bin of a region covers it *)

Lemma shiftr2_div a s :
  0 <= s -> Z.shiftr (Z.shiftr a 14) s = a / 2 ^ (14 + s).
Proof.
  intros Hs. rewrite Z.shiftr_shiftr, Z.shiftr_div_pow2 by lia. done.
Qed.

Lemma cover_agree k x0 b e :
  0 < k -> x0 * k <= b -> b < e -> e <= (x0 + 1) * k ->
  b / k = x0 /\ (e - 1) / k = x0.
Proof.
  intros Hk Hlo Hbe Hhi. split; symmetry.
  - apply (Z.div_unique_pos _ _ _ (b - x0 * k)); lia.
  - apply (Z.div_unique_pos _ _ _ (e - 1 - x0 * k)); lia.
Qed.

Lemma agree_cover k b e :
  0 < k -> 0 <= b < e -> b / k = (e - 1) / k ->
  b / k * k <= b /\ e <= b / k * k + k.
Proof.
  intros Hk Hbe Heq.
  pose proof (Z.div_mod b k ltac:(lia)). pose proof (Z.mod_pos_bound b k Hk).
  pose proof (Z.div_mod (e - 1) k ltac:(lia)).
  pose proof (Z.mod_pos_bound (e - 1) k Hk).
  rewrite <- Heq in *. nia.
Qed.

(** X2: on a valid region the bin that [getBin] returns stands for a part of
    the reference that contains the region, and no bin with a smaller
    extent does. *)
Theorem getBin_covers b e :
  0 <= b < e -> e <= 2 ^ 29 ->
  binCovers (getBin b e) b e /\
  (∀ x, 0 <= x -> binCovers x b e ->
     (binExtent (getBin b e)).2 <= (binExtent x).2).
Proof.
  intros Hb He. rewrite getBin_reg2bin_spec by done.
  unfold reg2bin_spec. cbn [firstAgreeing binLevels].
  rewrite !Z.shiftr_0_r, !shiftr2_div by lia.
  rewrite !Z.shiftr_div_pow2 by lia.
  change (2 ^ (14 + 3)) with (2 ^ 17). change (2 ^ (14 + 6)) with (2 ^ 20).
  change (2 ^ (14 + 9)) with (2 ^ 23). change (2 ^ (14 + 12)) with (2 ^ 26).
  assert (Hrange : ∀ k, 0 < k -> 0 <= b / k <= b).
  { intros k Hk. split; [apply Z.div_pos; lia|].
    apply Z.div_le_upper_bound; [lia|]. nia. }
  assert (b / 2 ^ 14 < 2 ^ 15 /\ b / 2 ^ 17 < 2 ^ 12 /\ b / 2 ^ 20 < 2 ^ 9
          /\ b / 2 ^ 23 < 2 ^ 6 /\ b / 2 ^ 26 < 2 ^ 3) as (?&?&?&?&?).
  { repeat split; apply Z.div_lt_upper_bound; lia. }
  pose proof (Hrange (2 ^ 14) eq_refl). pose proof (Hrange (2 ^ 17) eq_refl).
  pose proof (Hrange (2 ^ 20) eq_refl). pose proof (Hrange (2 ^ 23) eq_refl).
  pose proof (Hrange (2 ^ 26) eq_refl).
  assert (Hext : ∀ x, 0 <= x -> binCovers x b e ->
    (4681 <= x /\ (binExtent x).2 = 2 ^ 14 /\ b / 2 ^ 14 = (e - 1) / 2 ^ 14) \/
    (585 <= x /\ (binExtent x).2 = 2 ^ 17 /\ b / 2 ^ 17 = (e - 1) / 2 ^ 17) \/
    (73 <= x /\ (binExtent x).2 = 2 ^ 20 /\ b / 2 ^ 20 = (e - 1) / 2 ^ 20) \/
    (9 <= x /\ (binExtent x).2 = 2 ^ 23 /\ b / 2 ^ 23 = (e - 1) / 2 ^ 23) \/
    (1 <= x /\ (binExtent x).2 = 2 ^ 26 /\ b / 2 ^ 26 = (e - 1) / 2 ^ 26) \/
    (binExtent x).2 = 2 ^ 29).
  { intros x Hx [Hlo Hhi]. unfold binExtent in *.
    repeat case_decide; cbn [fst snd] in *;
      rewrite ?Z.shiftl_mul_pow2 in * by lia.
    - left. split; [done|]. split; [done|].
      destruct (cover_agree (2 ^ 14) (x - 4681) b e); lia.
    - right; left. split; [done|]. split; [done|].
      destruct (cover_agree (2 ^ 17) (x - 585) b e); lia.
    - do 2 right; left. split; [done|]. split; [done|].
      destruct (cover_agree (2 ^ 20) (x - 73) b e); lia.
    - do 3 right; left. split; [done|]. split; [done|].
      destruct (cover_agree (2 ^ 23) (x - 9) b e); lia.
    - do 4 right; left. split; [done|]. split; [done|].
      destruct (cover_agree (2 ^ 26) (x - 1) b e); lia.
    - do 5 right. done. }
  assert (Hagree : ∀ k, 0 < k -> k <= 2 ^ 14 * 2 ^ 12 ->
            b / k = (e - 1) / k -> b / k * k <= b /\ e <= b / k * k + k).
  { intros k Hk _ Heq. by apply agree_cover. }
  repeat case_match;
    repeat match goal with
    | H : (_ =? _) = true |- _ => apply Z.eqb_eq in H
    | H : (_ =? _) = false |- _ => apply Z.eqb_neq in H
    end.
  all: split.
  all: try (intros x Hx Hcov;
      destruct (Hext x Hx Hcov) as [(?&->&?)|[(?&->&?)|[(?&->&?)|[(?&->&?)|[(?&->&?)| ->]]]]];
      unfold binExtent; repeat case_decide; cbn [snd]; first [lia | congruence]).
  all: unfold binCovers, binExtent; repeat case_decide; try lia;
      cbn [fst snd]; rewrite ?Z.shiftl_mul_pow2 by lia.
  - replace (4681 + b / 2 ^ 14 - 4681) with (b / 2 ^ 14) by lia.
    apply agree_cover; [lia | lia | done].
  - replace (585 + b / 2 ^ 17 - 585) with (b / 2 ^ 17) by lia.
    apply agree_cover; [lia | lia | done].
  - replace (73 + b / 2 ^ 20 - 73) with (b / 2 ^ 20) by lia.
    apply agree_cover; [lia | lia | done].
  - replace (9 + b / 2 ^ 23 - 9) with (b / 2 ^ 23) by lia.
    apply agree_cover; [lia | lia | done].
  - replace (1 + b / 2 ^ 26 - 1) with (b / 2 ^ 26) by lia.
    apply agree_cover; [lia | lia | done].
  - lia.
Qed.

Lemma getBin_covers_witness : binCovers (getBin 100000 200000) 100000 200000.
Proof.
  apply (getBin_covers 100000 200000); [lia | by vm_compute].
Defined.


(** X3: on a valid region [getBin] returns one of the 37449 bin numbers,
    and every one of these numbers is returned for the region that the bin
    stands for. *)
Theorem getBin_range_onto :
  (∀ b e, 0 <= b < e -> e <= 2 ^ 29 -> 0 <= getBin b e < 37449) /\
  (∀ x, 0 <= x < 37449 ->
     getBin (binExtent x).1 ((binExtent x).1 + (binExtent x).2) = x).
Proof.
  split.
  - intros b e Hb He. rewrite getBin_reg2bin_spec by done.
    unfold reg2bin_spec. cbn [firstAgreeing binLevels].
    rewrite !Z.shiftr_0_r, !shiftr2_div by lia.
    rewrite !Z.shiftr_div_pow2 by lia.
    assert (0 <= b / 2 ^ 14 < 2 ^ 15 /\ 0 <= b / 2 ^ (14 + 3) < 2 ^ 12 /\
            0 <= b / 2 ^ (14 + 6) < 2 ^ 9 /\ 0 <= b / 2 ^ (14 + 9) < 2 ^ 6 /\
            0 <= b / 2 ^ (14 + 12) < 2 ^ 3) as (?&?&?&?&?).
    { repeat split; first [apply Z.div_pos; lia | apply Z.div_lt_upper_bound; lia]. }
    repeat case_match; lia.
  - intros x Hx.
    assert (Hfit : ∀ k m, 0 < k -> 0 <= m ->
              (m * k) / k = m /\ (m * k + k - 1) / k = m).
    { intros k m Hk Hm. split.
      - by apply Z.div_mul; lia.
      - symmetry. apply (Z.div_unique_pos _ _ _ (k - 1)); lia. }
    unfold binExtent. repeat case_decide; cbn [fst snd];
      rewrite ?Z.shiftl_mul_pow2 by lia.
    all: rewrite getBin_reg2bin_spec;
      [ | change (2 ^ 14) with 16384; change (2 ^ 17) with 131072;
          change (2 ^ 20) with 1048576; change (2 ^ 23) with 8388608;
          change (2 ^ 26) with 67108864; change (2 ^ 29) with 536870912; lia .. ].
    all: unfold reg2bin_spec; cbn [firstAgreeing binLevels];
      rewrite !Z.shiftr_0_r, !shiftr2_div by lia;
      rewrite !Z.shiftr_div_pow2 by lia;
      change (2 ^ (14 + 3)) with (2 ^ 17); change (2 ^ (14 + 6)) with (2 ^ 20);
      change (2 ^ (14 + 9)) with (2 ^ 23); change (2 ^ (14 + 12)) with (2 ^ 26);
      change (2 ^ 14) with 16384; change (2 ^ 17) with 131072;
      change (2 ^ 20) with 1048576; change (2 ^ 23) with 8388608;
      change (2 ^ 26) with 67108864; change (2 ^ 29) with 536870912;
      repeat case_match;
      repeat match goal with
      | H : (_ =? _) = true |- _ => apply Z.eqb_eq in H
      | H : (_ =? _) = false |- _ => apply Z.eqb_neq in H
      end;
      Z.div_mod_to_equations; lia.
Qed.

Lemma getBin_range_onto_witness :
  0 <= getBin 100000 200000 < 37449 /\
  getBin (binExtent 4687).1 ((binExtent 4687).1 + (binExtent 4687).2) = 4687.
Proof.
  split.
  - apply (proj1 getBin_range_onto 100000 200000); [lia | by vm_compute].
  - apply (proj2 getBin_range_onto 4687). lia.
Defined.

(** ** The bin set of a region *)

Lemma increasing_snoc l x :
  increasing l -> Forall (λ y, y < x) l -> increasing (l ++ [x]).
Proof.
  intros Hl Hx i j a c Hij Hi Hj.
  apply lookup_snoc_Some in Hj as [[? Hj] | [-> ->]].
  - apply lookup_snoc_Some in Hi as [[? Hi] | [-> ->]]; [|lia].
    by apply (Hl i j).
  - apply lookup_snoc_Some in Hi as [[? Hi] | [? _]]; [|lia].
    rewrite Forall_forall in Hx. apply Hx. by eapply list_elem_of_lookup_2.
Qed.

Lemma appendBins_increasing n k res :
  0 <= k -> k + Z.of_nat n <= 2 ^ 32 ->
  increasing res -> Forall (λ y, y < k) res ->
  increasing (appendBins n k res) /\
  Forall (λ y, y < k + Z.of_nat n) (appendBins n k res).
Proof.
  revert k res. induction n as [|n IH]; intros k res Hk Hn Hres Hlt;
    cbn [appendBins].
  - split; [done|]. eapply Forall_impl; [done|]. intros; cbn in *; lia.
  - rewrite uint32_small by lia.
    destruct (IH (k + 1) (res ++ [k])) as [H1 H2]; [lia | lia | | | ].
    + by apply increasing_snoc.
    + apply Forall_app. split; [|by repeat constructor; lia].
      eapply Forall_impl; [done|]. intros; cbn in *; lia.
    + split; [done|]. eapply Forall_impl; [done|]. intros; cbn in *; lia.
Qed.

Lemma forBins_increasing lo hi m res :
  0 <= lo -> lo <= m -> hi < m -> m <= 2 ^ 32 ->
  increasing res -> Forall (λ y, y < lo) res ->
  increasing (forBins lo hi res) /\ Forall (λ y, y < m) (forBins lo hi res).
Proof.
  intros Hlo Hm1 Hm2 Hm Hres Hlt. unfold forBins.
  destruct (appendBins_increasing (Z.to_nat (hi + 1 - lo)) lo res) as [H1 H2];
    [lia | lia | done | done |].
  split; [done|]. eapply Forall_impl; [done|]. intros; cbn in *; lia.
Qed.

Lemma increasing_lookup_ge l (i : nat) x :
  increasing l -> Forall (λ y, 0 <= y) l -> l !! i = Some x -> Z.of_nat i <= x.
Proof.
  intros Hl Hpos. revert x. induction i as [|i IH]; intros x Hi.
  - rewrite Forall_forall in Hpos. apply Hpos. by eapply list_elem_of_lookup_2.
  - destruct (l !! i) as [y|] eqn:Hy.
    + pose proof (IH y eq_refl). pose proof (Hl i (S i) y x ltac:(lia) Hy Hi). lia.
    + apply lookup_ge_None in Hy. apply lookup_lt_Some in Hi. lia.
Qed.

Lemma appendBins_prefix n k res : res `prefix_of` appendBins n k res.
Proof.
  revert k res. induction n as [|n IH]; intros k res; cbn [appendBins]; [done|].
  etrans; [|apply IH]. by apply prefix_app_r.
Qed.

(** X4: on a valid region the bin numbers that [getBins] returns start
    with 0, grow strictly, so none is repeated, stay below 37449, and fit
    the capacity the result is allocated with. *)
Theorem getBins_increasing b e :
  0 <= b < e -> e <= 2 ^ 29 ->
  head (getBins b e) = Some 0 /\
  increasing (getBins b e) /\
  Forall (λ x, 0 <= x < 37449) (getBins b e) /\
  Z.of_nat (length (getBins b e)) <= (Z.shiftl 1 18 - 1) / 7.
Proof.
  intros Hb He.
  destruct (windows_bounds b e Hb He) as (Hu & Hlo & Hhi).
  assert (Hs : ∀ k, 0 <= k ->
            0 <= Z.shiftr (Z.shiftr b 14) k <= Z.shiftr (Z.shiftr (e - 1) 14) k).
  { intros k Hk. split; [apply shiftr_bounds; lia | apply shiftr_mono; lia]. }
  assert (Z.shiftr (Z.shiftr (e - 1) 14) 12 < 8 /\
          Z.shiftr (Z.shiftr (e - 1) 14) 9 < 64 /\
          Z.shiftr (Z.shiftr (e - 1) 14) 6 < 512 /\
          Z.shiftr (Z.shiftr (e - 1) 14) 3 < 4096) as (?&?&?&?).
  { rewrite !(Z.shiftr_div_pow2 (Z.shiftr (e - 1) 14)) by lia.
    repeat split; apply Z.div_lt_upper_bound; lia. }
  pose proof (Hs 3 ltac:(lia)). pose proof (Hs 6 ltac:(lia)).
  pose proof (Hs 9 ltac:(lia)). pose proof (Hs 12 ltac:(lia)).
  assert (increasing (getBins b e) /\ Forall (λ y, y < 37449) (getBins b e))
    as [Hinc Hlt].
  { unfold getBins. rewrite Hu.
    set (b' := Z.shiftr b 14) in *. set (e' := Z.shiftr (e - 1) 14) in *.
    assert (increasing [0] /\ Forall (λ y, y < 1) [0]) as [I0 L0].
    { split; [|by repeat constructor].
      intros [|i] [|j] x y Hij Hi Hj; cbn in *; try done; lia. }
    destruct (forBins_increasing (1 + Z.shiftr b' 12) (1 + Z.shiftr e' 12) 9 [0])
      as [I1 L1]; [lia | lia | lia | lia | done | |].
    { eapply Forall_impl; [done|]. intros; cbn in *; lia. }
    destruct (forBins_increasing (9 + Z.shiftr b' 9) (1 + Z.shiftr e' 9) 73
                (forBins (1 + Z.shiftr b' 12) (1 + Z.shiftr e' 12) [0]))
      as [I2 L2]; [lia | lia | lia | lia | done | |].
    { eapply Forall_impl; [done|]. intros; cbn in *; lia. }
    destruct (forBins_increasing (73 + Z.shiftr b' 6) (73 + Z.shiftr e' 6) 585
                (forBins (9 + Z.shiftr b' 9) (1 + Z.shiftr e' 9)
                (forBins (1 + Z.shiftr b' 12) (1 + Z.shiftr e' 12) [0])))
      as [I3 L3]; [lia | lia | lia | lia | done | |].
    { eapply Forall_impl; [done|]. intros; cbn in *; lia. }
    destruct (forBins_increasing (585 + Z.shiftr b' 3) (585 + Z.shiftr e' 3) 4681
                (forBins (73 + Z.shiftr b' 6) (73 + Z.shiftr e' 6)
                (forBins (9 + Z.shiftr b' 9) (1 + Z.shiftr e' 9)
                (forBins (1 + Z.shiftr b' 12) (1 + Z.shiftr e' 12) [0]))))
      as [I4 L4]; [lia | lia | lia | lia | done | |].
    { eapply Forall_impl; [done|]. intros; cbn in *; lia. }
    apply forBins_increasing; [lia | lia | lia | lia | done |].
    eapply Forall_impl; [done|]. intros; cbn in *; lia. }
  assert (Hhead : head (getBins b e) = Some 0).
  { assert ([0] `prefix_of` getBins b e) as [l ->]; [|done].
    unfold getBins, forBins. cbv zeta.
    repeat (etrans; [|apply appendBins_prefix]). done. }
  assert (Hpos : Forall (λ y, 0 <= y) (getBins b e)).
  { apply Forall_lookup_2. intros i x Hi.
    destruct i as [|i].
    - rewrite <- head_lookup, Hhead in Hi. by inversion Hi.
    - rewrite head_lookup in Hhead.
      pose proof (Hinc 0%nat (S i) 0 x ltac:(lia) Hhead Hi). lia. }
  split; [done|]. split; [done|]. split.
  - rewrite Forall_forall in Hpos, Hlt |- *. intros x Hx.
    specialize (Hpos x Hx). specialize (Hlt x Hx). cbn in *. lia.
  - change ((Z.shiftl 1 18 - 1) / 7) with 37449.
    destruct (decide (length (getBins b e) = 0%nat)) as [->|]; [lia|].
    destruct (lookup_lt_is_Some_2 (getBins b e) (pred (length (getBins b e))))
      as [x Hx]; [lia|].
    pose proof (increasing_lookup_ge _ _ _ Hinc Hpos Hx).
    rewrite Forall_forall in Hlt.
    assert (x < 37449) by (apply Hlt; by eapply list_elem_of_lookup_2). lia.
Qed.

Lemma getBins_increasing_witness : head (getBins 100000 200000) = Some 0.
Proof.
  apply (getBins_increasing 100000 200000); [lia | by vm_compute].
Defined.

(** X5: every bin that [getBins] returns for a valid region meets the
    region, and every bin that meets the region is returned, unless it is
    one of the bins 9 to 72. *)
Theorem getBins_meet_region b e x :
  0 <= b < e -> e <= 2 ^ 29 ->
  (x ∈ getBins b e -> binMeets x b e) /\
  (0 <= x < 37449 -> ¬ (9 <= x <= 72) -> binMeets x b e -> x ∈ getBins b e).
Proof.
  intros Hb He. rewrite elem_of_getBins by done. cbv zeta.
  rewrite !shiftr2_div by lia.
  rewrite !Z.shiftr_div_pow2 by lia.
  unfold binMeets, binExtent.
  change (2 ^ (14 + 3)) with (2 ^ 17); change (2 ^ (14 + 6)) with (2 ^ 20);
  change (2 ^ (14 + 9)) with (2 ^ 23); change (2 ^ (14 + 12)) with (2 ^ 26);
  change (2 ^ 14) with 16384; change (2 ^ 17) with 131072;
  change (2 ^ 20) with 1048576; change (2 ^ 23) with 8388608;
  change (2 ^ 26) with 67108864; change (2 ^ 29) with 536870912 in *.
  split.
  - intros Hx. repeat case_decide; cbn [fst snd];
      rewrite ?Z.shiftl_mul_pow2 by lia;
      change (2 ^ 14) with 16384; change (2 ^ 17) with 131072;
      change (2 ^ 20) with 1048576; change (2 ^ 23) with 8388608;
      change (2 ^ 26) with 67108864;
      Z.div_mod_to_equations; lia.
  - intros Hx H9. repeat case_decide; cbn [fst snd];
      rewrite ?Z.shiftl_mul_pow2 by lia;
      change (2 ^ 14) with 16384; change (2 ^ 17) with 131072;
      change (2 ^ 20) with 1048576; change (2 ^ 23) with 8388608;
      change (2 ^ 26) with 67108864;
      intros Hm; Z.div_mod_to_equations; lia.
Qed.

Lemma getBins_meet_region_witness : 4687 ∈ getBins 100000 200000.
Proof.
  apply (getBins_meet_region 100000 200000 4687); [lia | by vm_compute | lia | lia |].
  split; by vm_compute.
Defined.

(** ** The index loader reads a prefix of the file *)

Lemma ReadFull_readsPrefix n : readsPrefix (λ ff, ReadFull ff n).
Proof.
  intros ff a rest Hr. unfold ReadFull in Hr.
  case_decide; [|by repeat case_decide]. injection Hr as <- <-.
  exists (take n ff). split; [by rewrite take_drop|]. split.
  - intros other. unfold ReadFull.
    rewrite decide_True by (rewrite length_app, length_take; lia).
    rewrite take_app_length', drop_app_length' by (rewrite length_take; lia).
    done.
  - intros m Hm. rewrite length_take in Hm. unfold ReadFull.
    rewrite decide_False by (rewrite !length_take; lia).
    case_decide; eexists; (split; [done|]); [by left | by right].
Qed.

Lemma bind_readsPrefix {A B : Type} (f : list byte -> outcome (A * list byte))
    (g : A -> list byte -> outcome (B * list byte)) :
  readsPrefix f -> (∀ a, readsPrefix (g a)) ->
  readsPrefix (λ ff, '(a, ff') ← f ff; g a ff').
Proof.
  intros Hf Hg ff b rest Hr. cbn beta in Hr.
  apply bind_Ret in Hr as ([a ff1] & Hf1 & Hg1).
  destruct (Hf _ _ _ Hf1) as (u0 & -> & Hf2 & Hf3).
  destruct (Hg a _ _ _ Hg1) as (u1 & -> & Hg2 & Hg3).
  exists (u0 ++ u1). split; [by rewrite (assoc_L (++))|]. split.
  - intros other. cbn beta. rewrite <- (assoc_L (++)), Hf2. apply Hg2.
  - intros n Hn. cbn beta. rewrite length_app in Hn.
    destruct (decide (n < length u0)%nat) as [Hlt|Hge].
    + destruct (Hf3 n Hlt) as (e & He & ?). exists e. split; [|done].
      rewrite take_app_le by lia. by rewrite He.
    + rewrite take_app_ge by lia. rewrite Hf2. cbn.
      apply Hg3. lia.
Qed.

Lemma bind_prefixReader {A B : Type} (f : list byte -> outcome (A * list byte))
    (g : A -> list byte -> outcome B) :
  readsPrefix f -> (∀ a, prefixReader (g a)) ->
  prefixReader (λ ff, '(a, ff') ← f ff; g a ff').
Proof.
  intros Hf Hg ff b Hr. cbn beta in Hr.
  apply bind_Ret in Hr as ([a ff1] & Hf1 & Hg1).
  destruct (Hf _ _ _ Hf1) as (u0 & -> & Hf2 & Hf3).
  destruct (Hg a _ _ Hg1) as (u1 & rest & -> & Hg2 & Hg3).
  exists (u0 ++ u1), rest. split; [by rewrite (assoc_L (++))|]. split.
  - intros other. cbn beta. rewrite <- (assoc_L (++)), Hf2. apply Hg2.
  - intros n Hn. cbn beta. rewrite length_app in Hn.
    destruct (decide (n < length u0)%nat) as [Hlt|Hge].
    + destruct (Hf3 n Hlt) as (e & He & ?). exists e. split; [|done].
      rewrite take_app_le by lia. by rewrite He.
    + rewrite take_app_ge by lia. rewrite Hf2. cbn.
      apply Hg3. lia.
Qed.

(** A step that reads nothing. *)
Lemma pure_readsPrefix {A B : Type} (m : outcome A)
    (g : A -> list byte -> outcome (B * list byte)) :
  (∀ a, m = Ret a -> readsPrefix (g a)) -> readsPrefix (λ ff, a ← m; g a ff).
Proof.
  intros Hg ff b rest Hr. destruct m as [a| | |]; try done.
  by apply (Hg a eq_refl).
Qed.

Lemma pure_prefixReader {A B : Type} (m : outcome A)
    (g : A -> list byte -> outcome B) :
  (∀ a, m = Ret a -> prefixReader (g a)) -> prefixReader (λ ff, a ← m; g a ff).
Proof.
  intros Hg ff b Hr. destruct m as [a| | |]; try done.
  by apply (Hg a eq_refl).
Qed.

Lemma ret_readsPrefix {A : Type} (a : A) : readsPrefix (λ ff, Ret (a, ff)).
Proof.
  intros ff a' rest [= <- <-]. exists []. split; [done|]. split; [done|].
  intros n Hn. cbn in Hn. lia.
Qed.

Lemma ret_prefixReader {A : Type} (a : A) : prefixReader (λ _, Ret a).
Proof.
  intros ff a' [= <-]. exists [], ff. split; [done|]. split; [done|].
  intros n Hn. cbn in Hn. lia.
Qed.

Lemma panic_readsPrefix {A : Type} : readsPrefix (λ _, @Panic (A * list byte)).
Proof. by intros ff a rest Hr. Qed.

Lemma panic_prefixReader {A : Type} : prefixReader (λ _, @Panic A).
Proof. by intros ff a Hr. Qed.

Lemma readChunks_readsPrefix nc : readsPrefix (λ ff, readChunks ff nc).
Proof.
  unfold readChunks. case_decide; [apply panic_readsPrefix|].
  apply (bind_readsPrefix (λ ff, ReadFull ff _) (λ bs ff, Ret (_ bs, ff))).
  - apply ReadFull_readsPrefix.
  - intros bs. apply (ret_readsPrefix (decodeChunks (Z.to_nat nc) bs)).
Qed.

Lemma readOffsets_readsPrefix ni : readsPrefix (λ ff, readOffsets ff ni).
Proof.
  unfold readOffsets. case_decide; [apply panic_readsPrefix|].
  apply (bind_readsPrefix (λ ff, ReadFull ff _) (λ bs ff, Ret (_ bs, ff))).
  - apply ReadFull_readsPrefix.
  - intros bs. apply (ret_readsPrefix (decodeUint64s (Z.to_nat ni) bs)).
Qed.

Lemma loadBins_readsPrefix n r : readsPrefix (λ ff, loadBins n ff r).
Proof.
  revert r. induction n as [|n IH]; intros r; cbn [loadBins].
  - apply (ret_readsPrefix r).
  - apply (bind_readsPrefix (λ ff, ReadFull ff 8)); [apply ReadFull_readsPrefix|].
    intros tmp.
    apply (pure_readsPrefix (Uint32 (take 4 tmp))). intros bid _.
    apply (pure_readsPrefix (Uint32 (drop 4 tmp))). intros nc _.
    apply (bind_readsPrefix (λ ff, readChunks ff (int32 nc)));
      [apply readChunks_readsPrefix|].
    intros b. case_decide.
    + destruct (b !! 0%nat); [|apply panic_readsPrefix].
      destruct (b !! 1%nat); [|apply panic_readsPrefix]. apply IH.
    + apply IH.
Qed.

Lemma loadRef_readsPrefix : readsPrefix loadRef.
Proof.
  unfold loadRef.
  apply (bind_readsPrefix (λ ff, ReadFull ff 4)); [apply ReadFull_readsPrefix|].
  intros tmp. apply (pure_readsPrefix (Uint32 tmp)). intros nb _.
  apply (bind_readsPrefix (λ ff, loadBins _ ff _)); [apply loadBins_readsPrefix|].
  intros r.
  apply (bind_readsPrefix (λ ff, ReadFull ff 4)); [apply ReadFull_readsPrefix|].
  intros tmp'. apply (pure_readsPrefix (Uint32 tmp')). intros ni _.
  apply (bind_readsPrefix (λ ff, readOffsets ff _));
    [apply readOffsets_readsPrefix|].
  intros ivs.
  apply (ret_readsPrefix
           {| Bins := Bins r; Intervals := ivs; Unmapped := Unmapped r;
              TotalMapped := TotalMapped r; TotalUnmapped := TotalUnmapped r |}).
Qed.

Lemma loadRefs_prefixReader n : prefixReader (loadRefs n).
Proof.
  induction n as [|n IH]; cbn [loadRefs].
  - apply (ret_prefixReader []).
  - apply (bind_prefixReader loadRef); [apply loadRef_readsPrefix|].
    intros r ff refs Hr. apply bind_Ret in Hr as (rest & Hrest & [= <-]).
    destruct (IH _ _ Hrest) as (used & tl & -> & Hu & Hs).
    exists used, tl. split; [done|]. split.
    + intros other. by rewrite Hu.
    + intros m Hm. destruct (Hs m Hm) as (e & -> & ?). by exists e.
Qed.

(** X6: a successful [LoadIndex] is decided by a prefix of the file: the
    loader returns the same index whatever follows that prefix, and on every
    file that ends inside it the loader returns [io.EOF] or
    [io.ErrUnexpectedEOF], never an index and never a panic. *)
Theorem LoadIndex_reads_prefix ff idx :
  LoadIndex ff = Ret idx ->
  ∃ used rest, ff = used ++ rest /\
    (∀ other, LoadIndex (used ++ other) = Ret idx) /\
    (∀ n, (n < length used)%nat ->
       LoadIndex (take n used) = Fail EOF \/
       LoadIndex (take n used) = Fail ErrUnexpectedEOF).
Proof.
  intros Hr.
  assert (prefixReader LoadIndex) as Hp.
  { unfold LoadIndex.
    apply (bind_prefixReader (λ ff, ReadFull ff 8)); [apply ReadFull_readsPrefix|].
    intros tmp. case_decide; [by intros ? ? ?|].
    apply (pure_prefixReader (Uint32 (drop 4 tmp))). intros n _.
    case_decide; [apply panic_prefixReader|].
    intros ff' idx' Hr'. apply bind_Ret in Hr' as (refs & Hrefs & [= <-]).
    destruct (loadRefs_prefixReader _ _ _ Hrefs) as (used & tl & -> & Hu & Hs).
    exists used, tl. split; [done|]. split.
    - intros other. by rewrite Hu.
    - intros m Hm. destruct (Hs m Hm) as (e & -> & ?). by exists e. }
  destruct (Hp ff idx Hr) as (used & rest & -> & Hu & Hs).
  exists used, rest. split; [done|]. split; [done|].
  intros n Hn. destruct (Hs n Hn) as (e & -> & [-> | ->]); auto.
Qed.

Lemma LoadIndex_reads_prefix_witness :
  ∃ idx used rest,
    LoadIndex (["B"; "A"; "I"; x01]%byte ++ leBytes 4 1 ++ leBytes 4 1
               ++ leBytes 4 4681 ++ leBytes 4 1 ++ leBytes 8 100
               ++ leBytes 8 200 ++ leBytes 4 1 ++ leBytes 8 100) = Ret idx /\
    ["B"; "A"; "I"; x01]%byte ++ leBytes 4 1 ++ leBytes 4 1
      ++ leBytes 4 4681 ++ leBytes 4 1 ++ leBytes 8 100
      ++ leBytes 8 200 ++ leBytes 4 1 ++ leBytes 8 100 = used ++ rest /\
    (∀ other, LoadIndex (used ++ other) = Ret idx).
Proof.
  assert (∃ idx,
    LoadIndex (["B"; "A"; "I"; x01]%byte ++ leBytes 4 1 ++ leBytes 4 1
               ++ leBytes 4 4681 ++ leBytes 4 1 ++ leBytes 8 100
               ++ leBytes 8 200 ++ leBytes 4 1 ++ leBytes 8 100) = Ret idx)
    as [idx Hidx].
  { eexists. vm_compute. reflexivity. }
  destruct (LoadIndex_reads_prefix _ _ Hidx) as (used & rest & Hsplit & Hother & _).
  exists idx, used, rest. split; [exact Hidx|]. split; [exact Hsplit | exact Hother].
Defined.

(** ** The shape of a loaded index *)

Lemma loadBins_shape n ff r r' rest :
  loadBins n ff r = Ret (r', rest) ->
  Bins r !! 37450 = None ->
  (∀ k c, Bins r !! k = Some c -> 0 <= k < 2 ^ 32) ->
  Bins r' !! 37450 = None /\
  (∀ k c, Bins r' !! k = Some c -> 0 <= k < 2 ^ 32) /\
  (size (Bins r') <= size (Bins r) + n)%nat.
Proof.
  revert ff r. induction n as [|n IH]; intros ff r Hr Hno Hk; cbn [loadBins] in Hr.
  - injection Hr as <- <-. split; [done|]. split; [done|]. lia.
  - apply bind_Ret in Hr as ([tmp ff1] & _ & Hr).
    apply bind_Ret in Hr as (bid & Hbid & Hr).
    apply bind_Ret in Hr as (nc & _ & Hr).
    apply bind_Ret in Hr as ([b ff2] & _ & Hr).
    apply leUint_bounds in Hbid.
    case_decide as Hp.
    + destruct (b !! 0%nat); [|done]. destruct (b !! 1%nat); [|done].
      destruct (IH _ _ Hr) as (? & ? & Hsz); [done | done |].
      cbn [Bins] in Hsz. split; [done|]. split; [done|]. lia.
    + destruct (IH _ _ Hr) as (? & ? & Hsz); cbn [Bins].
      * by rewrite lookup_insert_ne.
      * intros k c [[<- _] | [_ ?]]%lookup_insert_Some; [|by eapply Hk].
        change (8 * Z.of_nat 4) with 32 in Hbid. lia.
      * split; [done|]. split; [done|]. cbn [Bins] in Hsz.
        destruct (Bins r !! bid) eqn:E;
          [ rewrite map_size_insert_Some in Hsz by done
          | rewrite map_size_insert_None in Hsz by done ]; lia.
Qed.

Lemma decodeUint64s_bounds n bs :
  Forall (λ o, 0 <= o < 2 ^ 64) (decodeUint64s n bs).
Proof.
  revert bs. induction n as [|n IH]; intros bs; cbn; constructor; [|apply IH].
  split; [apply leValue_nonneg|].
  eapply Z.lt_le_trans; [apply leValue_bound|].
  apply Z.pow_le_mono_r; [lia|]. rewrite length_take. lia.
Qed.

Lemma length_decodeUint64s n bs : length (decodeUint64s n bs) = n.
Proof. revert bs. induction n as [|n IH]; intros bs; cbn; [done|]. by rewrite IH. Qed.

(** A reference that [LoadIndex] can return. *)
Lemma loadRef_shape ff r rest :
  loadRef ff = Ret (r, rest) ->
  Bins r !! 37450 = None /\
  (∀ k c, Bins r !! k = Some c -> 0 <= k < 2 ^ 32) /\
  Forall (λ o, 0 <= o < 2 ^ 64) (Intervals r).
Proof.
  unfold loadRef. intros Hr.
  apply bind_Ret in Hr as ([tmp ff1] & _ & Hr).
  apply bind_Ret in Hr as (nb & _ & Hr).
  apply bind_Ret in Hr as ([r0 ff2] & Hbins & Hr).
  apply bind_Ret in Hr as ([tmp' ff3] & _ & Hr).
  apply bind_Ret in Hr as (ni & _ & Hr).
  apply bind_Ret in Hr as ([ivs ff4] & Hivs & Hr).
  injection Hr as <- <-. cbn.
  apply loadBins_shape in Hbins as (? & ? & _); [|done..].
  split; [done|]. split; [done|].
  unfold readOffsets in Hivs. case_decide; [done|].
  apply bind_Ret in Hivs as ([bs ?] & _ & [= <- _]).
  apply decodeUint64s_bounds.
Qed.

Lemma loadRefs_shape n ff refs :
  loadRefs n ff = Ret refs ->
  length refs = n /\
  Forall (λ r, Bins r !! 37450 = None /\
               (∀ k c, Bins r !! k = Some c -> 0 <= k < 2 ^ 32) /\
               Forall (λ o, 0 <= o < 2 ^ 64) (Intervals r)) refs.
Proof.
  revert ff refs. induction n as [|n IH]; intros ff refs Hr; cbn [loadRefs] in Hr.
  - by injection Hr as <-.
  - apply bind_Ret in Hr as ([r ff1] & Hr1 & Hr).
    apply bind_Ret in Hr as (rest & Hrest & [= <-]).
    destruct (IH _ _ Hrest) as [<- ?]. split; [done|].
    constructor; [by eapply loadRef_shape | done].
Qed.

(** An index that [LoadIndex] returns has as many references as the count
    in bytes 4 to 7 of the file says; no reference has the pseudo-bin 37450
    among its bins, every bin number is a 32-bit value and every interval
    offset a 64-bit value. *)
Lemma LoadIndex_shape ff idx :
  LoadIndex ff = Ret idx ->
  (8 <= length ff)%nat /\
  Z.of_nat (length (Refs idx)) = leValue (take 4 (drop 4 ff)) /\
  Forall (λ r, Bins r !! 37450 = None /\
               (∀ k c, Bins r !! k = Some c -> 0 <= k < 2 ^ 32) /\
               Forall (λ o, 0 <= o < 2 ^ 64) (Intervals r)) (Refs idx).
Proof.
  unfold LoadIndex. intros Hr.
  apply bind_Ret in Hr as ([tmp ff1] & Hread & Hr).
  unfold ReadFull in Hread.
  destruct (decide (8 <= length ff)%nat) as [Hlen|];
    [|by destruct (decide (length ff = 0%nat))].
  injection Hread as <- <-.
  destruct (decide (take 8 ff = _)); [done|].
  apply bind_Ret in Hr as (cnt & Hn & Hr).
  destruct (decide (int32 cnt < 0)); [done|].
  apply bind_Ret in Hr as (refs & Hrefs & [= <-]). cbn.
  apply loadRefs_shape in Hrefs as [Hcount ?].
  split; [done|]. split; [|done].
  rewrite Hcount. unfold Uint32, leUint in Hn. case_decide; [|done].
  injection Hn as <-.
  assert (take 4 (drop 4 (take 8 ff)) = take 4 (drop 4 ff)) as Heq.
  { rewrite <- (take_drop 8 ff) at 2. rewrite drop_app_le by (rewrite length_take; lia).
    rewrite take_app_le; [done|]. rewrite length_drop, length_take. lia. }
  rewrite Heq in *.
  pose proof (leValue_nonneg (take 4 (drop 4 ff))).
  pose proof (leValue_bound (take 4 (drop 4 ff))) as Hb.
  rewrite length_take in Hb.
  assert (leValue (take 4 (drop 4 ff)) < 2 ^ 32).
  { eapply Z.lt_le_trans; [done|]. apply Z.pow_le_mono_r; lia. }
  unfold int32 in *.
  destruct (decide (leValue (take 4 (drop 4 ff)) < 2 ^ 31)).
  - rewrite Z.mod_small in * by lia. lia.
  - exfalso. 
    replace ((leValue (take 4 (drop 4 ff)) + 2 ^ 31) mod 2 ^ 32)
      with (leValue (take 4 (drop 4 ff)) + 2 ^ 31 - 2 ^ 32) in *; [lia|].
    apply Z.mod_unique_pos with 1; lia.
Qed.

(** ** Little-endian encoding *)

Lemma byteZ_byteOf z : byteZ (byteOf z) = z mod 2 ^ 8.
Proof.
  unfold byteZ, byteOf, uint8.
  pose proof (Z.mod_pos_bound z (2 ^ 8) eq_refl) as Hz.
  destruct (Byte.of_N (Z.to_N (z mod 2 ^ 8))) as [y|] eqn:E.
  - apply Byte.to_of_N in E. change (default x00 (Some y)) with y.
    rewrite E. lia.
  - apply Byte.of_N_None_iff in E. lia.
Qed.

Lemma length_leBytes w z : length (leBytes w z) = w.
Proof. revert z. induction w as [|w IH]; intros z; cbn; [done|]. by rewrite IH. Qed.

Lemma leValue_leBytes w z :
  0 <= z < 2 ^ (8 * Z.of_nat w) -> leValue (leBytes w z) = z.
Proof.
  revert z. induction w as [|w IH]; intros z Hz; cbn [leBytes leValue].
  - change (2 ^ (8 * Z.of_nat 0)) with 1 in Hz. lia.
  - rewrite byteZ_byteOf, Z.shiftr_div_pow2 by lia.
    replace (8 * Z.of_nat (S w)) with (8 + 8 * Z.of_nat w) in Hz by lia.
    rewrite Z.pow_add_r in Hz by lia.
    rewrite IH.
    + rewrite Z.lor_comm, lor_shiftl_low by (try apply Z.mod_pos_bound; lia).
      pose proof (Z.div_mod z (2 ^ 8) ltac:(lia)). lia.
    + split; [apply Z.div_pos; lia|]. apply Z.div_lt_upper_bound; lia.
Qed.

Lemma Uint32_leBytes z rest :
  0 <= z < 2 ^ 32 -> Uint32 (leBytes 4 z ++ rest) = Ret z.
Proof.
  intros Hz. unfold Uint32, leUint.
  rewrite decide_True by (rewrite length_app, length_leBytes; lia).
  rewrite take_app_length' by (by rewrite length_leBytes).
  by rewrite leValue_leBytes.
Qed.

Lemma Uint32_leBytes_exact z : 0 <= z < 2 ^ 32 -> Uint32 (leBytes 4 z) = Ret z.
Proof. intros Hz. rewrite <- (app_nil_r (leBytes 4 z)). by apply Uint32_leBytes. Qed.

Lemma int32_negative z : 2 ^ 31 <= z < 2 ^ 32 -> int32 z = z - 2 ^ 32.
Proof.
  intros Hz. unfold int32.
  replace ((z + 2 ^ 31) mod 2 ^ 32) with (z + 2 ^ 31 - 2 ^ 32); [lia|].
  apply Z.mod_unique_pos with 1; lia.
Qed.

(** ** Counts that make the loader panic *)

(** X8: three kinds of file make [LoadIndex] panic instead of returning an
    error: a reference count with the top bit set, a chunk count with the top
    bit set, and a pseudo-bin 37450 with fewer than two chunks. *)
Theorem LoadIndex_panics :
  (∀ ff, (8 <= length ff)%nat -> 2 ^ 31 <= leValue (take 4 (drop 4 ff)) ->
     LoadIndex ff = Panic) /\
  (∀ m n nb bid nc rest,
     length m = 4%nat -> 0 < n < 2 ^ 31 -> 0 < nb < 2 ^ 31 ->
     0 <= bid < 2 ^ 32 -> 2 ^ 31 <= nc < 2 ^ 32 ->
     LoadIndex (m ++ leBytes 4 n ++ leBytes 4 nb ++ leBytes 4 bid
                ++ leBytes 4 nc ++ rest) = Panic) /\
  (∀ m n nb nc rest,
     length m = 4%nat -> 0 < n < 2 ^ 31 -> 0 < nb < 2 ^ 31 ->
     0 <= nc < 2 -> (16 <= length rest)%nat ->
     LoadIndex (m ++ leBytes 4 n ++ leBytes 4 nb ++ leBytes 4 37450
                ++ leBytes 4 nc ++ rest) = Panic).
Proof.
  split; [|split].
  - intros ff Hlen Hn. unfold LoadIndex.
    rewrite ReadFull_Ret by done. cbn [mbind outcome_bind].
    rewrite decide_False.
    2:{ intros Heq. apply (f_equal length) in Heq. rewrite length_take in Heq.
        cbn [length] in Heq. lia. }
    assert (take 4 (drop 4 (take 8 ff)) = take 4 (drop 4 ff)) as Heq.
    { rewrite <- (take_drop 8 ff) at 2.
      rewrite drop_app_le by (rewrite length_take; lia).
      rewrite take_app_le; [done|]. rewrite length_drop, length_take. lia. }
    unfold Uint32, leUint.
    rewrite decide_True by (rewrite length_drop, length_take; lia).
    rewrite Heq. cbn [mbind outcome_bind].
    pose proof (leValue_bound (take 4 (drop 4 ff))) as Hb.
    rewrite length_take in Hb.
    assert (leValue (take 4 (drop 4 ff)) < 2 ^ 32).
    { eapply Z.lt_le_trans; [done|]. apply Z.pow_le_mono_r; lia. }
    rewrite int32_negative by lia. rewrite decide_True by lia. done.
  - intros m n nb bid nc rest Hm Hn Hnb Hbid Hnc.
    rewrite LoadIndex_after_magic by (rewrite ?length_app, ?length_leBytes; lia).
    rewrite take_app_length', drop_app_length' by (by rewrite length_leBytes).
    rewrite Uint32_leBytes_exact by lia.
    cbn [mbind outcome_bind]. rewrite int32_small by lia.
    rewrite decide_False by lia.
    destruct (Z.to_nat n) as [|n'] eqn:En; [lia|]. cbn [loadRefs].
    unfold loadRef.
    rewrite ReadFull_Ret by (rewrite ?length_app, ?length_leBytes; lia).
    rewrite take_app_length', drop_app_length' by (by rewrite length_leBytes).
    cbn [mbind outcome_bind].
    rewrite Uint32_leBytes_exact by lia.
    cbn [mbind outcome_bind]. rewrite int32_small by lia.
    destruct (Z.to_nat nb) as [|nb'] eqn:Enb; [lia|]. cbn [loadBins].
    rewrite ReadFull_Ret by (rewrite ?length_app, ?length_leBytes; lia).
    rewrite (assoc_L (++) (leBytes 4 bid)).
    rewrite take_app_length', drop_app_length'
      by (by rewrite length_app, !length_leBytes).
    cbn [mbind outcome_bind].
    rewrite take_app_length', drop_app_length' by (by rewrite length_leBytes).
    rewrite !Uint32_leBytes_exact by lia. cbn [mbind outcome_bind].
    unfold readChunks. rewrite int32_negative by lia.
    rewrite decide_True by lia. done.
  - intros m n nb nc rest Hm Hn Hnb Hnc Hrest.
    rewrite LoadIndex_after_magic by (rewrite ?length_app, ?length_leBytes; lia).
    rewrite take_app_length', drop_app_length' by (by rewrite length_leBytes).
    rewrite Uint32_leBytes_exact by lia.
    cbn [mbind outcome_bind]. rewrite int32_small by lia.
    rewrite decide_False by lia.
    destruct (Z.to_nat n) as [|n'] eqn:En; [lia|]. cbn [loadRefs].
    unfold loadRef.
    rewrite ReadFull_Ret by (rewrite ?length_app, ?length_leBytes; lia).
    rewrite take_app_length', drop_app_length' by (by rewrite length_leBytes).
    cbn [mbind outcome_bind].
    rewrite Uint32_leBytes_exact by lia.
    cbn [mbind outcome_bind]. rewrite int32_small by lia.
    destruct (Z.to_nat nb) as [|nb'] eqn:Enb; [lia|]. cbn [loadBins].
    rewrite ReadFull_Ret by (rewrite ?length_app, ?length_leBytes; lia).
    rewrite (assoc_L (++) (leBytes 4 37450)).
    rewrite take_app_length', drop_app_length'
      by (by rewrite length_app, !length_leBytes).
    cbn [mbind outcome_bind].
    rewrite take_app_length', drop_app_length' by (by rewrite length_leBytes).
    rewrite !Uint32_leBytes_exact by lia. cbn [mbind outcome_bind].
    unfold readChunks. rewrite int32_small by lia.
    rewrite decide_False by lia.
    rewrite ReadFull_Ret by lia. cbn [mbind outcome_bind mret outcome_ret].
    rewrite decide_True by done.
    assert (nc = 0 \/ nc = 1) as [-> | ->] by lia; done.
Qed.

Lemma LoadIndex_panics_witness :
  LoadIndex (["B"; "A"; "I"; x01]%byte ++ leBytes 4 (2 ^ 32 - 1)) = Panic /\
  LoadIndex (["B"; "A"; "I"; x01]%byte ++ leBytes 4 1 ++ leBytes 4 1
             ++ leBytes 4 4681 ++ leBytes 4 (2 ^ 32 - 1) ++ []) = Panic /\
  LoadIndex (["B"; "A"; "I"; x01]%byte ++ leBytes 4 1 ++ leBytes 4 1
             ++ leBytes 4 37450 ++ leBytes 4 1 ++ replicate 16 x00) = Panic.
Proof.
  split; [|split].
  - apply (proj1 LoadIndex_panics); [by vm_compute | by vm_compute].
  - apply (proj1 (proj2 LoadIndex_panics)); [reflexivity | lia ..].
  - apply (proj2 (proj2 LoadIndex_panics)); [reflexivity | lia | lia | lia |].
    by vm_compute.
Defined.

(** ** The index loader decodes the layout of the format *)

Lemma length_flat_map_const {A B : Type} (f : A -> list B) (n : nat) (l : list A) :
  (∀ a, length (f a) = n) -> length (flat_map f l) = (n * length l)%nat.
Proof.
  intros Hf. induction l as [|a l IH]; cbn; [lia|].
  rewrite length_app, Hf, IH. lia.
Qed.

Lemma length_encodeChunk c : length (encodeChunk c) = 16%nat.
Proof. unfold encodeChunk. by rewrite length_app, !length_leBytes. Qed.

Lemma decodeChunks_encode cs rest :
  Forall chunkFits cs ->
  decodeChunks (length cs) (flat_map encodeChunk cs ++ rest) = cs.
Proof.
  induction 1 as [|c cs [Hb He] _ IH]; [done|].
  cbn [length decodeChunks flat_map]. unfold encodeChunk at 1 2 3.
  rewrite <- !(assoc_L (++)).
  rewrite take_app_length' by (by rewrite length_leBytes).
  rewrite drop_app_length' by (by rewrite length_leBytes).
  rewrite take_app_length' by (by rewrite length_leBytes).
  rewrite !leValue_leBytes by done.
  rewrite drop_app_length' by (by rewrite length_encodeChunk).
  rewrite IH. by destruct c.
Qed.

Lemma readChunks_encode cs rest :
  Forall chunkFits cs ->
  readChunks (flat_map encodeChunk cs ++ rest) (Z.of_nat (length cs))
  = Ret (cs, rest).
Proof.
  intros Hcs. unfold readChunks. rewrite decide_False by lia.
  rewrite Nat2Z.id.
  pose proof (length_flat_map_const encodeChunk 16 cs length_encodeChunk) as Hlen.
  rewrite ReadFull_Ret by (rewrite length_app; lia).
  cbn [mbind outcome_bind mret outcome_ret].
  rewrite take_app_length', drop_app_length' by done.
  rewrite <- (app_nil_r (flat_map encodeChunk cs)).
  by rewrite decodeChunks_encode.
Qed.

Lemma decodeUint64s_encode os rest :
  Forall (λ o, 0 <= o < 2 ^ 64) os ->
  decodeUint64s (length os) (flat_map (leBytes 8) os ++ rest) = os.
Proof.
  induction 1 as [|o os Ho _ IH]; [done|].
  cbn [length decodeUint64s flat_map]. rewrite <- (assoc_L (++)).
  rewrite take_app_length', drop_app_length' by (by rewrite length_leBytes).
  by rewrite leValue_leBytes, IH.
Qed.

Lemma readOffsets_encode os rest :
  Forall (λ o, 0 <= o < 2 ^ 64) os ->
  readOffsets (flat_map (leBytes 8) os ++ rest) (Z.of_nat (length os))
  = Ret (os, rest).
Proof.
  intros Hos. unfold readOffsets. rewrite decide_False by lia.
  rewrite Nat2Z.id.
  pose proof (length_flat_map_const (leBytes 8) 8 os (length_leBytes 8)) as Hlen.
  rewrite ReadFull_Ret by (rewrite length_app; lia).
  cbn [mbind outcome_bind mret outcome_ret].
  rewrite take_app_length', drop_app_length' by done.
  rewrite <- (app_nil_r (flat_map (leBytes 8) os)).
  by rewrite decodeUint64s_encode.
Qed.

(** One round of the loop over the bins, on the bytes of one bin. *)
Lemma loadBins_step n bid cs rest r :
  0 <= bid < 2 ^ 32 -> Z.of_nat (length cs) < 2 ^ 31 -> Forall chunkFits cs ->
  loadBins (S n) (encodeBin (bid, cs) ++ rest) r =
  if decide (bid = 37450) then
    match cs !! 0%nat, cs !! 1%nat with
    | Some b0, Some b1 =>
        loadBins n rest
          {| Bins := Bins r; Intervals := Intervals r; Unmapped := b0;
             TotalMapped := uint64 (Begin b1);
             TotalUnmapped := uint64 (End b1) |}
    | _, _ => Panic
    end
  else
    loadBins n rest
      {| Bins := <[bid := cs]> (Bins r); Intervals := Intervals r;
         Unmapped := Unmapped r; TotalMapped := TotalMapped r;
         TotalUnmapped := TotalUnmapped r |}.
Proof.
  intros Hbid Hlen Hcs. cbn [loadBins]. unfold encodeBin. cbn [fst snd].
  rewrite <- !(assoc_L (++)).
  rewrite ReadFull_Ret by (rewrite !length_app, !length_leBytes; lia).
  cbn [mbind outcome_bind].
  rewrite (assoc_L (++) (leBytes 4 bid)).
  rewrite take_app_length', drop_app_length'
    by (by rewrite length_app, !length_leBytes).
  rewrite take_app_length', drop_app_length' by (by rewrite length_leBytes).
  rewrite !Uint32_leBytes_exact by lia. cbn [mbind outcome_bind].
  rewrite int32_small by lia.
  rewrite readChunks_encode by done. done.
Qed.

Lemma loadBins_bins bins rest r n :
  Forall binFits bins ->
  loadBins (length bins + n) (flat_map encodeBin bins ++ rest) r =
  loadBins n rest
    {| Bins := foldl (λ m b, <[b.1 := b.2]> m) (Bins r) bins;
       Intervals := Intervals r; Unmapped := Unmapped r;
       TotalMapped := TotalMapped r; TotalUnmapped := TotalUnmapped r |}.
Proof.
  intros Hbins. revert r.
  induction Hbins as [|[bid cs] bins (Hbid & Hne & Hlen & Hcs) _ IH]; intros r.
  - cbn [length flat_map foldl Nat.add app]. by destruct r.
  - cbn [length flat_map foldl Nat.add]. rewrite <- (assoc_L (++)).
    cbn [fst snd] in *.
    rewrite loadBins_step by done. rewrite decide_False by done.
    by rewrite IH.
Qed.

Lemma loadBins_content rc rest :
  contentFits rc ->
  loadBins (length (binsOf rc)) (flat_map encodeBin (binsOf rc) ++ rest)
    zeroIndexReference =
  Ret ({| Bins := Bins (referenceOf rc); Intervals := [];
          Unmapped := Unmapped (referenceOf rc);
          TotalMapped := TotalMapped (referenceOf rc);
          TotalUnmapped := TotalUnmapped (referenceOf rc) |}, rest).
Proof.
  intros (Hbins & Hps & _). unfold binsOf, referenceOf, binMap.
  rewrite flat_map_app, length_app, <- (assoc_L (++)).
  rewrite loadBins_bins by done. cbn [Bins Intervals Unmapped TotalMapped TotalUnmapped].
  destruct (rcPseudo rc) as [[c0 c1]|]; cbn [length flat_map app].
  - destruct Hps as [H0 [H1b H1e]].
    rewrite app_nil_r.
    rewrite loadBins_step;
      [| lia | cbn; lia
       | apply Forall_cons_2; [done | apply Forall_cons_2; [by split | apply Forall_nil_2]] ].
    rewrite decide_True by done. cbn.
    by rewrite !uint64_small.
  - done.
Qed.

Lemma loadRef_content rc rest :
  contentFits rc ->
  loadRef (encodeRef rc ++ rest) = Ret (referenceOf rc, rest).
Proof.
  intros Hfit. pose proof Hfit as (_ & _ & Hnb & Hni & Hivs).
  unfold loadRef, encodeRef. rewrite <- !(assoc_L (++)).
  rewrite ReadFull_Ret by (rewrite length_app, length_leBytes; lia).
  rewrite take_app_length', drop_app_length' by (by rewrite length_leBytes).
  cbn [mbind outcome_bind].
  rewrite Uint32_leBytes_exact by lia. cbn [mbind outcome_bind].
  rewrite int32_small by lia. rewrite Nat2Z.id.
  rewrite loadBins_content by done. cbn [mbind outcome_bind].
  rewrite ReadFull_Ret by (rewrite length_app, length_leBytes; lia).
  rewrite take_app_length', drop_app_length' by (by rewrite length_leBytes).
  cbn [mbind outcome_bind].
  rewrite Uint32_leBytes_exact by lia. cbn [mbind outcome_bind].
  rewrite int32_small by lia.
  rewrite readOffsets_encode by done. done.
Qed.

Lemma loadRefs_content rcs rest :
  Forall contentFits rcs ->
  loadRefs (length rcs) (flat_map encodeRef rcs ++ rest)
  = Ret (map referenceOf rcs).
Proof.
  induction 1 as [|rc rcs Hrc _ IH]; [done|].
  cbn [length loadRefs flat_map map]. rewrite <- (assoc_L (++)).
  rewrite loadRef_content by done. cbn [mbind outcome_bind].
  by rewrite IH.
Qed.

(** X7: [LoadIndex] decodes the layout of the format. On a file made of
    four bytes of magic, the number of references and the references, each
    with its bins and its intervals, followed by any bytes, the loader
    returns these references in their order: the bins under their numbers
    with their chunks, a later bin of the same number in place of an earlier
    one, the intervals as they are, and of the pseudo-bin 37450 the first
    chunk as [Unmapped] and the two halves of the second as [TotalMapped]
    and [TotalUnmapped]. Whatever the file, an index that the loader returns
    has as many references as bytes 4 to 7 say, and the pseudo-bin is not
    among the bins of any of them. *)
Theorem LoadIndex_decodes :
  (∀ magic rcs rest,
     length magic = 4%nat -> Z.of_nat (length rcs) < 2 ^ 31 ->
     Forall contentFits rcs ->
     LoadIndex (encodeIndex magic rcs ++ rest) =
       Ret {| Refs := map referenceOf rcs |}) /\
  (∀ ff idx,
     LoadIndex ff = Ret idx ->
     Z.of_nat (length (Refs idx)) = leValue (take 4 (drop 4 ff)) /\
     Forall (λ r, Bins r !! 37450 = None) (Refs idx)).
Proof.
  split.
  - intros magic rcs rest Hmagic Hn Hfit.
    unfold encodeIndex. rewrite <- !(assoc_L (++)).
    rewrite LoadIndex_after_magic
      by (rewrite ?length_app, ?length_leBytes; lia).
    rewrite take_app_length', drop_app_length' by (by rewrite length_leBytes).
    rewrite Uint32_leBytes_exact by lia. cbn [mbind outcome_bind].
    rewrite int32_small by lia. rewrite decide_False by lia.
    rewrite Nat2Z.id, loadRefs_content by done. done.
  - intros ff idx Hload.
    destruct (LoadIndex_shape _ _ Hload) as (_ & Hcount & Hrefs).
    split; [done|]. eapply Forall_impl; [exact Hrefs|]. by intros r (? & _).
Qed.

(** The theorem at an index of one reference with bin 4681, the pseudo-bin
    and one interval, behind the magic [BAI\1] and before two more bytes. *)
Lemma LoadIndex_decodes_witness :
  LoadIndex
    (encodeIndex ["B"; "A"; "I"; x01]%byte
       [{| rcBins := [(4681, [{| Begin := 100; End := 200 |}])];
           rcPseudo := Some ({| Begin := 300; End := 400 |},
                             {| Begin := 7; End := 2 |});
           rcIntervals := [100] |}] ++ [x00; x00]%byte)
  = Ret {| Refs := [{| Bins := {[ 4681 := [{| Begin := 100; End := 200 |}] ]};
                       Intervals := [100];
                       Unmapped := {| Begin := 300; End := 400 |};
                       TotalMapped := 7; TotalUnmapped := 2 |}] |}.
Proof.
  apply (proj1 LoadIndex_decodes ["B"; "A"; "I"; x01]%byte
           [{| rcBins := [(4681, [{| Begin := 100; End := 200 |}])];
               rcPseudo := Some ({| Begin := 300; End := 400 |},
                                 {| Begin := 7; End := 2 |});
               rcIntervals := [100] |}]).
  - reflexivity.
  - cbn. lia.
  - apply Forall_cons_2; [|apply Forall_nil_2].
    unfold contentFits, binFits, chunkFits. cbn.
    repeat first [done | lia | split | apply Forall_cons_2 | apply Forall_nil_2].
Defined.

(** ** The shape of a parsed record *)

Lemma range_length r lo hi s :
  range r lo hi = Ret s ->
  Z.of_nat (length (elems s)) = hi - lo /\ 0 <= lo <= hi /\ hi <= capacity r.
Proof.
  unfold range, capacity. case_decide as Hc; [|done]. intros [= <-]. cbn.
  rewrite length_take, length_drop, length_app. unfold capacity in Hc. lia.
Qed.

Lemma int32_range z : - 2 ^ 31 <= int32 z < 2 ^ 31.
Proof.
  unfold int32. pose proof (Z.mod_pos_bound (z + 2 ^ 31) (2 ^ 32) eq_refl). lia.
Qed.

Lemma length_decodeUint32s n bs : length (decodeUint32s n bs) = n.
Proof. revert bs. induction n as [|n IH]; intros bs; cbn; [done|]. by rewrite IH. Qed.

Lemma length_readUint32s n bs : length (readUint32s n bs) = n.
Proof.
  unfold readUint32s. case_decide; [apply length_decodeUint32s|].
  apply length_replicate.
Qed.

Lemma u32at_bounds r offs z : u32at r offs = Ret z -> 0 <= z < 2 ^ 32 /\ offs + 4 <= len r.
Proof.
  unfold u32at. intros H. apply bind_Ret in H as (s & Hs & Hz).
  pose proof (from_len _ _ _ Hs) as Hl.
  pose proof (leUint_bounds _ _ _ Hz). split; [done|].
  unfold Uint32, leUint in Hz. case_decide; [|done]. unfold len in *. lia.
Qed.

Lemma u16at_bounds r offs z : u16at r offs = Ret z -> 0 <= z < 2 ^ 16.
Proof.
  unfold u16at. intros H. apply bind_Ret in H as (s & Hs & Hz).
  by apply leUint_bounds in Hz.
Qed.

(** The fields of a record that [parseAlignment] returns: at least 32
    bytes were read; the signed fields are 32-bit values, [mapq] a byte,
    [bin], [flag] and the number of CIGAR operations 16-bit values; the
    lengths of the parts are those that the fixed fields give, and the parts
    fit the capacity of the slice. *)
Lemma parseAlignment_fields r ba :
  parseAlignment r = Ret ba ->
  32 <= len r /\
  (- 2 ^ 31 <= refID ba < 2 ^ 31 /\ - 2 ^ 31 <= pos ba < 2 ^ 31 /\
   - 2 ^ 31 <= nextRefID ba < 2 ^ 31 /\ - 2 ^ 31 <= nextPos ba < 2 ^ 31 /\
   - 2 ^ 31 <= tlen ba < 2 ^ 31) /\
  (0 <= mapq ba < 2 ^ 8 /\ 0 <= bin ba < 2 ^ 16 /\ 0 <= flag ba < 2 ^ 16 /\
   0 <= cigarOpCount ba < 2 ^ 16) /\
  0 <= seqLen ba < 2 ^ 31 - 1 /\
  (∃ c, at_ r 8 = Ret c /\ Z.of_nat (length (ReadName ba)) = byteZ c - 1) /\
  Z.of_nat (length (cigarPacked ba)) = cigarOpCount ba /\
  Z.of_nat (length (seqPacked ba)) = (seqLen ba + 1) / 2 /\
  Z.of_nat (length (qual ba)) = seqLen ba /\
  32 + (Z.of_nat (length (ReadName ba)) + 1) + 4 * cigarOpCount ba
    + (seqLen ba + 1) / 2 + seqLen ba <= capacity r.
Proof.
  unfold parseAlignment. intros H.
  apply bind_Ret in H as (refID_ & HrefID & H).
  apply bind_Ret in H as (pos_ & Hpos & H).
  apply bind_Ret in H as (rnl & Hrnl & H).
  apply bind_Ret in H as (mapq_ & Hmapq & H).
  apply bind_Ret in H as (bin_ & Hbin & H).
  apply bind_Ret in H as (cnt & Hcnt & H).
  apply bind_Ret in H as (flag_ & Hflag & H).
  apply bind_Ret in H as (sl & Hsl & H).
  apply bind_Ret in H as (nr & Hnr & H).
  apply bind_Ret in H as (np & Hnp & H).
  apply bind_Ret in H as (tl & Htl & H).
  apply bind_Ret in H as (name & Hname & H).
  apply bind_Ret in H as (bb & Hbb & H).
  apply bind_Ret in H as (sp & Hsp & H).
  apply bind_Ret in H as (packed & Hpacked & H).
  apply bind_Ret in H as (q & Hq & H).
  apply bind_Ret in H as (aux & Haux & H).
  injection H as <-. cbn.
  apply u32at_bounds in Htl as [_ Hlen].
  apply u16at_bounds in Hbin, Hcnt, Hflag.
  apply range_length in Hname as (Hn1 & Hn2 & Hn3).
  apply range_length in Hsp as (Hs1 & Hs2 & Hs3).
  apply range_length in Hq as (Hq1 & Hq2 & Hq3).
  pose proof (int32_range sl) as Hsl32.
  pose proof (byteZ_bounds rnl). pose proof (byteZ_bounds mapq_).
  pose proof (int32_range (1 + int32 sl)) as Hsl1.
  rewrite ?(int_small (int32 (1 + int32 sl))) in Hq1, Hq2, Hq3, Hs1, Hs2, Hs3 by lia.
  rewrite (int_small (int32 sl)) in Hq1, Hq2, Hq3 by lia.
  assert (0 <= int32 sl) as Hnonneg by lia.
  assert (int32 sl < 2 ^ 31 - 1) as Hmax.
  { destruct (decide (int32 sl = 2 ^ 31 - 1)) as [E|]; [|lia].
    rewrite E in Hs2.
    assert (Z.quot (int32 (1 + (2 ^ 31 - 1))) 2 = - 2 ^ 30) as E2 by reflexivity.
    rewrite E2 in Hs2. lia. }
  rewrite (int32_small (1 + int32 sl)) in Hs1, Hs2, Hs3, Hq1, Hq2, Hq3 by lia.
  rewrite Z.quot_div_nonneg in Hs1, Hs2, Hs3, Hq1, Hq2, Hq3 by lia.
  replace (1 + int32 sl) with (int32 sl + 1) in * by lia.
  assert (length packed = length (elems sp)) as Hpl.
  { case_decide; [by apply maskLast_length | by injection Hpacked as <-]. }
  repeat split; try apply int32_range; try lia.
  - exists rnl. split; [done | lia].
  - rewrite length_readUint32s. lia.
Qed.

(** X9: a record that [parseAlignment] returns was read from at least 32
    bytes and has a [seq_length] that is not negative; its read name has
    [l_read_name - 1] bytes, its CIGAR [n_cigar_op] entries, its packed
    sequence [(seq_length + 1) / 2] bytes and its qualities [seq_length]
    bytes; the fixed fields and these parts, 32 + [l_read_name] + 4 *
    [n_cigar_op] + [(seq_length + 1) / 2] + [seq_length] bytes, fit the
    capacity of the slice. *)
Theorem parseAlignment_lengths r ba :
  parseAlignment r = Ret ba ->
  32 <= len r /\
  0 <= seqLen ba < 2 ^ 31 - 1 /\
  (∃ c, at_ r 8 = Ret c /\ Z.of_nat (length (ReadName ba)) = byteZ c - 1) /\
  Z.of_nat (length (cigarPacked ba)) = cigarOpCount ba /\
  Z.of_nat (length (seqPacked ba)) = (seqLen ba + 1) / 2 /\
  Z.of_nat (length (qual ba)) = seqLen ba /\
  32 + (Z.of_nat (length (ReadName ba)) + 1) + 4 * cigarOpCount ba
    + (seqLen ba + 1) / 2 + seqLen ba <= capacity r.
Proof.
  intros Hparse.
  destruct (parseAlignment_fields _ _ Hparse)
    as (H1 & _ & _ & H2 & H3 & H4 & H5 & H6 & H7).
  done.
Qed.

Lemma parseAlignment_lengths_witness :
  32 <= len (exact acgtRecord) /\
  Z.of_nat (length (seqPacked acgtAlignment)) = (seqLen acgtAlignment + 1) / 2.
Proof.
  pose proof (parseAlignment_lengths _ _ acgtRecord_parses) as H.
  split; [exact (proj1 H)|].
  exact (proj1 (proj2 (proj2 (proj2 (proj2 H))))).
Defined.

(** ** The length of an unpacked sequence *)

Lemma nibbles_snoc l p :
  nibbles (l ++ [p]) =
  nibbles l ++ [packmapAt (Z.land (Z.shiftr (byteZ p) 4) 15);
                packmapAt (Z.land (byteZ p) 15)].
Proof. unfold nibbles. by rewrite flat_map_app. Qed.

Lemma maskLast_last_nibble bs bs' :
  maskLast bs = Ret bs' -> last (nibbles bs') = Some "="%byte.
Proof.
  unfold maskLast. destruct (last bs) as [b|]; [|done]. intros [= <-].
  rewrite nibbles_snoc, last_app. cbn [last].
  rewrite byteZ_byteOf. f_equal.
  rewrite <- Z.land_ones by lia. change (Z.ones 8) with 255.
  rewrite <- !Z.land_assoc. change (Z.land 240 (Z.land 255 15)) with 0.
  by rewrite Z.land_0_r.
Qed.

Lemma length_removelast {A : Type} (l : list A) :
  length (removelast l) = pred (length l).
Proof.
  destruct l as [|x l _] using rev_ind; [done|].
  rewrite removelast_last, length_app. cbn. lia.
Qed.

(** X10: for a parsed record with [seq_length > 0], [UnpackSequence]
    returns on its packed sequence. The result has [seq_length] characters
    when [seq_length] is odd. When it is even the result has [seq_length]
    characters unless the last base is ['='], and then one fewer: the last
    base is dropped as if it were the padding of an odd length. *)
Theorem parsed_sequence_length r ba :
  parseAlignment r = Ret ba -> 0 < seqLen ba ->
  ∃ seq, UnpackSequence (seqPacked ba) = Ret seq /\
    (Z.odd (seqLen ba) = true -> Z.of_nat (length seq) = seqLen ba) /\
    (Z.even (seqLen ba) = true ->
       if decide (last (nibbles (seqPacked ba)) = Some "="%byte)
       then Z.of_nat (length seq) = seqLen ba - 1
       else Z.of_nat (length seq) = seqLen ba).
Proof.
  intros Hparse Hpos.
  destruct (parseAlignment_fields _ _ Hparse)
    as (_ & _ & _ & Hsl & _ & _ & Hpk & _ & _).
  destruct (parseAlignment_seqField _ _ Hparse) as (offs & sp & _ & _ & Hmask).
  assert (seqPacked ba ≠ []) as Hne.
  { intros E. rewrite E in Hpk. cbn in Hpk.
    assert (1 <= (seqLen ba + 1) / 2); [|lia].
    apply Z.div_le_lower_bound; lia. }
  destruct (UnpackSequence_Ret _ Hne) as (c & Hlast & Hun).
  pose proof (nibbles_length (seqPacked ba)) as Hnl.
  pose proof (Zmod_odd (seqLen ba)) as Hmod.
  eexists. split; [exact Hun|]. split.
  - intros Hodd. rewrite Hodd in Hmod.
    assert (c = "="%byte) as ->.
    { rewrite decide_True in Hmask by (rewrite Z.rem_mod_nonneg; lia).
      apply maskLast_last_nibble in Hmask. congruence. }
    rewrite decide_True by done. rewrite length_removelast, Hnl.
    revert Hpk Hmod. generalize (length (seqPacked ba)). intros n Hpk Hmod.
    Z.div_mod_to_equations. lia.
  - intros Heven. rewrite Hlast.
    rewrite <- Z.negb_odd in Heven. apply negb_true_iff in Heven.
    rewrite Heven in Hmod.
    destruct (decide (c = "="%byte)) as [->|Hc].
    + rewrite decide_True by done. rewrite length_removelast, Hnl.
      revert Hpk Hmod. generalize (length (seqPacked ba)). intros n Hpk Hmod.
      Z.div_mod_to_equations. lia.
    + rewrite decide_False by congruence. rewrite Hnl.
      revert Hpk Hmod. generalize (length (seqPacked ba)). intros n Hpk Hmod.
      Z.div_mod_to_equations. lia.
Qed.

Lemma parsed_sequence_length_witness :
  ∃ seq, UnpackSequence (seqPacked acgtAlignment) = Ret seq /\
         Z.of_nat (length seq) = seqLen acgtAlignment.
Proof.
  destruct (parsed_sequence_length _ _ acgtRecord_parses eq_refl)
    as (seq & Hseq & _ & Heven).
  exists seq. split; [exact Hseq|]. exact (Heven eq_refl).
Defined.

(** ** A window that ends before it begins *)

Lemma formatRow_reversed ba b e :
  - 2 ^ 63 <= e - b < 0 -> formatRow ba b e = Panic.
Proof.
  intros Hw. unfold formatRow.
  assert (int (uint64 (e - b)) = e - b) as Hepad.
  { unfold uint64.
    replace ((e - b) mod 2 ^ 64) with (e - b + 2 ^ 64)
      by (apply Z.mod_unique_pos with (-1); lia).
    unfold int, int64.
    replace ((e - b + 2 ^ 64 + 2 ^ 63) mod 2 ^ 64) with (e - b + 2 ^ 63)
      by (apply Z.mod_unique_pos with 1; lia).
    lia. }
  rewrite Hepad.
  assert ((∃ seq, UnpackSequence (seqPacked ba) = Ret seq) \/
          UnpackSequence (seqPacked ba) = Panic) as [[seq ->] | ->]; [|cbn|done].
  { unfold UnpackSequence.
    destruct (last _); [|by right]. left. case_decide; eauto. }
  cbn [mbind outcome_bind].
  repeat case_decide; cbn [mbind outcome_bind]; try done;
    repeat case_decide; try done; lia.
Qed.

Lemma appendRow_reversed ba b e result result' :
  - 2 ^ 63 <= e - b < 0 ->
  appendRow ba b e result = Ret result' -> result' = result.
Proof.
  intros Hw Happ. unfold appendRow in Happ. case_match.
  - by rewrite formatRow_reversed in Happ.
  - by injection Happ as <-.
Qed.

Lemma scanAlignments_reversed bas refID_ b e result result' :
  - 2 ^ 63 <= e - b < 0 ->
  scanAlignments bas refID_ b e result = Ret result' -> result' = result.
Proof.
  intros Hw. revert result.
  induction bas as [|ba bas IH]; intros result Hscan; cbn [scanAlignments] in Hscan.
  - by injection Hscan as <-.
  - case_decide; [by apply IH|].
    bind_inv Hscan. apply appendRow_reversed in E as ->; [|done]. by apply IH.
Qed.

Lemma scanRecords_reversed rounds seen r refID_ b e result result' seen' r' done_ :
  - 2 ^ 63 <= e - b < 0 ->
  scanRecords rounds seen r refID_ b e result = Ret (result', seen', r', done_) ->
  result' = result.
Proof.
  intros Hw. revert seen r result.
  induction rounds as [|rounds IH]; intros seen r result Hscan;
    cbn [scanRecords] in Hscan; case_decide; try done;
    try (by injection Hscan as <- <- <- <-).
  bind_inv Hscan. case_decide; [by injection Hscan as <- <- <- <-|].
  bind_inv Hscan. bind_inv Hscan. bind_inv Hscan.
  case_decide; [by injection Hscan as <- <- <- <-|].
  bind_inv Hscan. bind_inv Hscan.
  match goal with H : appendRow _ _ _ _ = Ret _ |- _ =>
    apply appendRow_reversed in H as ->; [|done] end.
  by eapply IH.
Qed.

Lemma scanBlocks_reversed budget am pi po p2 rem refID_ b e result result' am' :
  - 2 ^ 63 <= e - b < 0 ->
  scanBlocks budget am pi po p2 rem refID_ b e result = Ret (result', am') ->
  result' = result.
Proof.
  intros Hw. revert am pi po rem result.
  induction budget as [|budget IH]; intros am pi po rem result Hscan;
    cbn [scanBlocks] in Hscan; case_decide; try done;
    try (by injection Hscan as <- <-).
  bind_inv Hscan. bind_inv Hscan. bind_inv Hscan.
  match goal with H : scanRecords _ _ _ _ _ _ _ = Ret _ |- _ =>
    apply scanRecords_reversed in H as ->; [|done] end.
  case_match; [by injection Hscan as <- <-|].
  by eapply IH.
Qed.

Lemma scanChunks_reversed budget am chunks refID_ b e result result' am' :
  - 2 ^ 63 <= e - b < 0 ->
  scanChunks budget am chunks refID_ b e result = Ret (result', am') ->
  result' = result.
Proof.
  intros Hw. revert am result.
  induction chunks as [|chunk chunks IH]; intros am result Hscan;
    cbn [scanChunks] in Hscan.
  - by injection Hscan as <- <-.
  - bind_inv Hscan. apply scanBlocks_reversed in E as ->; [|done]. by eapply IH.
Qed.

(** X11: a query whose window ends before it begins, [end < begin], gives
    no row. A record that passes the range test makes the query panic, at
    [seq[:epad]] with the negative width [epad]; so the query returns the
    empty result or does not return. Indexed or not. *)
Theorem reversed_window_no_rows :
  (∀ ba b e, 0 <= e < b -> b < 2 ^ 63 -> formatRow ba b e = Panic) /\
  (∀ budget am refID_ b e rows am',
     0 <= e < b -> b < 2 ^ 63 ->
     GetMap budget am refID_ b e = Ret (rows, am') -> rows = []) /\
  (∀ am refID_ b e rows,
     0 <= e < b -> b < 2 ^ 63 ->
     noindexGetMap am refID_ b e = Ret rows -> rows = []).
Proof.
  assert (Hno : ∀ am refID_ b e rows,
    - 2 ^ 63 <= e - b < 0 ->
    noindexGetMap am refID_ b e = Ret rows -> rows = []).
  { intros am refID_ b e rows Hw Hq. unfold noindexGetMap in Hq.
    bind_inv Hq. case_match; [done|]. by eapply scanAlignments_reversed. }
  split; [|split].
  - intros ba b e Hbe Hb. apply formatRow_reversed. lia.
  - intros budget am refID_ b e rows am' Hbe Hb Hq. unfold GetMap in Hq.
    bind_inv Hq. case_match.
    + bind_inv Hq. eapply scanChunks_reversed; [|done]. lia.
    + bind_inv Hq. injection Hq as <- <-. eapply Hno; [|done]. lia.
  - intros am refID_ b e rows Hbe Hb. apply Hno. lia.
Qed.

Lemma reversed_window_no_rows_witness :
  formatRow acgtAlignment 115 95 = Panic /\
  ∃ am', GetMap 1 (indexed (framed acgtRecord) 4681) 0 200 150 = Ret ([], am').
Proof.
  split.
  - apply (proj1 reversed_window_no_rows); lia.
  - destruct (GetMap 1 (indexed (framed acgtRecord) 4681) 0 200 150)
      as [[rows am']| | |] eqn:Hq; [|by vm_compute in Hq ..].
    exists am'.
    pose proof (proj1 (proj2 reversed_window_no_rows)
                  1%nat (indexed (framed acgtRecord) 4681) 0 200 150 rows am'
                  ltac:(lia) ltac:(lia) Hq) as Hrows.
    rewrite Hrows. reflexivity.
Defined.

(** ** The rows of a query without index *)

Lemma scanAlignments_rows bas refID_ b e result result' :
  scanAlignments bas refID_ b e result = Ret result' ↔
  ∃ new, result' = result ++ new /\
    Forall2 (λ ba row, formatRow ba b e = Ret row)
      (filter (λ ba, refID ba = refID_ /\ inRange ba b e = true) bas) new.
Proof.
  revert result. induction bas as [|ba bas IH]; intros result;
    cbn [scanAlignments].
  - rewrite filter_nil. split.
    + intros [= <-]. exists []. by rewrite app_nil_r.
    + intros (new & -> & ->%Forall2_nil_inv_l). by rewrite app_nil_r.
  - case_decide as Href.
    + rewrite filter_cons_False by (by intros [? _]). apply IH.
    + unfold appendRow.
      destruct (inRange ba b e) eqn:Hin.
      * rewrite filter_cons_True by done. split.
        -- intros Hscan. bind_inv Hscan. bind_inv E. injection E as <-.
           apply IH in Hscan as (new & -> & Hnew).
           exists (a0 :: new). split; [by rewrite <- (assoc_L (++))|].
           by constructor.
        -- intros (new & -> & Hnew).
           apply Forall2_cons_inv_l in Hnew as (row & new' & Hrow & Hnew & ->).
           rewrite Hrow. cbn. apply IH. exists new'.
           split; [by rewrite <- (assoc_L (++))|done].
      * rewrite filter_cons_False by (intros [_ ?]; congruence). cbn. apply IH.
Qed.

(** X12: without index a query returns one row for every record of the
    alignment list that belongs to the reference and passes the range test,
    in the order of the list, each row the formatted record; and it returns
    whenever the reference and the window are valid, the file was loaded in
    whole and every such record can be formatted. *)
Theorem noindexGetMap_rows am refID_ b e rows :
  checkRange am refID_ b e = Ret () -> partial am = false ->
  noindexGetMap am refID_ b e = Ret rows ↔
  Forall2 (λ ba row, formatRow ba b e = Ret row)
    (filter (λ ba, refID ba = refID_ /\ inRange ba b e = true) (Alignments am))
    rows.
Proof.
  intros Hcheck Hpartial. unfold noindexGetMap.
  rewrite Hcheck, Hpartial. cbn [mbind outcome_bind].
  rewrite scanAlignments_rows. split.
  - by intros (new & -> & Hnew).
  - intros Hrows. by exists rows.
Qed.

Lemma noindexGetMap_rows_witness :
  ∃ rows, noindexGetMap
            {| source := None; partial := false; blocks := MapCache ∅;
               blockAdvance := ∅; index := None; Header := [];
               References := oneReference; Alignments := [acgtAlignment] |}
            0 95 115 = Ret rows.
Proof.
  eexists.
  apply (noindexGetMap_rows
           {| source := None; partial := false; blocks := MapCache ∅;
              blockAdvance := ∅; index := None; Header := [];
              References := oneReference; Alignments := [acgtAlignment] |}
           0 95 115); [reflexivity | reflexivity |].
  cbn [Alignments].
  rewrite filter_cons_True by (split; reflexivity).
  rewrite filter_nil.
  constructor; [vm_compute; reflexivity | constructor].
Defined.


(** ** What a query leaves as it is *)








